(** * Device connection manager, trigger poller and dispatch retry wrapper

    A shallow embedding of the node service: the [DeviceController] that owns
    the serial port, the [BlockchainListener] that polls the ledger and the
    helper [sendCommandWithRetry].

    The classes are those of the latest variant of the service, the one
    with the device-presence check and [MAX_RECONNECT_ATTEMPTS = Infinity].

    The service runs on one JavaScript event loop.  Every method body and
    every callback runs to completion, so a method or callback of the source
    is a function [World -> World]; what the runtime, the serial port and
    the ledger provider do between two callbacks is an [Event] chosen by the
    environment.  An [async] function is cut at its [await]s: the state
    records where each call is suspended, and the event that settles the
    awaited promise resumes it. *)

From Stdlib Require Import List String ZArith Lia Bool Arith.
From Equations Require Import Equations.
Import ListNotations.
Local Open Scope string_scope.
Local Open Scope Z_scope.
Local Open Scope list_scope.

(** ** Responses *)

(** [interface SerialResponse { success: boolean; message: string }] *)
Record SerialResponse := mkResponse { success : bool; message : string }.

(** A JavaScript number that may be [Infinity] (only the bound on the
    reconnection attempts needs it). *)
Inductive JsNum :=
| Finite (z : Z)
| Infinity.

(** [n >= m] for a finite [n]. *)
Definition js_ge (n : Z) (m : JsNum) : bool :=
  match m with
  | Finite z => z <=? n
  | Infinity => false
  end.

Module DeviceController.

(** *** Data *)

(** The part of a [SerialPort] instance the controller reads. *)
Record SerialPort := mkPort { autoOpen : bool; isOpen : bool }.

(** An entry of [commandQueue]: the command and the [resolve]/[reject] pair
    of the promise returned by [sendCommand], named by the promise's number. *)
Record QueuedCommand := mkQueued { command : string; promise : nat }.

(** What the controller does to the outside: calls on the serial port, on
    the timers of the event loop and on the [resolve]/[reject] functions of
    the promises it handed out. *)
Inductive Action :=
| PortNew (auto : bool)                       (* new SerialPort({autoOpen}) *)
| PortOpen (p : nat)                          (* port.open(cb), cb settles promise p *)
| PortWrite (cmd : string) (p : nat)          (* port.write(cmd, cb) *)
| PortClose                                   (* port.close() *)
| Resolve (p : nat) (r : SerialResponse)
| Reject (p : nat) (r : SerialResponse)
| SetTimeout (h : nat) (delay : Z)
| ClearTimeout (h : nat)
| SetInterval (h : nat) (ms : Z)
| ClearInterval (h : nat).

(** The private fields of [class DeviceController]. *)
Record Fields := mkFields {
  port : option SerialPort;
  isConnected : bool;
  reconnectTimer : option nat;
  reconnectAttempts : Z;
  commandQueue : list QueuedCommand;
  deviceCheckInterval : option nat
}.

(** The controller together with the runtime around it: the timeouts and
    intervals that are armed, the callbacks the serial port still holds, the
    counters that name timer handles and promises, and the actions so far. *)
Record World := mkWorld {
  this : Fields;
  timeouts : list (nat * Z);
  intervals : list nat;
  nextHandle : nat;
  nextPromise : nat;
  pendingOpens : list nat;
  pendingWrites : list (nat * string);
  trace : list Action
}.

Definition MAX_RECONNECT_ATTEMPTS : JsNum := Infinity.
Definition INITIAL_RECONNECT_DELAY : Z := 1000.
Definition MAX_RECONNECT_DELAY : Z := 30000.
Definition DEVICE_CHECK_INTERVAL_MS : Z := 5000.

(** *** Field updates *)

Definition updThis (f : Fields -> Fields) (w : World) : World :=
  mkWorld (f (this w)) (timeouts w) (intervals w) (nextHandle w)
          (nextPromise w) (pendingOpens w) (pendingWrites w) (trace w).

Definition setPort (v : option SerialPort) : World -> World :=
  updThis (fun d => mkFields v (isConnected d) (reconnectTimer d)
                      (reconnectAttempts d) (commandQueue d) (deviceCheckInterval d)).
Definition setIsConnected (v : bool) : World -> World :=
  updThis (fun d => mkFields (port d) v (reconnectTimer d)
                      (reconnectAttempts d) (commandQueue d) (deviceCheckInterval d)).
Definition setReconnectTimer (v : option nat) : World -> World :=
  updThis (fun d => mkFields (port d) (isConnected d) v
                      (reconnectAttempts d) (commandQueue d) (deviceCheckInterval d)).
Definition setReconnectAttempts (v : Z) : World -> World :=
  updThis (fun d => mkFields (port d) (isConnected d) (reconnectTimer d)
                      v (commandQueue d) (deviceCheckInterval d)).
Definition setCommandQueue (v : list QueuedCommand) : World -> World :=
  updThis (fun d => mkFields (port d) (isConnected d) (reconnectTimer d)
                      (reconnectAttempts d) v (deviceCheckInterval d)).
Definition setDeviceCheckInterval (v : option nat) : World -> World :=
  updThis (fun d => mkFields (port d) (isConnected d) (reconnectTimer d)
                      (reconnectAttempts d) (commandQueue d) v).

(** *** Runtime primitives *)

Definition emit (a : Action) (w : World) : World :=
  mkWorld (this w) (timeouts w) (intervals w) (nextHandle w)
          (nextPromise w) (pendingOpens w) (pendingWrites w) (trace w ++ [a]).

(** [setTimeout(cb, delay)]: a fresh handle, armed. *)
Definition setTimeout (delay : Z) (w : World) : nat * World :=
  let h := nextHandle w in
  (h, emit (SetTimeout h delay)
        (mkWorld (this w) (timeouts w ++ [(h, delay)]) (intervals w) (S h)
                 (nextPromise w) (pendingOpens w) (pendingWrites w) (trace w))).

(** [clearTimeout(h)]: disarms [h]; nothing happens if it is not armed. *)
Definition clearTimeout (h : nat) (w : World) : World :=
  emit (ClearTimeout h)
    (mkWorld (this w) (filter (fun t => negb (fst t =? h)%nat) (timeouts w))
             (intervals w) (nextHandle w)
             (nextPromise w) (pendingOpens w) (pendingWrites w) (trace w)).

Definition setInterval (ms : Z) (w : World) : nat * World :=
  let h := nextHandle w in
  (h, emit (SetInterval h ms)
        (mkWorld (this w) (timeouts w) (intervals w ++ [h]) (S h)
                 (nextPromise w) (pendingOpens w) (pendingWrites w) (trace w))).

Definition clearInterval (h : nat) (w : World) : World :=
  emit (ClearInterval h)
    (mkWorld (this w) (timeouts w)
             (filter (fun i => negb (i =? h)%nat) (intervals w)) (nextHandle w)
             (nextPromise w) (pendingOpens w) (pendingWrites w) (trace w)).

(** [new Promise(...)]: the number of the promise the call returns. *)
Definition newPromise (w : World) : nat * World :=
  (nextPromise w,
   mkWorld (this w) (timeouts w) (intervals w) (nextHandle w)
           (S (nextPromise w)) (pendingOpens w) (pendingWrites w) (trace w)).

(** [port.write(cmd, cb)]: the port keeps [cb] until it calls it. *)
Definition portWrite (cmd : string) (p : nat) (w : World) : World :=
  emit (PortWrite cmd p)
    (mkWorld (this w) (timeouts w) (intervals w) (nextHandle w)
             (nextPromise w) (pendingOpens w) (pendingWrites w ++ [(p, cmd)]) (trace w)).

(** [port.open(cb)] *)
Definition portOpen (p : nat) (w : World) : World :=
  emit (PortOpen p)
    (mkWorld (this w) (timeouts w) (intervals w) (nextHandle w)
             (nextPromise w) (pendingOpens w ++ [p]) (pendingWrites w) (trace w)).

(** [port.close()]: [isOpen] is false from the call on. *)
Definition portClose (w : World) : World :=
  emit PortClose
    (match port (this w) with
     | Some sp => setPort (Some (mkPort (autoOpen sp) false)) w
     | None => w
     end).

Definition portIsOpen (w : World) : bool :=
  match port (this w) with
  | Some sp => isOpen sp
  | None => false
  end.

(** *** Methods of the class, in the order of the source *)

(** [while (this.commandQueue.length > 0) { const cmd = this.commandQueue.shift();
    if (cmd) body(cmd) }], the loop of [processCommandQueue] and of
    [rejectAllQueuedCommands]. *)
Fixpoint drainQueue (fuel : nat) (body : QueuedCommand -> World -> World)
         (w : World) : World :=
  match fuel with
  | O => w
  | S fuel' =>
      match commandQueue (this w) with
      | [] => w
      | cmd :: rest => drainQueue fuel' body (body cmd (setCommandQueue rest w))
      end
  end.

(** [cmd.reject({ success: false, message: `Command ${cmd.command} failed: ${reason}` })] *)
Definition rejectQueued (reason : string) (cmd : QueuedCommand) : Action :=
  Reject (promise cmd)
    (mkResponse false ("Command " ++ command cmd ++ " failed: " ++ reason)).

Definition rejectAllQueuedCommands (reason : string) (w : World) : World :=
  drainQueue (List.length (commandQueue (this w)))
    (fun cmd => emit (rejectQueued reason cmd)) w.

(** [Math.min(INITIAL_RECONNECT_DELAY * Math.pow(2, attempts), MAX_RECONNECT_DELAY)] *)
Definition backoffDelay (attempts : Z) : Z :=
  Z.min (INITIAL_RECONNECT_DELAY * 2 ^ attempts) MAX_RECONNECT_DELAY.

Definition attemptReconnect (w : World) : World :=
  let w :=
    match reconnectTimer (this w) with
    | Some h => setReconnectTimer None (clearTimeout h w)
    | None => w
    end in
  if js_ge (reconnectAttempts (this w)) MAX_RECONNECT_ATTEMPTS then
    rejectAllQueuedCommands "Max reconnection attempts reached" w
  else
    let delay := backoffDelay (reconnectAttempts (this w)) in
    let '(h, w) := setTimeout delay w in
    setReconnectTimer (Some h) w.

Definition startReconnection (w : World) : World :=
  match reconnectTimer (this w) with
  | None => attemptReconnect w
  | Some _ => w
  end.

(** The three listeners of [setupPortListeners] are methods of the
    controller below ([onOpen], [onError], [onClose]); both places that
    create a port attach them right away, and [recreatePort] detaches them
    from the port it replaces, so they run for the port in [port] only. *)
Definition recreatePort (w : World) : World :=
  let w :=
    match port (this w) with
    | Some sp => if isOpen sp then portClose w else w
    | None => w
    end in
  setPort (Some (mkPort true false)) (emit (PortNew true) w).

(** The callback given to [setTimeout] in [attemptReconnect]. *)
Definition reconnectTimerCallback (w : World) : World :=
  let w := recreatePort w in
  setReconnectAttempts (reconnectAttempts (this w) + 1) w.

Definition executeCommand (cmd : string) (p : nat) (w : World) : World :=
  if negb (isConnected (this w)) then
    emit (Reject p (mkResponse false "Device not connected")) w
  else
    match port (this w) with
    | None => emit (Reject p (mkResponse false "Port is not initialized")) w
    | Some _ => portWrite cmd p w
    end.

(** The callback given to [port.write] in [executeCommand]. *)
Definition writeCallback (cmd : string) (p : nat) (err : option string)
           (w : World) : World :=
  match err with
  | Some msg =>
      emit (Reject p (mkResponse false ("Failed to send command: " ++ msg)))
        (setIsConnected false w)
  | None =>
      emit (Resolve p (mkResponse true ("Command " ++ cmd ++ " sent successfully"))) w
  end.

(** The settlement made by the write callback. *)
Definition writeSettled (cmd : string) (p : nat) (err : option string) : Action :=
  match err with
  | Some msg => Reject p (mkResponse false ("Failed to send command: " ++ msg))
  | None => Resolve p (mkResponse true ("Command " ++ cmd ++ " sent successfully"))
  end.

(** [executeCommand(cmd.command).then(cmd.resolve).catch(cmd.reject)]: the
    outcome of the inner promise is passed on to the queued one. *)
Definition processCommandQueue (w : World) : World :=
  drainQueue (List.length (commandQueue (this w)))
    (fun cmd => executeCommand (command cmd) (promise cmd)) w.

Definition connect (w : World) : World :=
  let '(p, w) := newPromise w in
  if isConnected (this w) then
    emit (Resolve p (mkResponse true "Already connected")) w
  else
    match port (this w) with
    | None => emit (Reject p (mkResponse false "Port is not initialized")) w
    | Some _ =>
        let w := setReconnectAttempts 0 w in
        let w :=
          match reconnectTimer (this w) with
          | Some h => setReconnectTimer None (clearTimeout h w)
          | None => w
          end in
        portOpen p w
    end.

(** The callback given to [port.open] in [connect]. *)
Definition openCallback (p : nat) (err : option string) (w : World) : World :=
  match err with
  | Some msg => emit (Reject p (mkResponse false ("Failed to open port: " ++ msg))) w
  | None => emit (Resolve p (mkResponse true "Connected successfully")) w
  end.

Definition sendCommand (cmd : string) (w : World) : World :=
  let '(p, w) := newPromise w in
  if negb (isConnected (this w)) then
    startReconnection
      (setCommandQueue (commandQueue (this w) ++ [mkQueued cmd p]) w)
  else
    executeCommand cmd p w.

Definition cleanup (w : World) : World :=
  let w :=
    match deviceCheckInterval (this w) with
    | Some h => setDeviceCheckInterval None (clearInterval h w)
    | None => w
    end in
  let w :=
    match reconnectTimer (this w) with
    | Some h => setReconnectTimer None (clearTimeout h w)
    | None => w
    end in
  let w := rejectAllQueuedCommands "Application shutting down" w in
  if portIsOpen w then portClose w else w.

(** Listeners. *)
Definition onOpen (w : World) : World :=
  processCommandQueue (setReconnectAttempts 0 (setIsConnected true w)).

Definition onError (w : World) : World :=
  startReconnection (setIsConnected false w).

Definition onClose (w : World) : World :=
  startReconnection (setIsConnected false w).

(** The callback given to [setInterval] in [startDeviceCheck];
    [deviceExists] is what [fs.existsSync(this.portPath)] answers. *)
Definition deviceCheckCallback (deviceExists : bool) (w : World) : World :=
  if deviceExists && negb (isConnected (this w))
     && match reconnectTimer (this w) with None => true | Some _ => false end
  then startReconnection w
  else if negb deviceExists && isConnected (this w) then
    (if portIsOpen w then portClose w else w)
  else w.

Definition startDeviceCheck (w : World) : World :=
  let w :=
    match deviceCheckInterval (this w) with
    | Some h => clearInterval h w
    | None => w
    end in
  let '(h, w) := setInterval DEVICE_CHECK_INTERVAL_MS w in
  setDeviceCheckInterval (Some h) w.

(** [ctorThrows]: whether [new SerialPort] throws (the [catch] branch). *)
Definition initializePort (deviceExists ctorThrows : bool) (w : World) : World :=
  if deviceExists then
    if ctorThrows then startReconnection w
    else connect (setPort (Some (mkPort false false)) (emit (PortNew false) w))
  else startReconnection w.

Definition emptyWorld : World :=
  mkWorld (mkFields None false None 0 [] None) [] [] O O [] [] [].

(** [new DeviceController(portPath)] *)
Definition construct (deviceExists ctorThrows : bool) : World :=
  initializePort deviceExists ctorThrows (startDeviceCheck emptyWorld).

(** *** The environment *)

Inductive Event :=
| CallConnect
| CallSendCommand (cmd : string)
| CallCleanup
| PortOpened                                  (* the port emits 'open' *)
| PortErrored                                 (* the port emits 'error' *)
| PortClosed                                  (* the port emits 'close' *)
| OpenCallback (p : nat) (err : option string)
| WriteCallback (p : nat) (err : option string)
| ReconnectTimerFired (h : nat)
| DeviceCheckTick (h : nat) (deviceExists : bool).

Definition setPortOpen (b : bool) (w : World) : World :=
  match port (this w) with
  | Some sp => setPort (Some (mkPort (autoOpen sp) b)) w
  | None => w
  end.

Definition armed (h : nat) (w : World) : bool :=
  existsb (fun t => (fst t =? h)%nat) (timeouts w).

Definition disarm (h : nat) (w : World) : World :=
  mkWorld (this w) (filter (fun t => negb (fst t =? h)%nat) (timeouts w))
          (intervals w) (nextHandle w)
          (nextPromise w) (pendingOpens w) (pendingWrites w) (trace w).

Definition takeOpen (p : nat) (w : World) : World :=
  mkWorld (this w) (timeouts w) (intervals w) (nextHandle w) (nextPromise w)
          (filter (fun q => negb (q =? p)%nat) (pendingOpens w))
          (pendingWrites w) (trace w).

Definition takeWrite (p : nat) (w : World) : World :=
  mkWorld (this w) (timeouts w) (intervals w) (nextHandle w) (nextPromise w)
          (pendingOpens w)
          (filter (fun q => negb (fst q =? p)%nat) (pendingWrites w)) (trace w).

(** One turn of the event loop.  An event that cannot happen (a listener of
    a port that does not exist, a timer that is not armed, a callback the
    port does not hold) changes nothing. *)
Definition step (w : World) (e : Event) : World :=
  match e with
  | CallConnect => connect w
  | CallSendCommand cmd => sendCommand cmd w
  | CallCleanup => cleanup w
  | PortOpened =>
      match port (this w) with
      | Some _ => onOpen (setPortOpen true w)
      | None => w
      end
  | PortErrored =>
      match port (this w) with
      | Some _ => onError w
      | None => w
      end
  | PortClosed =>
      match port (this w) with
      | Some _ => onClose (setPortOpen false w)
      | None => w
      end
  | OpenCallback p err =>
      if existsb (Nat.eqb p) (pendingOpens w)
      then openCallback p err (takeOpen p w) else w
  | WriteCallback p err =>
      match find (fun q => (fst q =? p)%nat) (pendingWrites w) with
      | Some (_, cmd) => writeCallback cmd p err (takeWrite p w)
      | None => w
      end
  | ReconnectTimerFired h =>
      if armed h w then reconnectTimerCallback (disarm h w) else w
  | DeviceCheckTick h deviceExists =>
      if existsb (Nat.eqb h) (intervals w)
      then deviceCheckCallback deviceExists w else w
  end.

Definition run (evs : list Event) (w : World) : World := fold_left step evs w.

(** The commands submitted by a list of events, in order. *)
Definition submitted (evs : list Event) : list string :=
  flat_map (fun e => match e with CallSendCommand c => [c] | _ => [] end) evs.

(** Events other than the port opening and the controller being shut down. *)
Definition keepsQueue (e : Event) : bool :=
  match e with
  | PortOpened | CallCleanup => false
  | _ => true
  end.

Definition writeOf (q : QueuedCommand) : Action := PortWrite (command q) (promise q).

(** *** Reading a trace *)

(** The calls of [resolve] or [reject] of promise [p]. *)
Definition isSettle (p : nat) (a : Action) : bool :=
  match a with
  | Resolve q _ | Reject q _ => (q =? p)%nat
  | _ => false
  end.

(** The calls of [port.write] whose callback settles promise [p]. *)
Definition isWrite (p : nat) (a : Action) : bool :=
  match a with
  | PortWrite _ q => (q =? p)%nat
  | _ => false
  end.

Definition settles (p : nat) (tr : list Action) : nat :=
  List.length (filter (isSettle p) tr).

Definition writesOf (p : nat) (tr : list Action) : nat :=
  List.length (filter (isWrite p) tr).

(** An action that neither settles a promise nor writes to the port. *)
Definition quiet (a : Action) : bool :=
  match a with
  | Resolve _ _ | Reject _ _ | PortWrite _ _ => false
  | _ => true
  end.

(** A fulfilment carries [success = true], a rejection [success = false]. *)
Definition outcomeOk (a : Action) : bool :=
  match a with
  | Resolve _ r => success r
  | Reject _ r => negb (success r)
  | _ => true
  end.

(** [a] settles promise [p], with the flag that fits. *)
Definition outcomeOf (p : nat) (a : Action) : bool :=
  isSettle p a && outcomeOk a.

(** Who holds the [resolve]/[reject] pair of a promise: the queue, the
    port (a write callback), or the port (an open callback). *)
Definition queuedPromises (w : World) : list nat :=
  map promise (commandQueue (this w)).
Definition writingPromises (w : World) : list nat :=
  map fst (pendingWrites w).

(** The rejection [cleanup()] gives a queued command. *)
Definition shuttingDown : QueuedCommand -> Action :=
  rejectQueued "Application shutting down".

(** What one turn of the event loop does to the promises. *)
Inductive moves (w w' : World) : Prop :=
| mv_quiet (d : list Action) :
    forallb quiet d = true ->
    commandQueue (this w') = commandQueue (this w) ->
    pendingWrites w' = pendingWrites w ->
    pendingOpens w' = pendingOpens w ->
    nextPromise w' = nextPromise w ->
    trace w' = trace w ++ d ->
    moves w w'
| mv_settleNew (a : Action) :
    outcomeOf (nextPromise w) a = true ->
    commandQueue (this w') = commandQueue (this w) ->
    pendingWrites w' = pendingWrites w ->
    pendingOpens w' = pendingOpens w ->
    nextPromise w' = S (nextPromise w) ->
    trace w' = trace w ++ [a] ->
    moves w w'
| mv_openNew (d : list Action) :
    forallb quiet d = true ->
    commandQueue (this w') = commandQueue (this w) ->
    pendingWrites w' = pendingWrites w ->
    pendingOpens w' = pendingOpens w ++ [nextPromise w] ->
    nextPromise w' = S (nextPromise w) ->
    trace w' = trace w ++ d ->
    moves w w'
| mv_enqueue (c : string) (d : list Action) :
    forallb quiet d = true ->
    commandQueue (this w') = commandQueue (this w) ++ [mkQueued c (nextPromise w)] ->
    pendingWrites w' = pendingWrites w ->
    pendingOpens w' = pendingOpens w ->
    nextPromise w' = S (nextPromise w) ->
    trace w' = trace w ++ d ->
    moves w w'
| mv_writeNew (c : string) :
    commandQueue (this w') = commandQueue (this w) ->
    pendingWrites w' = pendingWrites w ++ [(nextPromise w, c)] ->
    pendingOpens w' = pendingOpens w ->
    nextPromise w' = S (nextPromise w) ->
    trace w' = trace w ++ [PortWrite c (nextPromise w)] ->
    moves w w'
| mv_purge (d1 d2 : list Action) :
    forallb quiet d1 = true ->
    forallb quiet d2 = true ->
    commandQueue (this w') = [] ->
    pendingWrites w' = pendingWrites w ->
    pendingOpens w' = pendingOpens w ->
    nextPromise w' = nextPromise w ->
    trace w' = trace w ++ d1 ++ map shuttingDown (commandQueue (this w)) ++ d2 ->
    moves w w'
| mv_drain :
    commandQueue (this w') = [] ->
    pendingWrites w'
    = pendingWrites w ++ map (fun c => (promise c, command c)) (commandQueue (this w)) ->
    pendingOpens w' = pendingOpens w ->
    nextPromise w' = nextPromise w ->
    trace w' = trace w ++ map writeOf (commandQueue (this w)) ->
    moves w w'
| mv_openCallback (p : nat) (a : Action) :
    In p (pendingOpens w) ->
    outcomeOf p a = true ->
    commandQueue (this w') = commandQueue (this w) ->
    pendingWrites w' = pendingWrites w ->
    pendingOpens w' = filter (fun q => negb (q =? p)%nat) (pendingOpens w) ->
    nextPromise w' = nextPromise w ->
    trace w' = trace w ++ [a] ->
    moves w w'
| mv_writeCallback (p : nat) (c : string) (err : option string) :
    In (p, c) (pendingWrites w) ->
    commandQueue (this w') = commandQueue (this w) ->
    pendingWrites w' = filter (fun q => negb (fst q =? p)%nat) (pendingWrites w) ->
    pendingOpens w' = pendingOpens w ->
    nextPromise w' = nextPromise w ->
    trace w' = trace w ++ [writeSettled c p err] ->
    moves w w'.

(** The number of times [p] is in [l]. *)
Definition occ (p : nat) (l : list nat) : nat := count_occ Nat.eq_dec l p.

(** Bookkeeping of the promises handed out so far: a promise that exists is
    held in exactly one place or has been settled exactly once; a promise the
    port is writing for has been written; a written promise is written once
    and is no longer queued. *)
Definition accounted (w : World) : Prop :=
  forall p,
    (occ p (queuedPromises w) + occ p (writingPromises w)
     + occ p (pendingOpens w) + settles p (trace w)
     = if p <? nextPromise w then 1 else 0)%nat
    /\ (occ p (writingPromises w) <= writesOf p (trace w))%nat
    /\ (writesOf p (trace w) + occ p (queuedPromises w) + occ p (pendingOpens w)
        <= if p <? nextPromise w then 1 else 0)%nat.

(** The life of a command that went through the queue. *)
Inductive Stage := Queued | InFlight | Executed | Purged.

(** How often promise [p] is in the queue, held by a write callback,
    settled and written, at each stage. *)
Definition counted (w : World) (p : nat) (st : Stage) : Prop :=
  let nq := occ p (queuedPromises w) in
  let nw := occ p (writingPromises w) in
  let ns := settles p (trace w) in
  let nx := writesOf p (trace w) in
  match st with
  | Queued => nq = 1 /\ nw = 0 /\ ns = 0 /\ nx = 0     (* waiting in the queue *)
  | InFlight => nq = 0 /\ nw = 1 /\ ns = 0 /\ nx = 1   (* written, callback due *)
  | Executed => nq = 0 /\ nw = 0 /\ ns = 1 /\ nx = 1   (* written, then settled *)
  | Purged => nq = 0 /\ nw = 0 /\ ns = 1 /\ nx = 0     (* settled, never written *)
  end%nat.

(** Where the command is and what was done with it, at each stage. *)
Definition placed (w : World) (q : QueuedCommand) (st : Stage) : Prop :=
  match st with
  | Queued => In q (commandQueue (this w))
  | InFlight =>
      In (promise q, command q) (pendingWrites w) /\ In (writeOf q) (trace w)
  | Executed =>
      In (writeOf q) (trace w)
      /\ exists err, In (writeSettled (command q) (promise q) err) (trace w)
  | Purged => In (shuttingDown q) (trace w)
  end.

Definition inStage (w : World) (q : QueuedCommand) (st : Stage) : Prop :=
  counted w (promise q) st /\ placed w q st.

(** What the counts say about where the command is. *)
Definition located (w : World) (q : QueuedCommand) : Prop :=
  let p := promise q in
  ((1 <= occ p (queuedPromises w))%nat -> In q (commandQueue (this w)))
  /\ ((1 <= occ p (writingPromises w))%nat ->
      In (p, command q) (pendingWrites w))
  /\ ((1 <= writesOf p (trace w))%nat -> In (writeOf q) (trace w))
  /\ ((1 <= settles p (trace w))%nat -> writesOf p (trace w) = 0%nat ->
      In (shuttingDown q) (trace w))
  /\ ((1 <= settles p (trace w))%nat -> (1 <= writesOf p (trace w))%nat ->
      exists err, In (writeSettled (command q) p err) (trace w)).

(** The only ways a stage changes in one turn of the event loop. *)
Definition follows (st st' : Stage) : bool :=
  match st, st' with
  | Queued, _ => true
  | InFlight, (InFlight | Executed) => true
  | Executed, Executed => true
  | Purged, Purged => true
  | _, _ => false
  end.

(** *** Timers *)

(** The delays of the [setTimeout] calls in a trace, in order. *)
Definition scheduledDelays (tr : list Action) : list Z :=
  flat_map (fun a => match a with SetTimeout _ d => [d] | _ => [] end) tr.

(** An action that belongs to a reconnection attempt: arming the retry
    timer, or creating the port anew. *)
Definition retries (a : Action) : bool :=
  match a with
  | SetTimeout _ _ | PortNew _ => true
  | _ => false
  end.

(** Events other than a caller invoking [connect()] or [cleanup()] (in the
    service itself [connect] is called by the constructor only and
    [cleanup] on SIGINT only). *)
Definition unattended (e : Event) : bool :=
  match e with
  | CallConnect | CallCleanup => false
  | _ => true
  end.

(** Events other than a call of [connect()] or [cleanup()] and other than
    the port opening. *)
Definition portStaysShut (e : Event) : bool := unattended e && keepsQueue e.

(** An action that could bring the connection back: arming the retry timer,
    creating a port, or asking the port to open. *)
Definition reconnects (a : Action) : bool :=
  match a with
  | SetTimeout _ _ | PortNew _ | PortOpen _ => true
  | _ => false
  end.

(** What holds of the retry timer as long as nobody calls [connect()] or
    [cleanup()]: either none was armed yet, or exactly one was, for 1000 ms. *)
Definition oneRetry (w : World) : Prop :=
  match reconnectTimer (this w) with
  | None =>
      timeouts w = [] /\ reconnectAttempts (this w) = 0
      /\ scheduledDelays (trace w) = []
  | Some _ => scheduledDelays (trace w) = [1000]
  end.

(** [reconnectTimer] holds a handle although no timeout is armed: the
    timer has fired and the field was not reset. *)
Definition timerSpent (w : World) : Prop :=
  reconnectTimer (this w) <> None /\ timeouts w = [].

(** Every armed timeout is the one in [reconnectTimer], every armed
    interval the one in [deviceCheckInterval]. *)
Definition timersOwned (w : World) : Prop :=
  (forall t, In t (timeouts w) -> reconnectTimer (this w) = Some (fst t))
  /\ (forall i, In i (intervals w) -> deviceCheckInterval (this w) = Some i).

(** *** What a call does, spelled out *)

(** What [sendCommand] adds to the queue of a controller that is not
    connected. *)
Definition queuedBy (w : World) (e : Event) : list QueuedCommand :=
  match e with
  | CallSendCommand c => [mkQueued c (nextPromise w)]
  | _ => []
  end.

(** A promise that went through the queue is never held by an open
    callback. *)
Definition tracked (w : World) (p : nat) : Prop :=
  (p < nextPromise w)%nat /\ occ p (pendingOpens w) = 0%nat.

(** The [clearInterval] and [clearTimeout] calls of [cleanup()]. *)
Definition clearsOf (di rt : option nat) : list Action :=
  match di with Some h => [ClearInterval h] | None => [] end
  ++ match rt with Some h => [ClearTimeout h] | None => [] end.

(** A port after [close()], and a timer list after a [clear...] call. *)
Definition closed (po : option SerialPort) : option SerialPort :=
  match po with
  | Some sp => Some (mkPort (autoOpen sp) false)
  | None => None
  end.

Definition without {A} (h : option nat) (key : A -> nat) (l : list A) : list A :=
  match h with
  | Some h => filter (fun x => negb (key x =? h)%nat) l
  | None => l
  end.

End DeviceController.

(** ** The dispatch retry wrapper *)

Module Retry.

(** How a promise of [device.sendCommand] is settled. *)
Inductive Settled :=
| Fulfilled (r : SerialResponse)
| Rejected (r : SerialResponse).

(** The device as the wrapper sees it: how the [k]-th call of
    [device.sendCommand(command)] made by this invocation is settled. *)
Definition Device := nat -> Settled.

(** What the wrapper does, in order. *)
Inductive Step :=
| Call (command : string)          (* await device.sendCommand(command) *)
| Sleep (ms : Z).                  (* await new Promise(r => setTimeout(r, ms)) *)

Definition retryDelay : Z := 2000.

(** The [while (true)] loop, entered with the current [retryCount]; the
    result is the value returned or the error thrown, and the steps taken. *)
Equations? retryLoop (device : Device) (command : string) (maxRetries : Z)
          (retryCount : Z) : Settled * list Step
  by wf (Z.to_nat (maxRetries - retryCount)) lt :=
  retryLoop device command maxRetries retryCount
    with device (Z.to_nat retryCount) := {
    | Fulfilled r => (Fulfilled r, [Call command]);
    | Rejected error with Z_ge_lt_dec (retryCount + 1) maxRetries := {
        | left _ => (Rejected error, [Call command]);
        | right _ =>
            let rest := retryLoop device command maxRetries (retryCount + 1) in
            (fst rest, Call command :: Sleep retryDelay :: snd rest) } }.
Proof. lia. Qed.

(** [sendCommandWithRetry(device, command, maxRetries = 3)] *)
Definition sendCommandWithRetry (device : Device) (command : string)
           (maxRetries : Z) : Settled * list Step :=
  retryLoop device command maxRetries 0.

Definition calls (steps : list Step) : nat :=
  List.length (filter (fun s => match s with Call _ => true | _ => false end) steps).

Definition slept (steps : list Step) : Z :=
  fold_right (fun s acc => match s with Sleep ms => ms + acc | _ => acc end) 0 steps.

(** [k] failed attempts, each followed by the wait, then one more attempt. *)
Fixpoint attempts (command : string) (k : nat) : list Step :=
  match k with
  | O => [Call command]
  | S k' => Call command :: Sleep retryDelay :: attempts command k'
  end.

End Retry.

(** ** The trigger poller *)

Module BlockchainListener.

(** A log of the range, by what [contract.interface.parseLog] makes of it. *)
Inductive Log :=
| ContentsPurchased (garbageCanId : Z) (collector : string) (value : Z)
| OtherEvent (name : string)
| NoEvent                                     (* parseLog returns null *)
| ParseThrows.                                (* parseLog throws *)

(** Where a call of [checkForEvents] is suspended. *)
Inductive ScanPoint :=
| AwaitBlockNumber                            (* await provider.getBlockNumber() *)
| AwaitLogs (currentBlock : Z)                (* await provider.getLogs({...}) *)
| AwaitDispatch (currentBlock : Z) (rest : list Log).
                                              (* await sendCommandWithRetry(..., '4') *)

Inductive Action :=
| GetBlockNumber
| GetLogs (fromBlock toBlock : Z)
| Dispatch (scan : nat) (command : string)    (* sendCommandWithRetry(deviceController, command) *)
| LogError (msg : string)                     (* console.error *)
| SetInterval (h : nat) (ms : Z)
| ClearInterval (h : nat).

Record Listener := mkListener {
  lastBlockChecked : Z;
  pollingInterval : option nat;
  starting : bool;                  (* startListening awaits getBlockNumber *)
  scans : list (nat * ScanPoint);   (* the calls of checkForEvents in progress *)
  nextScan : nat;
  nextHandle : nat;
  armed : list nat;                 (* the intervals of the event loop *)
  trace : list Action
}.

Definition POLLING_INTERVAL_MS : Z := 5000.

Definition emit (a : Action) (l : Listener) : Listener :=
  mkListener (lastBlockChecked l) (pollingInterval l) (starting l) (scans l)
             (nextScan l) (nextHandle l) (armed l) (trace l ++ [a]).

Definition setLastBlockChecked (n : Z) (l : Listener) : Listener :=
  mkListener n (pollingInterval l) (starting l) (scans l)
             (nextScan l) (nextHandle l) (armed l) (trace l).

Definition setScans (ss : list (nat * ScanPoint)) (l : Listener) : Listener :=
  mkListener (lastBlockChecked l) (pollingInterval l) (starting l) ss
             (nextScan l) (nextHandle l) (armed l) (trace l).

Definition scanAt (id : nat) (l : Listener) : option ScanPoint :=
  option_map snd (find (fun s => (fst s =? id)%nat) (scans l)).

(** The call of [checkForEvents] returns (its promise is fulfilled). *)
Definition endScan (id : nat) (l : Listener) : Listener :=
  setScans (filter (fun s => negb (fst s =? id)%nat) (scans l)) l.

(** The call of [checkForEvents] is suspended at [pt]. *)
Definition suspend (id : nat) (pt : ScanPoint) (l : Listener) : Listener :=
  setScans (map (fun s => if (fst s =? id)%nat then (id, pt) else s) (scans l)) l.

(** [checkForEvents()], up to its first [await]. *)
Definition checkForEvents (l : Listener) : Listener :=
  let id := nextScan l in
  emit GetBlockNumber
    (mkListener (lastBlockChecked l) (pollingInterval l) (starting l)
                (scans l ++ [(id, AwaitBlockNumber)])
                (S id) (nextHandle l) (armed l) (trace l)).

(** The [for (const log of logs)] loop from [logs] on, up to the next
    [await], and what follows the loop. *)
Fixpoint forLogs (id : nat) (currentBlock : Z) (logs : list Log)
         (l : Listener) : Listener :=
  match logs with
  | [] => endScan id (setLastBlockChecked currentBlock l)
  | log :: rest =>
      match log with
      | ParseThrows =>
          (* the outer catch *)
          endScan id (emit (LogError "Error checking for events") l)
      | ContentsPurchased _ _ _ =>
          suspend id (AwaitDispatch currentBlock rest) (emit (Dispatch id "4") l)
      | OtherEvent _ | NoEvent => forLogs id currentBlock rest l
      end
  end.

(** [checkForEvents] resumes after [getBlockNumber]. *)
Definition onBlockNumber (id : nat) (res : option Z) (l : Listener) : Listener :=
  match res with
  | None => endScan id (emit (LogError "Error checking for events") l)
  | Some currentBlock =>
      if currentBlock <=? lastBlockChecked l then endScan id l
      else
        suspend id (AwaitLogs currentBlock)
          (emit (GetLogs (lastBlockChecked l + 1) currentBlock) l)
  end.

(** [checkForEvents] resumes after [getLogs]. *)
Definition onLogs (id : nat) (currentBlock : Z) (res : option (list Log))
           (l : Listener) : Listener :=
  match res with
  | None => endScan id (emit (LogError "Error checking for events") l)
  | Some logs => forLogs id currentBlock logs l
  end.

(** [checkForEvents] resumes after [sendCommandWithRetry]; a failure is
    caught and logged inside the loop. *)
Definition onDispatched (id : nat) (currentBlock : Z) (rest : list Log)
           (ok : bool) (l : Listener) : Listener :=
  forLogs id currentBlock rest
    (if ok then l else emit (LogError "Failed to open door") l).

(** [startListening()], up to its [await]. *)
Definition startListening (l : Listener) : Listener :=
  emit GetBlockNumber
    (mkListener (lastBlockChecked l) (pollingInterval l) true (scans l)
                (nextScan l) (nextHandle l) (armed l) (trace l)).

(** [startListening] resumes after [getBlockNumber]. *)
Definition onStartBlockNumber (res : option Z) (l : Listener) : Listener :=
  match res with
  | None =>
      emit (LogError "Error starting blockchain listener")
        (mkListener (lastBlockChecked l) (pollingInterval l) false (scans l)
                    (nextScan l) (nextHandle l) (armed l) (trace l))
  | Some n =>
      let h := nextHandle l in
      checkForEvents
        (emit (SetInterval h POLLING_INTERVAL_MS)
           (mkListener n (Some h) false (scans l)
                       (nextScan l) (S h) (armed l ++ [h]) (trace l)))
  end.

Definition stopListening (l : Listener) : Listener :=
  match pollingInterval l with
  | Some h =>
      emit (ClearInterval h)
        (mkListener (lastBlockChecked l) None (starting l) (scans l)
                    (nextScan l) (nextHandle l)
                    (filter (fun i => negb (i =? h)%nat) (armed l)) (trace l))
  | None => l
  end.

Definition initial : Listener := mkListener 0 None false [] O O [] [].

Inductive Event :=
| CallStartListening
| CallStopListening
| StartBlockNumber (res : option Z)
| Tick (h : nat)                              (* the polling interval fires *)
| BlockNumber (id : nat) (res : option Z)
| Logs (id : nat) (res : option (list Log))
| Dispatched (id : nat) (ok : bool).

(** One turn of the event loop; an event that cannot happen changes nothing. *)
Definition step (l : Listener) (e : Event) : Listener :=
  match e with
  | CallStartListening => startListening l
  | CallStopListening => stopListening l
  | StartBlockNumber res => if starting l then onStartBlockNumber res l else l
  | Tick h => if existsb (Nat.eqb h) (armed l) then checkForEvents l else l
  | BlockNumber id res =>
      match scanAt id l with
      | Some AwaitBlockNumber => onBlockNumber id res l
      | _ => l
      end
  | Logs id res =>
      match scanAt id l with
      | Some (AwaitLogs currentBlock) => onLogs id currentBlock res l
      | _ => l
      end
  | Dispatched id ok =>
      match scanAt id l with
      | Some (AwaitDispatch currentBlock rest) => onDispatched id currentBlock rest ok l
      | _ => l
      end
  end.

Definition run (evs : list Event) (l : Listener) : Listener := fold_left step evs l.

(** The ranges fetched, in order. *)
Definition fetched (tr : list Action) : list (Z * Z) :=
  flat_map (fun a => match a with GetLogs f t => [(f, t)] | _ => [] end) tr.

(** The dispatches of scan [id], in order. *)
Definition dispatchesOf (id : nat) (tr : list Action) : list Action :=
  filter (fun a => match a with Dispatch i _ => (i =? id)%nat | _ => false end) tr.

Definition isPurchase (log : Log) : bool :=
  match log with ContentsPurchased _ _ _ => true | _ => false end.

Definition parses (log : Log) : bool :=
  match log with ParseThrows => false | _ => true end.

End BlockchainListener.

(** ** More of the controller *)

Module ControllerExtras.
Import DeviceController.

(** The [port.write] calls of commands sent one after the other while the
    controller is connected, the first for promise [p]. *)
Fixpoint writesFrom (p : nat) (cmds : list string) : list Action :=
  match cmds with
  | [] => []
  | c :: cs => PortWrite c p :: writesFrom (S p) cs
  end.

(** A rejection made by [rejectAllQueuedCommands]: its message starts with
    "Command ". *)
Definition isQueueRejection (a : Action) : bool :=
  match a with
  | Reject _ r => String.prefix "Command " (message r)
  | _ => false
  end.

Definition noCleanup (e : Event) : bool :=
  match e with
  | CallCleanup => false
  | _ => true
  end.



End ControllerExtras.

(** ** The HTTP routes and the page that calls them *)

Module Routes.
Import Retry.

(** [app.get('/plastic', ...)] and the four routes after it. *)
Inductive Route := Plastic | Metal | Other | OpenDoor | CloseDoor.

Definition pathOf (r : Route) : string :=
  match r with
  | Plastic => "/plastic"
  | Metal => "/metal"
  | Other => "/other"
  | OpenDoor => "/open_door"
  | CloseDoor => "/close_door"
  end.

(** The command handler that serves a request path, if any. *)
Definition routeOf (path : string) : option Route :=
  if String.eqb path "/plastic" then Some Plastic
  else if String.eqb path "/metal" then Some Metal
  else if String.eqb path "/other" then Some Other
  else if String.eqb path "/open_door" then Some OpenDoor
  else if String.eqb path "/close_door" then Some CloseDoor
  else None.

(** The command each handler passes to [sendCommandWithRetry]. *)
Definition commandOf (r : Route) : string :=
  match r with
  | Plastic => "1"
  | Metal => "2"
  | Other => "3"
  | OpenDoor => "4"
  | CloseDoor => "5"
  end.

Record HttpResponse := mkHttp { status : Z; body : SerialResponse }.

(** [res.json(result)] after the [await], or
    [res.status(500).json({ success: false, message: error.message })] in the
    [catch]; the error caught is the response the promise was rejected with. *)
Definition reply (outcome : Settled) : HttpResponse :=
  match outcome with
  | Fulfilled result => mkHttp 200 result
  | Rejected error => mkHttp 500 (mkResponse false (message error))
  end.

(** A handler: the reply, and the calls and waits made before it. *)
Definition handle (device : Device) (r : Route) : HttpResponse * list Step :=
  let res := sendCommandWithRetry device (commandOf r) 3 in
  (reply (fst res), snd res).

(** The buttons of the page and the endpoint each one passes to [callApi]. *)
Inductive Button := OpenDoorBtn | CloseDoorBtn | PlasticBtn | MetalBtn | OtherBtn.

Definition endpoint (b : Button) : string :=
  match b with
  | OpenDoorBtn => "open_door"
  | CloseDoorBtn => "close_door"
  | PlasticBtn => "plastic"
  | MetalBtn => "metal"
  | OtherBtn => "other"
  end.

(** [fetch(`/${endpoint}`)] *)
Definition callApi (b : Button) : string := "/" ++ endpoint b.

End Routes.

(** ** More of the trigger poller *)

Module ListenerExtras.
Import BlockchainListener.

Definition noStart (e : Event) : bool :=
  match e with
  | CallStartListening => false
  | _ => true
  end.

(** The events that resume a call of [checkForEvents]. *)
Definition isScanEvent (e : Event) : bool :=
  match e with
  | BlockNumber _ _ | Logs _ _ | Dispatched _ _ => true
  | _ => false
  end.

(** The [currentBlock] a suspended scan holds. *)
Definition tipOf (pt : ScanPoint) : option Z :=
  match pt with
  | AwaitBlockNumber => None
  | AwaitLogs currentBlock => Some currentBlock
  | AwaitDispatch currentBlock _ => Some currentBlock
  end.

Definition tipAbove (n : Z) (pt : ScanPoint) : Prop :=
  match tipOf pt with
  | Some currentBlock => n <= currentBlock
  | None => True
  end.

(** The cursor and the tips held by the scans in progress are at block [n]
    or above, and no [startListening] is waiting for its block number. *)
Definition aboveStart (n : Z) (l : Listener) : Prop :=
  starting l = false
  /\ n <= lastBlockChecked l
  /\ Forall (fun s => tipAbove n (snd s)) (scans l).

(** Every scan in progress has an id below the id the next scan will get. *)
Definition freshScans (l : Listener) : Prop :=
  forall s, In s (scans l) -> (fst s < nextScan l)%nat.

(** Two listeners whose scans are in the same state. *)
Definition sameScans (l l' : Listener) : Prop :=
  scans l = scans l' /\ lastBlockChecked l = lastBlockChecked l'.

End ListenerExtras.

(** ** The first controller: no queue, no reconnection *)

Module SimpleController.

(** The class exists in two builds: the one that sends the words [OPEN],
    [CLOSE] and [SORT], each with a newline, through [open()], [close()] and
    [sort()] and keeps [sendCommand] private; and the one whose routes call
    the public [sendCommand] with a digit, sent as it is. *)
Inductive Build := CommandWords | CommandDigits.

Definition baudRate (b : Build) : Z :=
  match b with CommandWords => 9600 | CommandDigits => 115200 end.

Definition autoOpen (b : Build) : bool :=
  match b with CommandWords => false | CommandDigits => true end.

(** The character of code 10. *)
Definition newline : string :=
  String (Ascii.Ascii false true false true false false false false) EmptyString.

(** The template written to the port: [`${command}\n`] or [`${command}`]. *)
Definition payload (b : Build) (command : string) : string :=
  match b with
  | CommandWords => (command ++ newline)%string
  | CommandDigits => command
  end.

Inductive Action :=
| PortNew (baudRate : Z) (autoOpen : bool)
| PortOpen (p : nat)                          (* port.open(callback of promise p) *)
| PortWrite (p : nat) (data : string)         (* port.write(data, callback of promise p) *)
| Resolve (p : nat) (r : SerialResponse)
| Reject (p : nat) (r : SerialResponse).

Record Controller := mkController {
  isConnected : bool;
  nextPromise : nat;
  pendingOpens : list nat;                    (* callbacks port.open holds *)
  pendingWrites : list (nat * string);        (* callbacks port.write holds, with their command *)
  trace : list Action
}.

Definition emit (a : Action) (w : Controller) : Controller :=
  mkController (isConnected w) (nextPromise w) (pendingOpens w) (pendingWrites w)
               (trace w ++ [a]).

Definition setIsConnected (c : bool) (w : Controller) : Controller :=
  mkController c (nextPromise w) (pendingOpens w) (pendingWrites w) (trace w).

Definition newPromise (w : Controller) : nat * Controller :=
  (nextPromise w,
   mkController (isConnected w) (S (nextPromise w)) (pendingOpens w) (pendingWrites w)
                (trace w)).

Definition construct (b : Build) : Controller :=
  mkController false O [] [] [PortNew (baudRate b) (autoOpen b)].

Definition connect (w : Controller) : Controller :=
  let '(p, w) := newPromise w in
  if isConnected w then
    emit (Resolve p (mkResponse true "Already connected")) w
  else
    let w := emit (PortOpen p) w in
    mkController (isConnected w) (nextPromise w) (pendingOpens w ++ [p])
                 (pendingWrites w) (trace w).

Definition openCallback (p : nat) (err : option string) (w : Controller) : Controller :=
  match err with
  | Some msg => emit (Reject p (mkResponse false ("Failed to open port: " ++ msg))) w
  | None => emit (Resolve p (mkResponse true "Connected successfully")) w
  end.

Definition sendCommand (b : Build) (command : string) (w : Controller) : Controller :=
  let '(p, w) := newPromise w in
  if negb (isConnected w) then
    emit (Reject p (mkResponse false "Device not connected")) w
  else
    let w := emit (PortWrite p (payload b command)) w in
    mkController (isConnected w) (nextPromise w) (pendingOpens w)
                 (pendingWrites w ++ [(p, command)]) (trace w).

Definition writeCallback (p : nat) (command : string) (err : option string)
           (w : Controller) : Controller :=
  match err with
  | Some msg => emit (Reject p (mkResponse false ("Failed to send command: " ++ msg))) w
  | None =>
      emit (Resolve p (mkResponse true ("Command " ++ command ++ " sent successfully"))) w
  end.

Definition open (b : Build) (w : Controller) : Controller := sendCommand b "OPEN" w.
Definition close (b : Build) (w : Controller) : Controller := sendCommand b "CLOSE" w.
Definition sort (b : Build) (w : Controller) : Controller := sendCommand b "SORT" w.

(** The program creates the controller and calls [connect()] at once. *)
Definition startup (b : Build) : Controller := connect (construct b).

Inductive Event :=
| CallConnect
| CallOpen | CallClose | CallSort             (* the public methods of the first build *)
| CallSendCommand (command : string)          (* public in the second build only *)
| PortOpened
| PortErrored
| PortClosed
| OpenCallback (p : nat) (err : option string)
| WriteCallback (p : nat) (err : option string).

(** One turn of the event loop; an event that cannot happen changes nothing. *)
Definition step (b : Build) (w : Controller) (e : Event) : Controller :=
  match e with
  | CallConnect => connect w
  | CallOpen => match b with CommandWords => open b w | CommandDigits => w end
  | CallClose => match b with CommandWords => close b w | CommandDigits => w end
  | CallSort => match b with CommandWords => sort b w | CommandDigits => w end
  | CallSendCommand command =>
      match b with CommandWords => w | CommandDigits => sendCommand b command w end
  | PortOpened => setIsConnected true w
  | PortErrored => setIsConnected false w
  | PortClosed => setIsConnected false w
  | OpenCallback p err =>
      if existsb (Nat.eqb p) (pendingOpens w) then
        openCallback p err
          (mkController (isConnected w) (nextPromise w)
                        (filter (fun q => negb (q =? p)%nat) (pendingOpens w))
                        (pendingWrites w) (trace w))
      else w
  | WriteCallback p err =>
      match find (fun pw => (fst pw =? p)%nat) (pendingWrites w) with
      | Some (_, command) =>
          writeCallback p command err
            (mkController (isConnected w) (nextPromise w) (pendingOpens w)
                          (filter (fun pw => negb (fst pw =? p)%nat) (pendingWrites w))
                          (trace w))
      | None => w
      end
  end.

Definition run (b : Build) (evs : list Event) (w : Controller) : Controller :=
  fold_left (step b) evs w.

(** The data written to the port, in order. *)
Definition writes (tr : list Action) : list string :=
  flat_map (fun a => match a with PortWrite _ data => [data] | _ => [] end) tr.

(** The calls of [port.open]. *)
Definition opens (tr : list Action) : nat :=
  List.length (filter (fun a => match a with PortOpen _ => true | _ => false end) tr).

Definition notConnectedRejections (tr : list Action) : nat :=
  List.length
    (filter (fun a => match a with
                      | Reject _ r => String.eqb (message r) "Device not connected"
                      | _ => false
                      end) tr).

(** The command calls a build offers. *)
Definition isCommandCall (b : Build) (e : Event) : bool :=
  match b, e with
  | CommandWords, (CallOpen | CallClose | CallSort) => true
  | CommandDigits, CallSendCommand _ => true
  | _, _ => false
  end.

Definition isConnectCall (e : Event) : bool :=
  match e with CallConnect => true | _ => false end.

Definition isPortOpened (e : Event) : bool :=
  match e with PortOpened => true | _ => false end.

End SimpleController.

(** ** The purchase script *)

Module TestPurchase.

(** [(getBigInt(currentValue) * 50n * 100n) / 10000n]; the division of
    bigints truncates. *)
Definition calculatePaymentAmount (currentValue : Z) : Z :=
  Z.quot (currentValue * 50 * 100) 10000.

Record GarbageCanInfo := mkInfo {
  location : string;
  currentValue : Z;
  isActive : bool;
  isLocked : bool;
  deploymentTimestamp : Z;
  lastEmptiedTimestamp : Z;
  totalStaked : Z
}.

(** [contract.getGarbageCanInfo(i)]: the tuple, or [None] when the call
    throws. *)
Definition Contract := nat -> option GarbageCanInfo.

(** [info[2]] of a call that returned. *)
Definition active (contract : Contract) (i : nat) : bool :=
  match contract i with
  | Some info => isActive info
  | None => false
  end.

(** The loop [for (let i = ...; i < 10; i++)] with [remaining] turns left:
    the id returned, and the ids asked for. *)
Fixpoint findFrom (contract : Contract) (remaining i : nat) : option nat * list nat :=
  match remaining with
  | O => (None, [])
  | S remaining' =>
      match contract i with
      | Some info =>
          if isActive info then (Some i, [i])
          else
            let rest := findFrom contract remaining' (S i) in
            (fst rest, i :: snd rest)
      | None =>
          (* the inner catch: go on with the next id *)
          let rest := findFrom contract remaining' (S i) in
          (fst rest, i :: snd rest)
      end
  end.

Definition findExistingGarbageCan (contract : Contract) : option nat * list nat :=
  findFrom contract 10 0.

(** A log of a receipt, by what [parseLog] makes of it. *)
Inductive ReceiptLog :=
| PendingGarbageCanCreated (pendingGarbageCanId : Z)
| GarbageCanDeployed (pendingGarbageCanId garbageCanId : Z)
| OtherLog (name : string)
| NullLog                                     (* parseLog returns null *)
| ThrowsLog.                                  (* parseLog throws; the catch goes on *)

(** The first loop over [createReceipt.logs], up to its [break]. *)
Fixpoint pendingIdIn (logs : list ReceiptLog) : option Z :=
  match logs with
  | [] => None
  | PendingGarbageCanCreated id :: _ => Some id
  | _ :: rest => pendingIdIn rest
  end.

(** The second loop, over [stakeReceipt.logs]. *)
Fixpoint deployedIdIn (logs : list ReceiptLog) : option Z :=
  match logs with
  | [] => None
  | GarbageCanDeployed _ id :: _ => Some id
  | _ :: rest => deployedIdIn rest
  end.

(** The chain as [createNewGarbageCan] sees it: the logs of the receipt of
    each transaction, or [None] when sending or waiting throws. *)
Record Chain := mkChain {
  createPendingGarbageCan : Z -> option (list ReceiptLog);
  approve : Z -> bool;
  stakeForGarbageCan : Z -> Z -> option (list ReceiptLog)
}.

Inductive Tx :=
| CreatePending (targetAmount : Z)
| Approve (amount : Z)
| Stake (pendingGarbageCanId amount : Z).

Inductive Outcome :=
| Returned (garbageCanId : Z)
| ThrownByChain                               (* the error of a transaction, rethrown *)
| Thrown (message : string).

(** [ethers.parseUnits('100', 6)] *)
Definition targetAmount : Z := 100 * 10 ^ 6.

Definition createNewGarbageCan (chain : Chain) : Outcome * list Tx :=
  match createPendingGarbageCan chain targetAmount with
  | None => (ThrownByChain, [CreatePending targetAmount])
  | Some createLogs =>
      let pendingGarbageCanId :=
        match pendingIdIn createLogs with
        | Some id => id
        | None => 0
        end in
      let stakingAmount := targetAmount in
      if negb (approve chain stakingAmount) then
        (ThrownByChain, [CreatePending targetAmount; Approve stakingAmount])
      else
        let txs := [CreatePending targetAmount; Approve stakingAmount;
                    Stake pendingGarbageCanId stakingAmount] in
        match stakeForGarbageCan chain pendingGarbageCanId stakingAmount with
        | None => (ThrownByChain, txs)
        | Some stakeLogs =>
            match deployedIdIn stakeLogs with
            | Some garbageCanId => (Returned garbageCanId, txs)
            | None => (Thrown "Failed to find deployed garbage can ID", txs)
            end
        end
  end.

End TestPurchase.

(** * Proofs *)

Module DeviceControllerProofs.
Import DeviceController.

Arguments backoffDelay : simpl never.

Ltac unfold_world w :=
  destruct w as [[po ic rt ra cq di] ts ivs nh np pos pws tr].

(** *** The queue loop *)

Lemma drainQueue_execute (q : list QueuedCommand) :
  forall w sp,
    commandQueue (this w) = q ->
    isConnected (this w) = true ->
    port (this w) = Some sp ->
    drainQueue (List.length q)
      (fun cmd => executeCommand (command cmd) (promise cmd)) w
    = mkWorld (mkFields (Some sp) true (reconnectTimer (this w))
                 (reconnectAttempts (this w)) [] (deviceCheckInterval (this w)))
        (timeouts w) (intervals w) (nextHandle w) (nextPromise w)
        (pendingOpens w)
        (pendingWrites w ++ map (fun c => (promise c, command c)) q)
        (trace w ++ map writeOf q).
Proof.
  induction q as [|c q IH]; intros w sp Hq Hc Hp.
  - unfold_world w; cbn in *; subst. now rewrite !app_nil_r.
  - unfold_world w; cbn in *; subst. cbn.
    erewrite IH; cbn; try reflexivity.
    now rewrite <- !app_assoc.
Qed.

Lemma drainQueue_reject (reason : string) (q : list QueuedCommand) :
  forall w,
    commandQueue (this w) = q ->
    drainQueue (List.length q)
      (fun cmd => emit (rejectQueued reason cmd)) w
    = mkWorld (mkFields (port (this w)) (isConnected (this w))
                 (reconnectTimer (this w)) (reconnectAttempts (this w)) []
                 (deviceCheckInterval (this w)))
        (timeouts w) (intervals w) (nextHandle w) (nextPromise w)
        (pendingOpens w) (pendingWrites w)
        (trace w ++ map (rejectQueued reason) q).
Proof.
  induction q as [|c q IH]; intros w Hq.
  - unfold_world w; cbn in *; subst. now rewrite !app_nil_r.
  - unfold_world w; cbn in *; subst. cbn.
    erewrite IH; cbn; try reflexivity.
    now rewrite <- !app_assoc.
Qed.

Lemma rejectAllQueuedCommands_eq (reason : string) (w : World) :
  rejectAllQueuedCommands reason w
  = mkWorld (mkFields (port (this w)) (isConnected (this w))
               (reconnectTimer (this w)) (reconnectAttempts (this w)) []
               (deviceCheckInterval (this w)))
      (timeouts w) (intervals w) (nextHandle w) (nextPromise w)
      (pendingOpens w) (pendingWrites w)
      (trace w ++ map (rejectQueued reason) (commandQueue (this w))).
Proof. unfold rejectAllQueuedCommands. now apply drainQueue_reject. Qed.

Lemma processCommandQueue_eq (w : World) (sp : SerialPort) :
  isConnected (this w) = true ->
  port (this w) = Some sp ->
  processCommandQueue w
  = mkWorld (mkFields (Some sp) true (reconnectTimer (this w))
               (reconnectAttempts (this w)) [] (deviceCheckInterval (this w)))
      (timeouts w) (intervals w) (nextHandle w) (nextPromise w)
      (pendingOpens w)
      (pendingWrites w ++ map (fun c => (promise c, command c)) (commandQueue (this w)))
      (trace w ++ map writeOf (commandQueue (this w))).
Proof. intros. unfold processCommandQueue. now apply drainQueue_execute. Qed.

(** *** While disconnected, commands only pile up *)

Lemma step_keepsQueue (w : World) (e : Event) :
  keepsQueue e = true ->
  isConnected (this w) = false ->
  isConnected (this (step w e)) = false
  /\ commandQueue (this (step w e)) = commandQueue (this w) ++ queuedBy w e.
Proof.
  intros Hq Hc.
  destruct e; try discriminate Hq; unfold_world w; cbn in *; subst; cbn.
  - destruct po; cbn; [destruct rt; cbn|]; now rewrite app_nil_r.
  - destruct rt; cbn; auto.
  - destruct po; cbn; [destruct rt; cbn|]; now rewrite app_nil_r.
  - destruct po; cbn; [destruct rt; cbn|]; now rewrite app_nil_r.
  - destruct (existsb _ _); cbn; [destruct err; cbn|]; now rewrite app_nil_r.
  - destruct (find _ _) as [[? ?]|]; cbn; [destruct err; cbn|]; now rewrite app_nil_r.
  - unfold armed; cbn. destruct (existsb _ _); cbn;
      [destruct po as [[? []]|]; cbn|]; now rewrite app_nil_r.
  - destruct (existsb _ _); cbn; [|now rewrite app_nil_r].
    destruct deviceExists; cbn; [destruct rt; cbn|]; now rewrite app_nil_r.
Qed.

Lemma run_keepsQueue (evs : list Event) :
  forall w,
    forallb keepsQueue evs = true ->
    isConnected (this w) = false ->
    isConnected (this (run evs w)) = false
    /\ map command (commandQueue (this (run evs w)))
       = map command (commandQueue (this w)) ++ submitted evs.
Proof.
  induction evs as [|e evs IH]; intros w Hq Hc; cbn in *.
  - now rewrite app_nil_r.
  - apply andb_prop in Hq as [He Hq].
    destruct (step_keepsQueue w e He Hc) as [Hc' Hq'].
    destruct (IH (step w e) Hq Hc') as [Hc'' Hm].
    split; [exact Hc''|].
    unfold run in Hm. rewrite Hm, Hq', map_app, <- app_assoc. f_equal. f_equal.
    destruct e; reflexivity.
Qed.

Lemma step_PortOpened (w : World) (sp : SerialPort) :
  port (this w) = Some sp ->
  step w PortOpened
  = mkWorld (mkFields (Some (mkPort (autoOpen sp) true)) true
               (reconnectTimer (this w)) 0 [] (deviceCheckInterval (this w)))
      (timeouts w) (intervals w) (nextHandle w) (nextPromise w)
      (pendingOpens w)
      (pendingWrites w ++ map (fun c => (promise c, command c)) (commandQueue (this w)))
      (trace w ++ map writeOf (commandQueue (this w))).
Proof.
  intros Hp. unfold step. rewrite Hp. unfold onOpen, setPortOpen. rewrite Hp.
  erewrite processCommandQueue_eq; [|reflexivity|reflexivity].
  reflexivity.
Qed.

(** C1. Commands submitted through [sendCommand] while the controller is not
    connected are queued, whatever else happens short of an open or a
    shutdown; when the port then reports open, the open listener writes the
    whole queue to the port, one [port.write] per command, in the order of
    submission, and leaves the queue empty. *)
Theorem queued_commands_written_in_submission_order
        (w : World) (evs : list Event) :
  isConnected (this w) = false ->
  forallb keepsQueue evs = true ->
  port (this (run evs w)) <> None ->
  let w1 := run evs w in
  let w2 := step w1 PortOpened in
  trace w2 = trace w1 ++ map writeOf (commandQueue (this w1))
  /\ map command (commandQueue (this w1))
     = map command (commandQueue (this w)) ++ submitted evs
  /\ commandQueue (this w2) = [].
Proof.
  intros Hc Hq Hp w1 w2.
  destruct (run_keepsQueue evs w Hq Hc) as [Hc1 Hm].
  fold w1 in Hc1, Hm, Hp.
  destruct (port (this w1)) as [sp|] eqn:E; [|congruence].
  subst w2. rewrite (step_PortOpened w1 sp E). cbn. auto.
Qed.

Lemma queued_commands_written_in_submission_order_witness :
  let w := construct false false in
  let evs := [CallSendCommand "1"; ReconnectTimerFired 1%nat;
              CallSendCommand "2"; PortErrored; CallSendCommand "3"] in
  trace (step (run evs w) PortOpened)
  = trace (run evs w) ++ [PortWrite "1" 0; PortWrite "2" 1; PortWrite "3" 2].
Proof.
  intros w evs.
  exact (proj1 (queued_commands_written_in_submission_order w evs
                  eq_refl eq_refl
                  ltac:(vm_compute; discriminate))).
Defined.

(** *** Every turn of the event loop is one move of the promises *)

Arguments rejectAllQueuedCommands : simpl never.

Ltac close_move :=
  cbn; try reflexivity;
  try (unfold outcomeOf; cbn; rewrite Nat.eqb_refl; reflexivity).

Tactic Notation "move_by" uconstr(c) :=
  eapply c; revgoals;
  [ cbn; rewrite <- ?app_assoc; cbn;
    first [reflexivity | symmetry; apply app_nil_r
          | rewrite ?app_nil_r; reflexivity] | .. ];
  close_move.

Lemma step_moves (w : World) (e : Event) : moves w (step w e).
Proof.
  destruct e.
  - (* connect() *)
    unfold_world w; cbn. destruct ic; cbn.
    + move_by mv_settleNew.
    + destruct po; cbn; [destruct rt; cbn|].
      * move_by mv_openNew.
      * move_by mv_openNew.
      * move_by mv_settleNew.
  - (* sendCommand(cmd) *)
    unfold_world w; cbn. destruct ic; cbn.
    + destruct po; cbn.
      * move_by mv_writeNew.
      * move_by mv_settleNew.
    + destruct rt; cbn.
      * move_by (mv_enqueue _ _ cmd []).
      * move_by mv_enqueue.
  - (* cleanup() *)
    unfold step, cleanup.
    rewrite rejectAllQueuedCommands_eq.
    unfold_world w; cbn.
    destruct di as [hi|], rt as [ht|]; cbn;
      unfold portIsOpen; cbn; destruct po as [[au []]|]; cbn.
    all: first
      [ move_by (mv_purge _ _
                   [ClearInterval hi; ClearTimeout ht] [PortClose])
      | move_by (mv_purge _ _
                   [ClearInterval hi; ClearTimeout ht] [])
      | move_by (mv_purge _ _
                   [ClearInterval hi] [PortClose])
      | move_by (mv_purge _ _
                   [ClearInterval hi] [])
      | move_by (mv_purge _ _
                   [ClearTimeout ht] [PortClose])
      | move_by (mv_purge _ _
                   [ClearTimeout ht] [])
      | move_by (mv_purge _ _ [] [PortClose])
      | move_by (mv_purge _ _ [] []) ].
  - (* 'open' *)
    destruct (port (this w)) as [sp|] eqn:E.
    + rewrite (step_PortOpened w sp E). move_by mv_drain.
    + cbn. rewrite E. move_by (mv_quiet _ _ []).
  - (* 'error' *)
    unfold_world w; cbn. destruct po; cbn; [destruct rt; cbn|].
    + move_by (mv_quiet _ _ []).
    + move_by mv_quiet.
    + move_by (mv_quiet _ _ []).
  - (* 'close' *)
    unfold_world w; cbn. destruct po; cbn; [destruct rt; cbn|].
    + move_by (mv_quiet _ _ []).
    + move_by mv_quiet.
    + move_by (mv_quiet _ _ []).
  - (* callback of port.open *)
    unfold step. destruct (existsb (Nat.eqb p) (pendingOpens w)) eqn:E.
    + apply existsb_exists in E as (x & Hin & Hx).
      apply Nat.eqb_eq in Hx. subst x.
      unfold_world w; cbn in *. destruct err; cbn.
      * move_by (mv_openCallback _ _ p); assumption.
      * move_by (mv_openCallback _ _ p); assumption.
    + move_by (mv_quiet _ _ []).
  - (* callback of port.write *)
    unfold step.
    destruct (find (fun q => (fst q =? p)%nat) (pendingWrites w)) as [[p' c]|] eqn:E.
    + apply find_some in E as [Hin Hx]. cbn in Hx.
      apply Nat.eqb_eq in Hx. subst p'.
      unfold_world w; cbn in *. destruct err as [msg|]; cbn.
      * move_by (mv_writeCallback _ _ p c (Some msg)); assumption.
      * move_by (mv_writeCallback _ _ p c None); assumption.
    + move_by (mv_quiet _ _ []).
  - (* the reconnection timer fires *)
    unfold step. destruct (armed h w).
    + unfold_world w; cbn. destruct po as [[au []]|]; cbn.
      * move_by mv_quiet.
      * move_by mv_quiet.
      * move_by mv_quiet.
    + move_by (mv_quiet _ _ []).
  - (* the device check fires *)
    unfold step. destruct (existsb _ _).
    + unfold_world w; cbn.
      destruct deviceExists, ic, rt; cbn;
        unfold portIsOpen; cbn; try destruct po as [[au []]|]; cbn.
      all: first [ move_by (mv_quiet _ _ []) | move_by mv_quiet ].
    + move_by (mv_quiet _ _ []).
Qed.


(** *** Counting in traces and lists *)

Lemma settles_app p tr d : settles p (tr ++ d) = (settles p tr + settles p d)%nat.
Proof. unfold settles. now rewrite filter_app, length_app. Qed.

Lemma writesOf_app p tr d : writesOf p (tr ++ d) = (writesOf p tr + writesOf p d)%nat.
Proof. unfold writesOf. now rewrite filter_app, length_app. Qed.

Lemma quiet_counts p d :
  forallb quiet d = true -> settles p d = 0%nat /\ writesOf p d = 0%nat.
Proof.
  unfold settles, writesOf.
  induction d as [|a d IH]; cbn; [auto|].
  intros H. apply andb_prop in H as [Ha Hd].
  destruct (IH Hd) as [IH1 IH2].
  destruct a; cbn in *; try discriminate; auto.
Qed.

Lemma outcomeOf_counts q a p :
  outcomeOf q a = true ->
  settles p [a] = (if (q =? p)%nat then 1 else 0)%nat /\ writesOf p [a] = 0%nat.
Proof.
  unfold outcomeOf, settles, writesOf. intros H.
  apply andb_prop in H as [H _].
  destruct a; cbn in *; try discriminate;
    apply Nat.eqb_eq in H; subst; destruct (q =? p)%nat; auto.
Qed.

Lemma occ_app p l l' : occ p (l ++ l') = (occ p l + occ p l')%nat.
Proof. apply count_occ_app. Qed.

Lemma occ_nil p : occ p [] = 0%nat.
Proof. reflexivity. Qed.

Lemma occ_single p q : occ p [q] = (if (q =? p)%nat then 1 else 0)%nat.
Proof.
  unfold occ; cbn. destruct (Nat.eq_dec q p) as [->|Hn].
  - now rewrite Nat.eqb_refl.
  - apply Nat.eqb_neq in Hn. now rewrite Hn.
Qed.

Lemma occ_In p l : In p l -> (1 <= occ p l)%nat.
Proof. intros H. now apply count_occ_In. Qed.

Lemma occ_filter_ne p q l :
  occ p (filter (fun x => negb (x =? q)%nat) l)
  = (if (q =? p)%nat then 0 else occ p l)%nat.
Proof.
  unfold occ. induction l as [|x l IH]; cbn.
  - now destruct (q =? p)%nat.
  - destruct (x =? q)%nat eqn:E; cbn.
    + apply Nat.eqb_eq in E. subst x. rewrite IH.
      destruct (Nat.eq_dec q p) as [->|Hn]; [now rewrite Nat.eqb_refl|].
      apply Nat.eqb_neq in Hn. now rewrite Hn.
    + rewrite IH. destruct (Nat.eq_dec x p) as [->|Hn]; [|reflexivity].
      apply Nat.eqb_neq in E.
      assert (Hq : (q =? p)%nat = false) by (apply Nat.eqb_neq; congruence).
      now rewrite Hq.
Qed.

Lemma occ_filter_fst_ne p q (l : list (nat * string)) :
  occ p (map fst (filter (fun x => negb (fst x =? q)%nat) l))
  = (if (q =? p)%nat then 0 else occ p (map fst l))%nat.
Proof.
  rewrite <- occ_filter_ne. f_equal.
  induction l as [|x l IH]; cbn; [reflexivity|].
  destruct (fst x =? q)%nat; cbn; now rewrite IH.
Qed.

Lemma rejectQueued_counts reason p q :
  settles p (map (rejectQueued reason) q) = occ p (map promise q)
  /\ writesOf p (map (rejectQueued reason) q) = 0%nat.
Proof.
  unfold settles, writesOf, occ.
  induction q as [|c q [IH1 IH2]]; cbn; [auto|].
  split; [|exact IH2].
  destruct (Nat.eq_dec (promise c) p) as [->|Hn].
  - rewrite Nat.eqb_refl. cbn. now rewrite IH1.
  - apply Nat.eqb_neq in Hn. now rewrite Hn.
Qed.

Lemma writeOf_counts p q :
  writesOf p (map writeOf q) = occ p (map promise q)
  /\ settles p (map writeOf q) = 0%nat.
Proof.
  unfold settles, writesOf, occ.
  induction q as [|c q [IH1 IH2]]; cbn; [auto|].
  split; [|exact IH2].
  destruct (Nat.eq_dec (promise c) p) as [->|Hn].
  - rewrite Nat.eqb_refl. cbn. now rewrite IH1.
  - apply Nat.eqb_neq in Hn. now rewrite Hn.
Qed.

Lemma portWrite_counts c q p :
  settles p [PortWrite c q] = 0%nat
  /\ writesOf p [PortWrite c q] = (if (q =? p)%nat then 1 else 0)%nat.
Proof. unfold settles, writesOf; cbn. now destruct (q =? p)%nat. Qed.

Lemma shuttingDown_counts p q :
  settles p (map shuttingDown q) = occ p (map promise q)
  /\ writesOf p (map shuttingDown q) = 0%nat.
Proof. apply rejectQueued_counts. Qed.

Lemma writeSettled_counts c q err p :
  settles p [writeSettled c q err] = (if (q =? p)%nat then 1 else 0)%nat
  /\ writesOf p [writeSettled c q err] = 0%nat.
Proof.
  unfold settles, writesOf. destruct err; cbn; destruct (q =? p)%nat; auto.
Qed.

Lemma occ_In_write p c (l : list (nat * string)) :
  In (p, c) l -> (1 <= occ p (map fst l))%nat.
Proof. intros H. apply occ_In. change p with (fst (p, c)). now apply in_map. Qed.

Lemma unique_write p c c' (l : list (nat * string)) :
  (occ p (map fst l) <= 1)%nat -> In (p, c) l -> In (p, c') l -> c = c'.
Proof.
  unfold occ. induction l as [|[p0 c0] l IH]; cbn [count_occ map fst In];
    [intros _ []|].
  destruct (Nat.eq_dec p0 p) as [->|Hn]; intros Hle H1 H2.
  - assert (Hnot : forall x, ~ In (p, x) l).
    { intros x Hx. apply (in_map fst) in Hx. cbn in Hx.
      apply (count_occ_In Nat.eq_dec) in Hx. lia. }
    destruct H1 as [H1|H1]; [|now apply Hnot in H1].
    destruct H2 as [H2|H2]; [|now apply Hnot in H2].
    congruence.
  - destruct H1 as [H1|H1]; [congruence|].
    destruct H2 as [H2|H2]; [congruence|].
    now apply IH.
Qed.

Lemma map_fst_written (q : list QueuedCommand) :
  map fst (map (fun c => (promise c, command c)) q) = map promise q.
Proof. rewrite map_map. reflexivity. Qed.

(** *** The bookkeeping is an invariant *)

Ltac count_norm :=
  repeat first
    [ rewrite map_app | rewrite occ_app | rewrite settles_app
    | rewrite writesOf_app | rewrite map_fst_written
    | rewrite occ_filter_ne | rewrite occ_filter_fst_ne
    | rewrite occ_single | rewrite occ_nil
    | progress cbn [map fst promise] ].

Ltac split_tests :=
  repeat match goal with
         | |- context [(?a <? ?b)%nat] => destruct (Nat.ltb_spec a b)
         | H : context [(?a <? ?b)%nat] |- _ => destruct (Nat.ltb_spec a b)
         | |- context [(?a =? ?b)%nat] => destruct (Nat.eqb_spec a b)
         | H : context [(?a =? ?b)%nat] |- _ => destruct (Nat.eqb_spec a b)
         end.

Ltac moves_counts p :=
  unfold queuedPromises, writingPromises in *;
  repeat match goal with
         | H : commandQueue (this ?w') = _ |- context [commandQueue (this ?w')] =>
             rewrite H
         | H : pendingWrites ?w' = _ |- context [pendingWrites ?w'] => rewrite H
         | H : pendingOpens ?w' = _ |- context [pendingOpens ?w'] => rewrite H
         | H : nextPromise ?w' = _ |- context [nextPromise ?w'] => rewrite H
         | H : trace ?w' = _ |- context [trace ?w'] => rewrite H
         end;
  count_norm;
  repeat match goal with
         | H : forallb quiet ?d = true |- context [settles p ?d] =>
             rewrite (proj1 (quiet_counts p d H))
         | H : forallb quiet ?d = true |- context [writesOf p ?d] =>
             rewrite (proj2 (quiet_counts p d H))
         | H : outcomeOf ?q ?a = true |- context [settles p [?a]] =>
             rewrite (proj1 (outcomeOf_counts q a p H))
         | H : outcomeOf ?q ?a = true |- context [writesOf p [?a]] =>
             rewrite (proj2 (outcomeOf_counts q a p H))
         | |- context [settles p [writeSettled ?c ?q ?err]] =>
             rewrite (proj1 (writeSettled_counts c q err p))
         | |- context [writesOf p [writeSettled ?c ?q ?err]] =>
             rewrite (proj2 (writeSettled_counts c q err p))
         | |- context [settles p (map shuttingDown ?q)] =>
             rewrite (proj1 (shuttingDown_counts p q))
         | |- context [writesOf p (map shuttingDown ?q)] =>
             rewrite (proj2 (shuttingDown_counts p q))
         | |- context [writesOf p (map writeOf ?q)] =>
             rewrite (proj1 (writeOf_counts p q))
         | |- context [settles p (map writeOf ?q)] =>
             rewrite (proj2 (writeOf_counts p q))
         | |- context [settles p [PortWrite ?c ?q]] =>
             rewrite (proj1 (portWrite_counts c q p))
         | |- context [writesOf p [PortWrite ?c ?q]] =>
             rewrite (proj2 (portWrite_counts c q p))
         end;
  repeat match goal with
         | H : In (?p', ?c) (pendingWrites ?w) |- _ =>
             lazymatch goal with
             | _ : (1 <= occ p' (map fst (pendingWrites w)))%nat |- _ => fail
             | _ => pose proof (occ_In_write p' c _ H)
             end
         | H : In ?p' (pendingOpens ?w) |- _ =>
             lazymatch goal with
             | _ : (1 <= occ p' (pendingOpens w))%nat |- _ => fail
             | _ => pose proof (occ_In p' _ H)
             end
         end.

Ltac use_moves Hm p := destruct Hm; moves_counts p.

Lemma moves_accounted (w w' : World) :
  accounted w -> moves w w' -> accounted w'.
Proof.
  intros Hacc Hm p. specialize (Hacc p).
  use_moves Hm p; split_tests; subst; lia.
Qed.

Lemma accounted_fresh (w : World) :
  nextPromise w = O ->
  commandQueue (this w) = [] ->
  pendingWrites w = [] ->
  pendingOpens w = [] ->
  forallb quiet (trace w) = true ->
  accounted w.
Proof.
  intros Hn Hq Hw Ho Ht p.
  unfold queuedPromises, writingPromises. rewrite Hn, Hq, Hw, Ho.
  destruct (quiet_counts p _ Ht) as [-> ->]. cbn. lia.
Qed.

Lemma accounted_construct (deviceExists ctorThrows : bool) :
  accounted (construct deviceExists ctorThrows).
Proof.
  destruct deviceExists, ctorThrows;
    try (apply accounted_fresh; reflexivity).
  unfold construct, initializePort.
  set (w1 := setPort _ _).
  apply (moves_accounted w1 (connect w1)); [|exact (step_moves w1 CallConnect)].
  apply accounted_fresh; reflexivity.
Qed.

Lemma run_accounted (evs : list Event) :
  forall w, accounted w -> accounted (run evs w).
Proof.
  induction evs as [|e evs IH]; intros w Hw; cbn; [exact Hw|].
  apply IH. eapply moves_accounted; [exact Hw|apply step_moves].
Qed.

(** *** Stages *)

Lemma moves_tracked (w w' : World) (p : nat) :
  moves w w' -> tracked w p -> tracked w' p.
Proof.
  unfold tracked. intros Hm [Hlt Ho].
  use_moves Hm p; split_tests; subst; lia.
Qed.

Lemma run_tracked (evs : list Event) :
  forall w p, tracked w p -> tracked (run evs w) p.
Proof.
  induction evs as [|e evs IH]; intros w p Hw; cbn; [exact Hw|].
  apply IH. eapply moves_tracked; [apply step_moves|exact Hw].
Qed.

Lemma queued_tracked (w : World) (q : QueuedCommand) :
  accounted w -> In q (commandQueue (this w)) -> tracked w (promise q).
Proof.
  intros Hacc Hin. specialize (Hacc (promise q)).
  assert (H : (1 <= occ (promise q) (queuedPromises w))%nat)
    by (apply occ_In, in_map, Hin).
  unfold tracked. split_tests; lia.
Qed.

Lemma counted_exists (w : World) (p : nat) :
  accounted w -> tracked w p -> exists st, counted w p st.
Proof.
  intros Hacc [Hlt Ho]. specialize (Hacc p).
  apply Nat.ltb_lt in Hlt. rewrite Hlt in Hacc.
  destruct (occ p (queuedPromises w)) as [|[|nq]] eqn:Eq;
    destruct (occ p (writingPromises w)) as [|[|nw]] eqn:Ew;
    destruct (writesOf p (trace w)) as [|[|nx]] eqn:Ex;
    try lia.
  - exists Purged. unfold counted. lia.
  - exists Executed. unfold counted. lia.
  - exists InFlight. unfold counted. lia.
  - exists Queued. unfold counted. lia.
Qed.

Lemma counted_follows (w w' : World) (p : nat) (st st' : Stage) :
  accounted w -> moves w w' ->
  counted w p st -> counted w' p st' -> follows st st' = true.
Proof.
  intros Hacc Hm Hs Hs'. specialize (Hacc p).
  destruct st, st'; try reflexivity; exfalso; unfold counted in *;
    revert Hs'; use_moves Hm p; split_tests; subst; lia.
Qed.

Lemma counted_placed (w : World) (q : QueuedCommand) (st : Stage) :
  located w q -> counted w (promise q) st -> placed w q st.
Proof.
  intros (L1 & L2 & L3 & L4 & L5) Hc.
  destruct st; unfold counted in Hc; cbn [placed].
  - apply L1; lia.
  - split; [apply L2|apply L3]; lia.
  - split; [apply L3|apply L5]; lia.
  - apply L4; lia.
Qed.

Lemma queued_located (w : World) (q : QueuedCommand) :
  accounted w -> In q (commandQueue (this w)) -> located w q.
Proof.
  intros Hacc Hin. specialize (Hacc (promise q)).
  assert (H : (1 <= occ (promise q) (queuedPromises w))%nat)
    by (apply occ_In, in_map, Hin).
  unfold located.
  repeat split; intros; try assumption; exfalso; split_tests; lia.
Qed.

Ltac old_fact H :=
  first [ apply H | apply in_or_app; left; apply H ];
  split_tests; subst; lia.

Lemma moves_located (w w' : World) (q : QueuedCommand) :
  accounted w -> tracked w (promise q) -> located w q ->
  moves w w' -> located w' q.
Proof.
  intros Hacc [Hlt Ho] (L1 & L2 & L3 & L4 & L5) Hm.
  specialize (Hacc (promise q)). unfold located.
  destruct Hm; moves_counts (promise q).
  - (* nothing settled, nothing written *)
    repeat split; intros.
    + old_fact L1.
    + old_fact L2.
    + old_fact L3.
    + old_fact L4.
    + destruct L5 as [err He]; [split_tests; lia ..|].
      exists err. apply in_or_app. now left.
  - (* a fresh promise settled at once *)
    repeat split; intros.
    + old_fact L1.
    + old_fact L2.
    + old_fact L3.
    + old_fact L4.
    + destruct L5 as [err He]; [split_tests; lia ..|].
      exists err. apply in_or_app. now left.
  - (* a fresh promise handed to port.open *)
    repeat split; intros.
    + old_fact L1.
    + old_fact L2.
    + old_fact L3.
    + old_fact L4.
    + destruct L5 as [err He]; [split_tests; lia ..|].
      exists err. apply in_or_app. now left.
  - (* a fresh promise queued *)
    repeat split; intros.
    + old_fact L1.
    + old_fact L2.
    + old_fact L3.
    + old_fact L4.
    + destruct L5 as [err He]; [split_tests; lia ..|].
      exists err. apply in_or_app. now left.
  - (* a fresh promise written *)
    repeat split; intros.
    + old_fact L1.
    + old_fact L2.
    + old_fact L3.
    + old_fact L4.
    + destruct L5 as [err He]; [split_tests; lia ..|].
      exists err. apply in_or_app. now left.
  - (* the queue purged *)
    repeat split; intros.
    + exfalso. lia.
    + old_fact L2.
    + old_fact L3.
    + destruct (occ (promise q) (map promise (commandQueue (this w)))) eqn:E.
      * old_fact L4.
      * apply in_or_app. right. apply in_or_app. right.
        apply in_or_app. left. apply in_map, L1. lia.
    + destruct L5 as [err He]; [split_tests; lia ..|].
      exists err. apply in_or_app. now left.
  - (* the queue written *)
    repeat split; intros.
    + exfalso. lia.
    + destruct (occ (promise q) (map promise (commandQueue (this w)))) eqn:E.
      * old_fact L2.
      * apply in_or_app. right.
        apply (in_map (fun c => (promise c, command c))), L1. lia.
    + destruct (occ (promise q) (map promise (commandQueue (this w)))) eqn:E.
      * old_fact L3.
      * apply in_or_app. right. apply in_map, L1. lia.
    + old_fact L4.
    + destruct L5 as [err He]; [split_tests; lia ..|].
      exists err. apply in_or_app. now left.
  - (* an open callback *)
    repeat split; intros.
    + old_fact L1.
    + old_fact L2.
    + old_fact L3.
    + old_fact L4.
    + destruct L5 as [err He]; [split_tests; subst; lia ..|].
      exists err. apply in_or_app. now left.
  - (* a write callback *)
    repeat split; intros.
    + old_fact L1.
    + apply filter_In. split.
      * apply L2. split_tests; lia.
      * cbn. apply negb_true_iff, Nat.eqb_neq. intros Heq.
        split_tests; lia.
    + old_fact L3.
    + old_fact L4.
    + destruct (Nat.eqb_spec p (promise q)) as [->|Hne].
      * exists err. apply in_or_app. right. left.
        f_equal. apply (unique_write (promise q) c (command q) (pendingWrites w));
          [split_tests; lia|assumption|apply L2; lia].
      * destruct L5 as [err' He]; [lia ..|].
        exists err'. apply in_or_app. now left.
Qed.

Lemma run_located (evs : list Event) :
  forall w q,
    accounted w -> tracked w (promise q) -> located w q ->
    located (run evs w) q.
Proof.
  induction evs as [|e evs IH]; intros w q Ha Ht Hl; cbn; [exact Hl|].
  pose proof (step_moves w e) as Hm.
  apply IH.
  - exact (moves_accounted w _ Ha Hm).
  - exact (moves_tracked w _ _ Hm Ht).
  - exact (moves_located w _ q Ha Ht Hl Hm).
Qed.

Lemma stage_exists (w : World) (q : QueuedCommand) :
  accounted w -> tracked w (promise q) -> located w q ->
  exists st, inStage w q st.
Proof.
  intros Ha Ht Hl. destruct (counted_exists w _ Ha Ht) as [st Hst].
  exists st. split; [exact Hst|]. now apply counted_placed.
Qed.

Lemma cleanup_empties_queue (w : World) : commandQueue (this (cleanup w)) = [].
Proof.
  unfold cleanup. rewrite rejectAllQueuedCommands_eq.
  unfold portIsOpen, portClose. cbn.
  repeat match goal with
         | |- context [match ?x with _ => _ end] => destruct x; cbn
         end; reflexivity.
Qed.

Lemma find_write (p : nat) (c : string) (l : list (nat * string)) :
  (occ p (map fst l) <= 1)%nat ->
  In (p, c) l ->
  find (fun q => (fst q =? p)%nat) l = Some (p, c).
Proof.
  intros Hle Hin.
  destruct (find (fun q => (fst q =? p)%nat) l) as [[p' c']|] eqn:E.
  - apply find_some in E as [Hin' Hp]. cbn in Hp.
    apply Nat.eqb_eq in Hp. subst p'.
    now rewrite (unique_write p c c' l Hle Hin Hin').
  - apply (find_none _ _ E) in Hin. cbn in Hin. now rewrite Nat.eqb_refl in Hin.
Qed.

Lemma writeCallback_executes (w : World) (q : QueuedCommand) (err : option string) :
  inStage w q InFlight ->
  inStage (step w (WriteCallback (promise q) err)) q Executed.
Proof.
  intros [(Hq & Hw & Hs & Hx) [Hin Hwr]]. cbn [step].
  unfold queuedPromises, writingPromises in *.
  assert (Hle : (occ (promise q) (map fst (pendingWrites w)) <= 1)%nat) by lia.
  rewrite (find_write (promise q) (command q) _ Hle Hin).
  set (w' := writeCallback _ _ _ _).
  assert (Ht : trace w' = trace w ++ [writeSettled (command q) (promise q) err])
    by (destruct err; reflexivity).
  assert (Hq' : commandQueue (this w') = commandQueue (this w))
    by (destruct err; reflexivity).
  assert (Hw' : pendingWrites w'
                = filter (fun x => negb (fst x =? promise q)%nat) (pendingWrites w))
    by (destruct err; reflexivity).
  split.
  - unfold counted, queuedPromises, writingPromises.
    rewrite Ht, Hq', Hw', settles_app, writesOf_app, occ_filter_fst_ne.
    rewrite (proj1 (writeSettled_counts _ _ _ _)), (proj2 (writeSettled_counts _ _ _ _)).
    rewrite Nat.eqb_refl. lia.
  - cbn [placed]. rewrite Ht. split.
    + apply in_or_app. now left.
    + exists err. apply in_or_app. right. now left.
Qed.

(** *** Success flags *)

Lemma quiet_outcomeOk (d : list Action) :
  forallb quiet d = true -> forallb outcomeOk d = true.
Proof.
  induction d as [|a d IH]; cbn; [auto|].
  intros H. apply andb_prop in H as [Ha Hd]. rewrite (IH Hd).
  destruct a; cbn in *; try discriminate; reflexivity.
Qed.

Lemma outcomeOk_map (f : QueuedCommand -> Action) (q : list QueuedCommand) :
  (forall c, outcomeOk (f c) = true) -> forallb outcomeOk (map f q) = true.
Proof.
  intros H. induction q as [|c q IH]; cbn; [reflexivity|]. now rewrite H, IH.
Qed.

Lemma moves_outcomes (w w' : World) :
  moves w w' ->
  exists d, trace w' = trace w ++ d /\ forallb outcomeOk d = true.
Proof.
  intros Hm.
  destruct Hm;
    repeat match goal with
           | H : outcomeOf _ _ = true |- _ =>
               unfold outcomeOf in H; apply andb_prop in H as [_ H]
           | H : forallb quiet _ = true |- _ => apply quiet_outcomeOk in H
           end;
    eexists; (split; [eassumption|]);
    rewrite ?forallb_app; cbn [forallb]; rewrite ?andb_true_r;
    repeat (apply andb_true_intro; split);
    try assumption; try reflexivity.
  - now apply outcomeOk_map.
  - now apply outcomeOk_map.
  - now destruct err.
Qed.

Lemma run_outcomes (evs : list Event) :
  forall w, exists d, trace (run evs w) = trace w ++ d /\ forallb outcomeOk d = true.
Proof.
  induction evs as [|e evs IH]; intros w; cbn.
  - exists []. now rewrite app_nil_r.
  - destruct (moves_outcomes _ _ (step_moves w e)) as (d1 & E1 & H1).
    destruct (IH (step w e)) as (d2 & E2 & H2).
    exists (d1 ++ d2). unfold run in E2. rewrite E2, E1, <- app_assoc.
    split; [reflexivity|]. now rewrite forallb_app, H1, H2.
Qed.

(** C10. Whatever the controller, the port and the callers do, every value
    a promise of [connect] or [sendCommand] is fulfilled with has
    [success = true] and every value it is rejected with has
    [success = false]. *)
Theorem settled_values_carry_matching_success_flag
        (w : World) (evs : list Event) :
  exists d, trace (run evs w) = trace w ++ d
            /\ (forall p r, In (Resolve p r) d -> success r = true)
            /\ (forall p r, In (Reject p r) d -> success r = false).
Proof.
  destruct (run_outcomes evs w) as (d & E & H).
  exists d. split; [exact E|].
  rewrite forallb_forall in H.
  split; intros p r Hin; specialize (H _ Hin); cbn in H.
  - exact H.
  - now apply negb_true_iff in H.
Qed.

(** *** Reconnection *)

Lemma backoffDelay_spec (k : Z) :
  backoffDelay k = Z.min (1000 * 2 ^ k) 30000.
Proof. reflexivity. Qed.

Lemma backoffDelay_first_three :
  map backoffDelay [0; 1; 2] = [1000; 2000; 4000].
Proof. reflexivity. Qed.

(** Called with no timer handle in the field, [startReconnection] arms one
    timeout, after [min(1000 * 2^attempts, 30000)] ms. *)
Lemma startReconnection_schedules (w : World) :
  reconnectTimer (this w) = None ->
  trace (startReconnection w)
  = trace w ++ [SetTimeout (nextHandle w) (backoffDelay (reconnectAttempts (this w)))]
  /\ timeouts (startReconnection w)
     = timeouts w ++ [(nextHandle w, backoffDelay (reconnectAttempts (this w)))]
  /\ reconnectTimer (this (startReconnection w)) = Some (nextHandle w).
Proof.
  intros H. unfold_world w; cbn in *; subst. cbn. auto.
Qed.

(** The open listener resets the attempt counter. *)
Lemma open_resets_attempts (w : World) (sp : SerialPort) :
  port (this w) = Some sp ->
  reconnectAttempts (this (step w PortOpened)) = 0
  /\ isConnected (this (step w PortOpened)) = true.
Proof. intros H. rewrite (step_PortOpened w sp H). auto. Qed.

(** The timer callback leaves the fired handle in [reconnectTimer]. *)
Lemma timer_callback_keeps_handle (w : World) (h : nat) :
  reconnectTimer (this (step w (ReconnectTimerFired h))) = reconnectTimer (this w).
Proof.
  unfold step. destruct (armed h w); [|reflexivity].
  unfold_world w; cbn. destruct po as [[au []]|]; reflexivity.
Qed.

Lemma step_timerSpent (w : World) (e : Event) :
  unattended e = true ->
  timerSpent w ->
  timerSpent (step w e)
  /\ reconnectTimer (this (step w e)) = reconnectTimer (this w)
  /\ exists d, trace (step w e) = trace w ++ d
               /\ forallb (fun a => negb (retries a)) d = true.
Proof.
  unfold timerSpent. intros He [Hrt Hts].
  destruct (reconnectTimer (this w)) as [h0|] eqn:Ert; [clear Hrt|congruence].
  destruct e; try discriminate He.
  - (* sendCommand *)
    unfold_world w; cbn in *; subst. destruct ic; cbn.
    + destruct po; cbn; (split; [split; [discriminate|reflexivity]|]);
        (split; [reflexivity|]); eexists; split; reflexivity.
    + split; [split; [discriminate|reflexivity]|].
      split; [reflexivity|]. exists []. now rewrite app_nil_r.
  - (* 'open' *)
    destruct (port (this w)) as [sp|] eqn:E.
    + rewrite (step_PortOpened w sp E). cbn. rewrite Ert.
      split; [split; [discriminate|assumption]|].
      split; [reflexivity|]. eexists. split; [reflexivity|].
      clear. induction (commandQueue (this w)); cbn; auto.
    + cbn. rewrite E, Ert.
      split; [split; [discriminate|assumption]|].
      split; [reflexivity|]. exists []. now rewrite app_nil_r.
  - (* 'error' *)
    unfold_world w; cbn in *; subst. destruct po; cbn;
      (split; [split; [discriminate|reflexivity]|]);
      (split; [reflexivity|]); exists []; now rewrite app_nil_r.
  - (* 'close' *)
    unfold_world w; cbn in *; subst. destruct po; cbn;
      (split; [split; [discriminate|reflexivity]|]);
      (split; [reflexivity|]); exists []; now rewrite app_nil_r.
  - (* callback of port.open *)
    unfold_world w; cbn in *; subst. destruct (existsb _ _); [destruct err|]; cbn;
      (split; [split; [discriminate|reflexivity]|]);
      (split; [reflexivity|]);
      first [ exists []; now rewrite app_nil_r | eexists; split; reflexivity ].
  - (* callback of port.write *)
    unfold_world w; cbn in *; subst.
    destruct (find _ _) as [[? ?]|]; [destruct err|]; cbn;
      (split; [split; [discriminate|reflexivity]|]);
      (split; [reflexivity|]);
      first [ exists []; now rewrite app_nil_r | eexists; split; reflexivity ].
  - (* the timer cannot fire: none is armed *)
    unfold step, armed. rewrite Hts. cbn. rewrite Ert.
    split; [split; [discriminate|assumption]|].
    split; [reflexivity|]. exists []. now rewrite app_nil_r.
  - (* the device check *)
    unfold_world w; cbn in *; subst. destruct (existsb _ _); cbn.
    + destruct deviceExists, ic; unfold portIsOpen; cbn;
        try destruct po as [[au []]|]; cbn;
        (split; [split; [discriminate|reflexivity]|]);
        (split; [reflexivity|]);
        first [ exists []; now rewrite app_nil_r | eexists; split; reflexivity ].
    + split; [split; [discriminate|reflexivity]|].
      split; [reflexivity|]. exists []. now rewrite app_nil_r.
Qed.

Lemma run_timerSpent (evs : list Event) :
  forall w,
    timerSpent w ->
    forallb unattended evs = true ->
    timerSpent (run evs w)
    /\ reconnectTimer (this (run evs w)) = reconnectTimer (this w)
    /\ exists d, trace (run evs w) = trace w ++ d
                 /\ forallb (fun a => negb (retries a)) d = true.
Proof.
  induction evs as [|e evs IH]; intros w Hw He; cbn in *.
  - split; [exact Hw|]. split; [reflexivity|]. exists []. now rewrite app_nil_r.
  - apply andb_prop in He as [He Hevs].
    destruct (step_timerSpent w e He Hw) as (Hw' & Hrt1 & d1 & E1 & H1).
    destruct (IH (step w e) Hw' Hevs) as (Hw'' & Hrt2 & d2 & E2 & H2).
    split; [exact Hw''|]. split; [unfold run in Hrt2; congruence|].
    exists (d1 ++ d2). unfold run in E2. rewrite E2, E1, <- app_assoc.
    split; [reflexivity|]. now rewrite forallb_app, H1, H2.
Qed.

(** *** Shutdown, first part: who owns the timers *)

Lemma filter_all_out {A} (f : A -> bool) (l : list A) :
  (forall x, In x l -> f x = false) -> filter f l = [].
Proof.
  induction l as [|x l IH]; cbn; intros H; [reflexivity|].
  rewrite (H x (or_introl eq_refl)). apply IH. intros y Hy. apply H. now right.
Qed.

Lemma owned_none ts (rt : option nat) :
  (forall t : nat * Z, In t ts -> rt = Some (fst t)) -> rt = None -> ts = [].
Proof.
  intros H ->. destruct ts as [|t ts']; [reflexivity|].
  discriminate (H t (or_introl eq_refl)).
Qed.

Lemma owned_filter ts (h : nat) :
  (forall t : nat * Z, In t ts -> Some h = Some (fst t)) ->
  filter (fun t : nat * Z => negb (fst t =? h)%nat) ts = [].
Proof.
  intros H. apply filter_all_out. intros t Hin.
  specialize (H t Hin). injection H as <-. now rewrite Nat.eqb_refl.
Qed.

(** When the retry timer fires, the handle stays in [reconnectTimer] and
    nothing is armed any more. *)
Lemma timer_fired_is_spent (w : World) (h : nat) :
  timersOwned w ->
  armed h w = true ->
  let w' := step w (ReconnectTimerFired h) in
  reconnectTimer (this w') = Some h /\ timeouts w' = []
  /\ reconnectAttempts (this w') = reconnectAttempts (this w) + 1.
Proof.
  intros [Ht _] Ha w'. subst w'. unfold step. rewrite Ha.
  unfold armed in Ha. apply existsb_exists in Ha as (t & Hin & Hh).
  apply Nat.eqb_eq in Hh. pose proof (Ht t Hin) as Hrt. rewrite Hh in Hrt.
  unfold_world w; cbn in *. subst rt.
  destruct po as [[au []]|]; cbn; rewrite (owned_filter ts h Ht); auto.
Qed.

Lemma scheduledDelays_app tr d :
  scheduledDelays (tr ++ d) = scheduledDelays tr ++ scheduledDelays d.
Proof. apply flat_map_app. Qed.

Lemma scheduledDelays_writes (q : list QueuedCommand) :
  scheduledDelays (map writeOf q) = [].
Proof. induction q; cbn; auto. Qed.

Lemma scheduledDelays_cons a tr :
  scheduledDelays (a :: tr)
  = match a with SetTimeout _ d => [d] | _ => [] end ++ scheduledDelays tr.
Proof. reflexivity. Qed.

Lemma scheduledDelays_nil : scheduledDelays [] = [].
Proof. reflexivity. Qed.

Arguments scheduledDelays : simpl never.

Ltac delays :=
  rewrite ?scheduledDelays_app, ?scheduledDelays_cons, ?scheduledDelays_nil;
  cbn [app]; rewrite ?app_nil_r.

Lemma step_oneRetry (w : World) (e : Event) :
  unattended e = true -> oneRetry w -> oneRetry (step w e).
Proof.
  intros He Hw.
  destruct e; try discriminate He.
  - (* sendCommand *)
    unfold oneRetry in *. unfold_world w; cbn in *.
    destruct rt; cbn in *; destruct ic; cbn; try destruct po; cbn;
      delays; try assumption.
    all: destruct Hw as (-> & -> & Ht); rewrite ?Ht; auto.
  - (* 'open' *)
    destruct (port (this w)) as [sp|] eqn:E.
    + rewrite (step_PortOpened w sp E). unfold oneRetry in *. cbn.
      rewrite scheduledDelays_app, scheduledDelays_writes, app_nil_r.
      destruct (reconnectTimer (this w)); [assumption|].
      destruct Hw as (? & ? & ?). auto.
    + cbn. rewrite E. assumption.
  - (* 'error' *)
    unfold oneRetry in *. unfold_world w; cbn in *.
    destruct po; cbn; [|assumption].
    destruct rt; cbn in *; [assumption|].
    destruct Hw as (-> & -> & Ht). delays. rewrite Ht. reflexivity.
  - (* 'close' *)
    unfold oneRetry in *. unfold_world w; cbn in *.
    destruct po; cbn; [|assumption].
    destruct rt; cbn in *; [assumption|].
    destruct Hw as (-> & -> & Ht). delays. rewrite Ht. reflexivity.
  - (* callback of port.open *)
    unfold oneRetry in *. unfold_world w; cbn in *.
    destruct (existsb _ _); [destruct err|]; cbn;
      delays; assumption.
  - (* callback of port.write *)
    unfold oneRetry in *. unfold_world w; cbn in *.
    destruct (find _ _) as [[? ?]|]; [destruct err|]; cbn;
      delays; assumption.
  - (* the timer fires *)
    unfold oneRetry in *. unfold_world w; unfold step, armed; cbn in *.
    destruct rt; cbn in *.
    + destruct (existsb _ _); cbn; [|assumption].
      destruct po as [[au []]|]; cbn;
        delays; assumption.
    + destruct Hw as (-> & -> & Ht). cbn. auto.
  - (* the device check *)
    unfold oneRetry in *. unfold_world w; cbn in *.
    destruct (existsb _ _); cbn; [|assumption].
    destruct deviceExists, ic, rt; unfold portIsOpen; cbn in *;
      try destruct po as [[au []]|]; cbn;
      delays; try assumption.
    all: destruct Hw as (-> & -> & Ht); rewrite ?Ht; auto.
Qed.

Lemma construct_oneRetry (deviceExists ctorThrows : bool) :
  oneRetry (construct deviceExists ctorThrows).
Proof. destruct deviceExists, ctorThrows; cbn; auto. Qed.

Lemma run_oneRetry (evs : list Event) :
  forall w, oneRetry w -> forallb unattended evs = true -> oneRetry (run evs w).
Proof.
  induction evs as [|e evs IH]; intros w Hw He; cbn in *; [exact Hw|].
  apply andb_prop in He as [He Hevs].
  apply IH; [now apply step_oneRetry|exact Hevs].
Qed.

(** C2 (what the code does). The delay computed for attempt [k] is
    [min(1000 * 2^k, 30000)] and the open listener resets the counter
    ([backoffDelay_spec], [open_resets_attempts]), but a second retry is
    never armed: as long as nobody calls [connect()] or [cleanup()], the
    controller arms at most one retry timer in its whole life, and that one
    for 1000 ms.  The delays 2000 ms and 4000 ms of the claim's scenario are
    never scheduled. *)
Theorem at_most_one_retry_is_scheduled
        (deviceExists ctorThrows : bool) (evs : list Event) :
  forallb unattended evs = true ->
  let tr := trace (run evs (construct deviceExists ctorThrows)) in
  scheduledDelays tr = [] \/ scheduledDelays tr = [1000].
Proof.
  intros He tr.
  pose proof (run_oneRetry evs _ (construct_oneRetry deviceExists ctorThrows) He) as H.
  unfold oneRetry in H. fold tr in H.
  destruct (reconnectTimer _); [now right|]. left. apply H.
Qed.

Lemma at_most_one_retry_is_scheduled_witness :
  let evs := [ReconnectTimerFired 1%nat; PortErrored; DeviceCheckTick 0%nat true;
              PortErrored; DeviceCheckTick 0%nat true; PortErrored; PortOpened] in
  let tr := trace (run evs (construct false false)) in
  scheduledDelays tr = [] \/ scheduledDelays tr = [1000].
Proof.
  intros evs. exact (at_most_one_retry_is_scheduled false false evs eq_refl).
Defined.

(** The scenario of the claim, run: the device is absent at start, the
    first retry fails and the port keeps reporting errors; one timer, for
    1000 ms, is all that is ever armed. *)
Example three_failures_schedule_one_retry :
  let evs := [ReconnectTimerFired 1%nat; PortErrored; DeviceCheckTick 0%nat true;
              PortErrored; DeviceCheckTick 0%nat true; PortErrored] in
  let w := run evs (construct false false) in
  scheduledDelays (trace w) = [1000]
  /\ timeouts w = []
  /\ isConnected (this w) = false
  /\ reconnectAttempts (this w) = 1.
Proof. repeat split. Qed.

(** *** Shutdown *)

(** The world [cleanup()] leaves: the queued commands rejected, each once
    and in order, with [success = false] and the reason "Application
    shutting down"; both handles cleared; the port closed. *)
Lemma cleanup_eq (w : World) :
  cleanup w
  = mkWorld
      (mkFields (closed (port (this w))) (isConnected (this w)) None
         (reconnectAttempts (this w)) [] None)
      (without (reconnectTimer (this w)) fst (timeouts w))
      (without (deviceCheckInterval (this w)) (fun i => i) (intervals w))
      (nextHandle w) (nextPromise w) (pendingOpens w) (pendingWrites w)
      (trace w
       ++ clearsOf (deviceCheckInterval (this w)) (reconnectTimer (this w))
       ++ map shuttingDown (commandQueue (this w))
       ++ (if portIsOpen w then [PortClose] else [])).
Proof.
  unfold cleanup. rewrite rejectAllQueuedCommands_eq.
  unfold_world w; cbn.
  destruct di as [hi|], rt as [ht|]; cbn;
    unfold portIsOpen; cbn; destruct po as [[au []]|]; cbn;
    unfold portClose, emit, setPort, updThis; cbn;
    rewrite <- ?app_assoc; cbn; rewrite ?app_nil_r; reflexivity.
Qed.

Lemma cleanup_trace (w : World) :
  trace (cleanup w)
  = trace w
    ++ clearsOf (deviceCheckInterval (this w)) (reconnectTimer (this w))
    ++ map shuttingDown (commandQueue (this w))
    ++ (if portIsOpen w then [PortClose] else []).
Proof. now rewrite cleanup_eq. Qed.

(** A second [cleanup()] changes nothing: no action, no settlement. *)
Lemma cleanup_idempotent (w : World) : cleanup (cleanup w) = cleanup w.
Proof.
  rewrite (cleanup_eq (cleanup w)). rewrite (cleanup_eq w).
  cbn. unfold portIsOpen. cbn.
  destruct (port (this w)) as [[au io]|]; cbn; now rewrite app_nil_r.
Qed.

(** When [cleanup()] returns, the timers the controller owned are disarmed. *)
Lemma cleanup_disarms (w : World) :
  timersOwned w ->
  timeouts (cleanup w) = [] /\ intervals (cleanup w) = []
  /\ reconnectTimer (this (cleanup w)) = None
  /\ deviceCheckInterval (this (cleanup w)) = None.
Proof.
  intros [Ht Hi]. unfold cleanup. rewrite rejectAllQueuedCommands_eq.
  unfold_world w; cbn in *.
  assert (Hts : forall h, rt = Some h ->
                  filter (fun t : nat * Z => negb (fst t =? h)%nat) ts = []).
  { intros h ->. apply filter_all_out. intros t Hin.
    specialize (Ht t Hin). injection Ht as <-. now rewrite Nat.eqb_refl. }
  assert (His : forall h, di = Some h ->
                  filter (fun i => negb (i =? h)%nat) ivs = []).
  { intros h ->. apply filter_all_out. intros i Hin.
    specialize (Hi i Hin). injection Hi as <-. now rewrite Nat.eqb_refl. }
  assert (Hts0 : rt = None -> ts = []).
  { intros ->. destruct ts as [|t ts']; [reflexivity|].
    discriminate (Ht t (or_introl eq_refl)). }
  assert (His0 : di = None -> ivs = []).
  { intros ->. destruct ivs as [|i ivs']; [reflexivity|].
    discriminate (Hi i (or_introl eq_refl)). }
  destruct di as [hi|], rt as [ht|]; cbn;
    unfold portIsOpen; cbn; destruct po as [[au []]|]; cbn;
    try rewrite (Hts _ eq_refl); try rewrite (His _ eq_refl);
    try rewrite (Hts0 eq_refl); try rewrite (His0 eq_refl);
    auto.
Qed.

Ltac owned_close :=
  split; cbn; intros t Hin;
  repeat match goal with
         | H : In _ (filter _ _) |- _ => apply filter_In in H as [H _]
         | H : In _ (_ ++ _) |- _ => apply in_app_or in H as [H|H]
         | H : In _ [_] |- _ => destruct H as [<-|[]]
         | H : In _ [] |- _ => destruct H
         | H : _ \/ False |- _ => destruct H as [<-|[]]
         | H : False |- _ => destruct H
         end;
  auto.

Lemma step_timersOwned (w : World) (e : Event) :
  timersOwned w -> timersOwned (step w e).
Proof.
  intros Hw. destruct e.
  - (* connect() *)
    destruct Hw as [Ht Hi]. unfold timersOwned. unfold_world w; cbn in *.
    destruct ic; cbn; [owned_close|].
    destruct po; cbn; [|owned_close].
    destruct rt as [h|]; cbn; [|owned_close].
    rewrite (owned_filter ts h Ht). owned_close.
  - (* sendCommand *)
    destruct Hw as [Ht Hi]. unfold timersOwned. unfold_world w; cbn in *.
    destruct ic; cbn; [destruct po; cbn; owned_close|].
    destruct rt as [h|]; cbn; [owned_close|].
    rewrite (owned_none ts None Ht eq_refl). owned_close.
  - (* cleanup() *)
    destruct (cleanup_disarms w Hw) as (Ht & Hi & _). cbn [step].
    split; [rewrite Ht|rewrite Hi]; intros ? [].
  - (* 'open' *)
    destruct Hw as [Ht Hi].
    destruct (port (this w)) as [sp|] eqn:E.
    + rewrite (step_PortOpened w sp E). split; assumption.
    + cbn. rewrite E. split; assumption.
  - (* 'error' *)
    destruct Hw as [Ht Hi]. unfold timersOwned. unfold_world w; cbn in *.
    destruct po; cbn; [|owned_close].
    destruct rt as [h|]; cbn; [owned_close|].
    rewrite (owned_none ts None Ht eq_refl). owned_close.
  - (* 'close' *)
    destruct Hw as [Ht Hi]. unfold timersOwned. unfold_world w; cbn in *.
    destruct po; cbn; [|owned_close].
    destruct rt as [h|]; cbn; [owned_close|].
    rewrite (owned_none ts None Ht eq_refl). owned_close.
  - destruct Hw as [Ht Hi]. unfold timersOwned. unfold_world w; cbn in *.
    destruct (existsb _ _); [destruct err|]; cbn; owned_close.
  - destruct Hw as [Ht Hi]. unfold timersOwned. unfold_world w; cbn in *.
    destruct (find _ _) as [[? ?]|]; [destruct err|]; cbn; owned_close.
  - (* the timer fires *)
    destruct Hw as [Ht Hi]. unfold timersOwned. unfold_world w; unfold step, armed; cbn in *.
    destruct (existsb _ _); cbn; [|owned_close].
    destruct po as [[au []]|]; cbn; owned_close.
  - (* the device check *)
    destruct Hw as [Ht Hi]. unfold timersOwned. unfold_world w; cbn in *.
    destruct (existsb _ _); cbn; [|owned_close].
    destruct deviceExists, ic, rt as [h0|]; unfold portIsOpen; cbn in *;
      try destruct po as [[au []]|]; cbn;
      try rewrite (owned_none ts None Ht eq_refl); owned_close.
Qed.

Lemma run_timersOwned (evs : list Event) :
  forall w, timersOwned w -> timersOwned (run evs w).
Proof.
  induction evs as [|e evs IH]; intros w Hw; cbn; [exact Hw|].
  apply IH, step_timersOwned, Hw.
Qed.

Lemma construct_timersOwned (deviceExists ctorThrows : bool) :
  timersOwned (construct deviceExists ctorThrows).
Proof.
  destruct deviceExists, ctorThrows; split; cbn; intros t Hin;
    repeat match goal with
           | H : _ \/ _ |- _ => destruct H
           | H : False |- _ => destruct H
           end; subst; reflexivity.
Qed.

(** When [cleanup()] returns in a reachable state, no timeout and no
    interval is armed. *)
Lemma cleanup_leaves_no_timer
      (deviceExists ctorThrows : bool) (evs : list Event) :
  let w := cleanup (run evs (construct deviceExists ctorThrows)) in
  timeouts w = [] /\ intervals w = [].
Proof.
  intros w.
  destruct (cleanup_disarms (run evs (construct deviceExists ctorThrows)))
    as (Ht & Hi & _); [|auto].
  apply run_timersOwned, construct_timersOwned.
Qed.

(** C3 (what the code does). The callback of the reconnection timer does
    not reset [reconnectTimer], and [startReconnection] and the device check
    act only when that field is [null].  So in every run, once the retry
    timer has fired, no event other than an explicit [connect()] or
    [cleanup()] ever arms a retry timer or recreates the port again: a
    controller whose first retry fails stays disconnected without a
    scheduled reconnection attempt, although the claim promises one. *)
Theorem no_retry_once_the_timer_has_fired
        (deviceExists ctorThrows : bool) (evs0 evs : list Event) (h : nat) :
  let w0 := run evs0 (construct deviceExists ctorThrows) in
  armed h w0 = true ->
  forallb unattended evs = true ->
  let w1 := step w0 (ReconnectTimerFired h) in
  let w := run evs w1 in
  reconnectTimer (this w) = Some h
  /\ timeouts w = []
  /\ exists d, trace w = trace w1 ++ d
               /\ forallb (fun a => negb (retries a)) d = true.
Proof.
  intros w0 Ha He w1 w.
  assert (Hown : timersOwned w0) by apply run_timersOwned, construct_timersOwned.
  destruct (timer_fired_is_spent w0 h Hown Ha) as (Hrt & Hts & _).
  fold w1 in Hrt, Hts.
  assert (Hspent : timerSpent w1) by (split; [congruence|exact Hts]).
  destruct (run_timerSpent evs w1 Hspent He) as ([_ Hts'] & Hrt' & Hd).
  split; [subst w; rewrite Hrt'; exact Hrt|]. split; [exact Hts'|exact Hd].
Qed.

Lemma no_retry_once_the_timer_has_fired_witness :
  let w1 := step (construct false false) (ReconnectTimerFired 1%nat) in
  let evs := [PortErrored; DeviceCheckTick 0%nat true; CallSendCommand "4";
              PortErrored; PortClosed; DeviceCheckTick 0%nat true] in
  let w := run evs w1 in
  (isConnected (this w) = false /\ intervals w = [0%nat])
  /\ reconnectTimer (this w) = Some 1%nat
  /\ timeouts w = []
  /\ exists d, trace w = trace w1 ++ d
               /\ forallb (fun a => negb (retries a)) d = true.
Proof.
  intros w1 evs w. split; [split; reflexivity|].
  exact (no_retry_once_the_timer_has_fired false false [] evs 1%nat
           eq_refl eq_refl).
Defined.

(** C4 (what the code does). [cleanup()] rejects the queue, is idempotent
    and disarms both timers ([cleanup_trace], [cleanup_idempotent],
    [cleanup_disarms]), but it closes an open port without detaching the
    listeners (as [recreatePort] does before it closes a port).  The close
    notification that follows therefore runs the close listener, which finds
    [reconnectTimer] cleared and arms a new retry timer: after a shutdown of
    a controller whose port was open a reconnection timer is scheduled
    again, although the claim says none remains. *)
Theorem close_after_cleanup_rearms_the_retry_timer (w : World) :
  portIsOpen w = true ->
  let w1 := cleanup w in
  let w2 := step w1 PortClosed in
  (exists d, trace w1 = trace w ++ d ++ [PortClose])
  /\ reconnectTimer (this w1) = None
  /\ trace w2
     = trace w1 ++ [SetTimeout (nextHandle w1) (backoffDelay (reconnectAttempts (this w)))]
  /\ In (nextHandle w1, backoffDelay (reconnectAttempts (this w))) (timeouts w2).
Proof.
  intros Hopen w1 w2. split.
  - subst w1. rewrite cleanup_trace, Hopen.
    exists (clearsOf (deviceCheckInterval (this w)) (reconnectTimer (this w))
            ++ map shuttingDown (commandQueue (this w))).
    now rewrite <- (app_assoc (clearsOf _ _)).
  - subst w2 w1. unfold cleanup. rewrite rejectAllQueuedCommands_eq.
    unfold portIsOpen in *.
    unfold_world w; cbn in *. destruct po as [[au io]|]; [|discriminate].
    cbn in Hopen. subst io.
    destruct di as [hi|], rt as [ht|]; cbn;
      (split; [reflexivity|]); (split; [reflexivity|]);
      apply in_or_app; right; left; reflexivity.
Qed.

Lemma close_after_cleanup_rearms_the_retry_timer_witness :
  let w := run [PortOpened; OpenCallback 0%nat None] (construct true false) in
  let w1 := cleanup w in
  let w2 := step w1 PortClosed in
  (timeouts w1 = [] /\ intervals w1 = [])
  /\ trace w2 = trace w1 ++ [SetTimeout 1%nat 1000]
  /\ In (1%nat, 1000) (timeouts w2).
Proof.
  intros w w1 w2. split; [split; reflexivity|].
  exact (proj2 (proj2 (close_after_cleanup_rearms_the_retry_timer w eq_refl))).
Defined.

(** *** A failed [connect()] *)

Lemma existsb_last (p : nat) (l : list nat) : existsb (Nat.eqb p) (l ++ [p]) = true.
Proof. rewrite existsb_app. cbn. now rewrite Nat.eqb_refl, orb_true_r. Qed.

Lemma existsb_In (h : nat) (l : list nat) : In h l -> existsb (Nat.eqb h) l = true.
Proof. intros H. apply existsb_exists. exists h. now rewrite Nat.eqb_refl. Qed.

(** C8 (counterexample). The controller had lost its port and a retry was
    armed; a caller invokes [connect()], the open fails.  [connect()]
    cancelled the retry before it called [port.open], its callback only
    rejects: afterwards no timeout is armed and none was scheduled by the
    failure. *)
Lemma failed_connect_leaves_no_retry :
  let w := run [PortOpened; OpenCallback 0%nat None; PortClosed]
               (construct true false) in
  let w1 := step w CallConnect in
  let w2 := step w1 (OpenCallback 1%nat (Some "Access denied")) in
  (isConnected (this w) = false /\ timeouts w = [(1%nat, 1000)])
  /\ trace w2
     = trace w ++ [ClearTimeout 1%nat; PortOpen 1%nat;
                  Reject 1%nat (mkResponse false "Failed to open port: Access denied")]
  /\ timeouts w2 = []
  /\ reconnectTimer (this w2) = None.
Proof. vm_compute. repeat split. Qed.

(** C8 (amended). When [connect()] is called on a controller that is not
    connected and the open fails, the promise is rejected with
    [success = false] and the message "Failed to open port: ...", and that
    is all the failure does: [connect()] has cancelled a pending retry and
    reset the attempt counter before opening, and its callback schedules
    nothing.  A new reconnection episode starts with the next device check
    that finds the device present, with the first delay of 1000 ms. *)
Theorem failed_connect_rejects_and_leaves_retry_to_device_check
        (w : World) (msg : string) :
  isConnected (this w) = false ->
  port (this w) <> None ->
  let p := nextPromise w in
  let w1 := step w CallConnect in
  let w2 := step w1 (OpenCallback p (Some msg)) in
  trace w2
  = trace w
    ++ match reconnectTimer (this w) with Some h => [ClearTimeout h] | None => [] end
    ++ [PortOpen p; Reject p (mkResponse false ("Failed to open port: " ++ msg))]
  /\ reconnectTimer (this w2) = None
  /\ reconnectAttempts (this w2) = 0
  /\ timeouts w2 = without (reconnectTimer (this w)) fst (timeouts w)
  /\ forall h, In h (intervals w) ->
       trace (step w2 (DeviceCheckTick h true))
       = trace w2 ++ [SetTimeout (nextHandle w) 1000].
Proof.
  intros Hc Hp p w1 w2. subst p w1 w2.
  unfold_world w; cbn in *. subst ic.
  destruct po as [sp|]; [clear Hp|congruence].
  destruct rt as [h0|]; cbn; rewrite existsb_last; cbn;
    rewrite <- ?app_assoc; cbn;
    (split; [reflexivity|]); (split; [reflexivity|]);
    (split; [reflexivity|]); (split; [reflexivity|]);
    intros h Hin; rewrite (existsb_In h ivs Hin); cbn;
    rewrite <- ?app_assoc; reflexivity.
Qed.

Lemma failed_connect_rejects_and_leaves_retry_to_device_check_witness :
  let w := run [PortOpened; OpenCallback 0%nat None; PortClosed]
               (construct true false) in
  let w2 := step (step w CallConnect) (OpenCallback 1%nat (Some "Access denied")) in
  reconnectTimer (this w2) = None
  /\ trace (step w2 (DeviceCheckTick 0%nat true)) = trace w2 ++ [SetTimeout 2%nat 1000].
Proof.
  intros w w2.
  destruct (failed_connect_rejects_and_leaves_retry_to_device_check
              w "Access denied" eq_refl ltac:(discriminate))
    as (_ & H1 & _ & _ & H2).
  split; [exact H1|]. apply (H2 0%nat). left. reflexivity.
Defined.

(** *** A queued command: settled at most once, and possibly never *)

Lemma step_connected_queue (w : World) (e : Event) :
  (isConnected (this w) = true -> commandQueue (this w) = []) ->
  isConnected (this (step w e)) = true -> commandQueue (this (step w e)) = [].
Proof.
  intros Hw. destruct e.
  - unfold_world w; cbn in *. destruct ic; cbn; [auto|].
    destruct po; cbn; [destruct rt; cbn|]; discriminate.
  - unfold_world w; cbn in *. destruct ic; cbn.
    + destruct po; cbn; auto.
    + destruct rt; cbn; discriminate.
  - intros _. apply cleanup_empties_queue.
  - destruct (port (this w)) as [sp|] eqn:E.
    + rewrite (step_PortOpened w sp E). reflexivity.
    + cbn. rewrite E. exact Hw.
  - unfold_world w; cbn in *. destruct po; cbn; [destruct rt; cbn|]; auto; discriminate.
  - unfold_world w; cbn in *. destruct po; cbn; [destruct rt; cbn|]; auto; discriminate.
  - unfold_world w; cbn in *. destruct (existsb _ _); [destruct err|]; cbn; auto.
  - unfold_world w; cbn in *.
    destruct (find _ _) as [[? ?]|]; [destruct err|]; cbn; auto; discriminate.
  - unfold_world w; unfold step, armed; cbn in *.
    destruct (existsb _ _); cbn; [|auto].
    destruct po as [[au []]|]; cbn; auto.
  - unfold_world w; cbn in *.
    destruct (existsb _ _); cbn; [|auto].
    destruct deviceExists, ic, rt as [h0|]; unfold portIsOpen; cbn in *;
      try destruct po as [[au []]|]; cbn; auto; discriminate.
Qed.

(** A controller with a command in its queue is not connected. *)
Lemma queued_means_disconnected
      (deviceExists ctorThrows : bool) (evs : list Event) (q : QueuedCommand) :
  In q (commandQueue (this (run evs (construct deviceExists ctorThrows)))) ->
  isConnected (this (run evs (construct deviceExists ctorThrows))) = false.
Proof.
  assert (H : isConnected (this (run evs (construct deviceExists ctorThrows))) = true ->
              commandQueue (this (run evs (construct deviceExists ctorThrows))) = []).
  { assert (H0 : isConnected (this (construct deviceExists ctorThrows)) = true ->
                 commandQueue (this (construct deviceExists ctorThrows)) = [])
      by (destruct deviceExists, ctorThrows; cbn; auto).
    revert H0. generalize (construct deviceExists ctorThrows).
    induction evs as [|e evs IH]; intros w0 H0; cbn; [exact H0|].
    apply IH. now apply step_connected_queue. }
  intros Hin.
  destruct (isConnected (this (run evs (construct deviceExists ctorThrows))));
    [|reflexivity].
  rewrite (H eq_refl) in Hin. destruct Hin.
Qed.

Lemma queued_inStage (w : World) (q : QueuedCommand) :
  accounted w -> In q (commandQueue (this w)) -> inStage w q Queued.
Proof.
  intros Hacc Hin. split; [|exact Hin].
  specialize (Hacc (promise q)).
  assert (H : (1 <= occ (promise q) (queuedPromises w))%nat)
    by (apply occ_In, in_map, Hin).
  unfold counted. split_tests; lia.
Qed.

Lemma clearsOf_quiet (di rt : option nat) : forallb quiet (clearsOf di rt) = true.
Proof. destruct di, rt; reflexivity. Qed.

(** [cleanup()] settles a queued command with the rejection of a shutdown. *)
Lemma cleanup_purges (w : World) (q : QueuedCommand) :
  inStage w q Queued -> inStage (step w CallCleanup) q Purged.
Proof.
  intros [(Hq & Hw & Hs & Hx) Hin]. cbn [placed] in Hin. cbn [step].
  unfold inStage, counted, placed, queuedPromises, writingPromises in *.
  rewrite cleanup_eq. cbn [this commandQueue pendingWrites trace].
  rewrite !settles_app, !writesOf_app.
  rewrite (proj1 (quiet_counts _ _ (clearsOf_quiet _ _))),
          (proj2 (quiet_counts _ _ (clearsOf_quiet _ _))).
  rewrite (proj1 (shuttingDown_counts _ _)), (proj2 (shuttingDown_counts _ _)).
  assert (Hc : settles (promise q) (if portIsOpen w then [PortClose] else []) = 0%nat
               /\ writesOf (promise q) (if portIsOpen w then [PortClose] else []) = 0%nat)
    by (destruct (portIsOpen w); split; reflexivity).
  destruct Hc as [Hc1 Hc2]. rewrite Hc1, Hc2. cbn [map].
  split; [repeat split; try reflexivity; lia|].
  apply in_or_app. right. apply in_or_app. right. apply in_or_app. left.
  now apply in_map.
Qed.

(** The 'open' listener writes a queued command to the port. *)
Lemma open_writes_queued (w : World) (sp : SerialPort) (q : QueuedCommand) :
  port (this w) = Some sp ->
  inStage w q Queued -> inStage (step w PortOpened) q InFlight.
Proof.
  intros Hp [(Hq & Hw & Hs & Hx) Hin]. cbn [placed] in Hin.
  rewrite (step_PortOpened w sp Hp).
  unfold inStage, counted, placed, queuedPromises, writingPromises in *.
  cbn [this commandQueue pendingWrites trace].
  rewrite settles_app, writesOf_app, map_app, occ_app, map_fst_written.
  rewrite (proj1 (writeOf_counts _ _)), (proj2 (writeOf_counts _ _)).
  cbn [map]. split; [repeat split; try reflexivity; lia|].
  split.
  - apply in_or_app. right.
    apply (in_map (fun c => (promise c, command c)) _ _ Hin).
  - apply in_or_app. right. now apply in_map.
Qed.

(** Any other event leaves a queued command where it is. *)
Lemma other_events_keep_queued (w : World) (e : Event) (q : QueuedCommand) :
  accounted w ->
  isConnected (this w) = false ->
  keepsQueue e = true ->
  In q (commandQueue (this w)) -> In q (commandQueue (this (step w e))).
Proof.
  intros Hacc Hc He Hin.
  destruct (step_keepsQueue w e He Hc) as [_ Hq]. rewrite Hq.
  apply in_or_app. now left.
Qed.

Lemma run_keeps_queued (evs : list Event) (q : QueuedCommand) :
  forall w,
    forallb keepsQueue evs = true ->
    isConnected (this w) = false ->
    In q (commandQueue (this w)) ->
    In q (commandQueue (this (run evs w))).
Proof.
  induction evs as [|e evs IH]; intros w He Hc Hin; [exact Hin|].
  cbn in He. apply andb_prop in He as [He1 He2].
  destruct (step_keepsQueue w e He1 Hc) as [Hc' Hq].
  cbn [run fold_left]. apply IH; [exact He2|exact Hc'|].
  rewrite Hq. apply in_or_app. now left.
Qed.

Lemma step_shut (w : World) (e : Event) :
  unattended e = true ->
  timerSpent w ->
  exists d, trace (step w e) = trace w ++ d
            /\ forallb (fun a => negb (reconnects a)) d = true.
Proof.
  unfold timerSpent. intros He [Hrt Hts].
  destruct (reconnectTimer (this w)) as [h0|] eqn:Ert; [clear Hrt|congruence].
  destruct e; try discriminate He.
  - unfold_world w; cbn in *; subst. destruct ic; cbn.
    + destruct po; cbn; eexists; split; reflexivity.
    + exists []. now rewrite app_nil_r.
  - destruct (port (this w)) as [sp|] eqn:E.
    + rewrite (step_PortOpened w sp E). cbn.
      eexists. split; [reflexivity|].
      clear. induction (commandQueue (this w)); cbn; auto.
    + cbn. rewrite E. exists []. now rewrite app_nil_r.
  - unfold_world w; cbn in *; subst. destruct po; cbn;
      exists []; now rewrite app_nil_r.
  - unfold_world w; cbn in *; subst. destruct po; cbn;
      exists []; now rewrite app_nil_r.
  - unfold_world w; cbn in *; subst. destruct (existsb _ _); [destruct err|]; cbn;
      first [ exists []; now rewrite app_nil_r | eexists; split; reflexivity ].
  - unfold_world w; cbn in *; subst.
    destruct (find _ _) as [[? ?]|]; [destruct err|]; cbn;
      first [ exists []; now rewrite app_nil_r | eexists; split; reflexivity ].
  - unfold step, armed. rewrite Hts. cbn. exists []. now rewrite app_nil_r.
  - unfold_world w; cbn in *; subst. destruct (existsb _ _); cbn.
    + destruct deviceExists, ic; unfold portIsOpen; cbn;
        try destruct po as [[au []]|]; cbn;
        first [ exists []; now rewrite app_nil_r | eexists; split; reflexivity ].
    + exists []. now rewrite app_nil_r.
Qed.

Lemma run_shut (evs : list Event) :
  forall w,
    timerSpent w ->
    forallb unattended evs = true ->
    exists d, trace (run evs w) = trace w ++ d
              /\ forallb (fun a => negb (reconnects a)) d = true.
Proof.
  induction evs as [|e evs IH]; intros w Hw He; cbn in *.
  - exists []. now rewrite app_nil_r.
  - apply andb_prop in He as [He Hevs].
    destruct (step_shut w e He Hw) as (d1 & E1 & H1).
    destruct (step_timerSpent w e He Hw) as (Hw' & _).
    destruct (IH (step w e) Hw' Hevs) as (d2 & E2 & H2).
    exists (d1 ++ d2). unfold run in E2. rewrite E2, E1, <- app_assoc.
    split; [reflexivity|]. now rewrite forallb_app, H1, H2.
Qed.

Lemma portStaysShut_split (evs : list Event) :
  forallb portStaysShut evs = true ->
  forallb unattended evs = true /\ forallb keepsQueue evs = true.
Proof.
  induction evs as [|e evs IH]; cbn; [auto|].
  intros H. apply andb_prop in H as [He Hevs].
  apply andb_prop in He as [H1 H2]. destruct (IH Hevs) as [I1 I2].
  now rewrite H1, H2, I1, I2.
Qed.

(** C7 (what the code does). A command that was placed in the queue is, at
    every later moment, in exactly one stage: still queued; written once,
    with its callback due; written once and settled once by that write's
    callback (executed); or settled once by the rejection of a shutdown
    without ever having been written (purged).  Its promise is never settled
    twice and never both executed and purged, and a stage only moves along
    Queued - InFlight - Executed or Queued - Purged.  While it is queued the
    controller is disconnected; the 'open' notification of the port writes
    it, [cleanup()] purges it, and every other event leaves it queued.

    But it can stay queued for ever, settled by neither.  The callback of the
    retry timer leaves its handle in [reconnectTimer], so once that timer
    has fired and the port it created does not open, no event other than a
    call of [connect()] or [cleanup()] arms a timer, creates a port or asks
    a port to open again, not even the device check that sees the device
    back: the command is still in the queue, unsettled, after any such
    run. *)
Theorem queued_command_settled_at_most_once_and_possibly_never
        (deviceExists ctorThrows : bool) (evs1 evs2 : list Event) (e : Event)
        (q : QueuedCommand) :
  In q (commandQueue (this (run evs1 (construct deviceExists ctorThrows)))) ->
  let w := run evs2 (run evs1 (construct deviceExists ctorThrows)) in
  (exists st st',
      inStage w q st /\ inStage (step w e) q st' /\ follows st st' = true
      /\ (settles (promise q) (trace w) <= 1)%nat
      /\ (st = InFlight ->
          forall err, inStage (step w (WriteCallback (promise q) err)) q Executed))
  /\ (inStage w q Queued ->
      isConnected (this w) = false
      /\ inStage (step w CallCleanup) q Purged
      /\ (forall sp, port (this w) = Some sp -> inStage (step w PortOpened) q InFlight)
      /\ (keepsQueue e = true -> inStage (step w e) q Queued)
      /\ forall h evs,
          armed h w = true ->
          forallb portStaysShut evs = true ->
          let w1 := step w (ReconnectTimerFired h) in
          let w2 := run evs w1 in
          inStage w2 q Queued
          /\ settles (promise q) (trace w2) = 0%nat
          /\ reconnectTimer (this w2) = Some h
          /\ timeouts w2 = []
          /\ exists d, trace w2 = trace w1 ++ d
                       /\ forallb (fun a => negb (reconnects a)) d = true).
Proof.
  intros Hin w.
  set (w1 := run evs1 (construct deviceExists ctorThrows)) in *.
  assert (Hacc1 : accounted w1) by apply run_accounted, accounted_construct.
  assert (Htr1 : tracked w1 (promise q)) by now apply queued_tracked.
  assert (Hl1 : located w1 q) by now apply queued_located.
  assert (Hacc : accounted w) by now apply run_accounted.
  assert (Htr : tracked w (promise q)) by now apply run_tracked.
  assert (Hl : located w q) by now apply run_located.
  pose proof (step_moves w e) as Hm.
  pose proof (moves_accounted w _ Hacc Hm) as Hacc'.
  pose proof (moves_tracked w _ _ Hm Htr) as Htr'.
  pose proof (moves_located w _ q Hacc Htr Hl Hm) as Hl'.
  split.
  - destruct (stage_exists w q Hacc Htr Hl) as [st Hst].
    destruct (stage_exists (step w e) q Hacc' Htr' Hl') as [st' Hst'].
    exists st, st'.
    split; [exact Hst|]. split; [exact Hst'|].
    split; [|split].
    + exact (counted_follows w (step w e) _ st st' Hacc Hm (proj1 Hst) (proj1 Hst')).
    + destruct Hst as [Hc _]. destruct st; unfold counted in Hc; lia.
    + intros -> err. now apply writeCallback_executes.
  - intros Hq.
    assert (Hinq : In q (commandQueue (this w))) by exact (proj2 Hq).
    assert (Hdis : isConnected (this w) = false).
    { subst w w1. unfold run in *. rewrite <- fold_left_app in *.
      exact (queued_means_disconnected deviceExists ctorThrows (evs1 ++ evs2) q Hinq). }
    split; [exact Hdis|].
    split; [now apply cleanup_purges|].
    split; [intros sp Hp; now apply (open_writes_queued w sp)|].
    split.
    + intros He. apply queued_inStage; [exact Hacc'|].
      now apply other_events_keep_queued.
    + intros h evs Ha He wf w2.
      destruct (portStaysShut_split evs He) as [Hun Hkeep].
      assert (Hown : timersOwned w).
      { subst w w1. apply run_timersOwned, run_timersOwned, construct_timersOwned. }
      destruct (timer_fired_is_spent w h Hown Ha) as (Hrt & Hts & _).
      fold wf in Hrt, Hts.
      assert (Hspent : timerSpent wf) by (split; [congruence|exact Hts]).
      destruct (run_timerSpent evs wf Hspent Hun) as ([_ Hts'] & Hrt' & _).
      destruct (run_shut evs wf Hspent Hun) as (d & Hd & Hdq).
      fold w2 in Hts', Hrt', Hd.
      destruct (step_keepsQueue w (ReconnectTimerFired h) eq_refl Hdis) as [Hdisf Hqf].
      fold wf in Hdisf, Hqf.
      assert (Hinf : In q (commandQueue (this wf)))
        by (rewrite Hqf; apply in_or_app; now left).
      assert (Hin2 : In q (commandQueue (this w2)))
        by (subst w2; now apply run_keeps_queued).
      assert (Hacc2 : accounted w2).
      { subst w2 wf. apply run_accounted.
        exact (moves_accounted w _ Hacc (step_moves w _)). }
      pose proof (queued_inStage w2 q Hacc2 Hin2) as Hst2.
      split; [exact Hst2|].
      split; [destruct Hst2 as [(_ & _ & Hs & _) _]; exact Hs|].
      split; [rewrite Hrt'; exact Hrt|]. split; [exact Hts'|].
      exists d. split; [exact Hd|exact Hdq].
Qed.

Lemma queued_command_settled_at_most_once_and_possibly_never_witness :
  let w := run [CallSendCommand "4"] (construct false false) in
  let q := mkQueued "4" 0 in
  let w2 := run [PortErrored; DeviceCheckTick 0%nat true; PortClosed;
                 DeviceCheckTick 0%nat true; CallSendCommand "5"]
                (step w (ReconnectTimerFired 1%nat)) in
  inStage w2 q Queued
  /\ settles 0%nat (trace w2) = 0%nat
  /\ timeouts w2 = [].
Proof.
  intros w q w2.
  destruct (queued_command_settled_at_most_once_and_possibly_never
              false false [CallSendCommand "4"] [] PortErrored (mkQueued "4" 0)
              ltac:(vm_compute; left; reflexivity)) as [_ H].
  assert (Hq : inStage w q Queued).
  { apply queued_inStage; [apply run_accounted, accounted_construct|].
    vm_compute. left. reflexivity. }
  destruct (H Hq) as (_ & _ & _ & _ & Hstuck).
  destruct (Hstuck 1%nat
              [PortErrored; DeviceCheckTick 0%nat true; PortClosed;
               DeviceCheckTick 0%nat true; CallSendCommand "5"]
              eq_refl eq_refl) as (H1 & H2 & _ & H4 & _).
  split; [exact H1|]. split; [exact H2|exact H4].
Defined.

End DeviceControllerProofs.

Module RetryProofs.
Import Retry.

Section Loop.

Variable device : Device.
Variable command : string.
Variable maxRetries : Z.

Lemma retryLoop_fulfilled (retryCount : Z) (r : SerialResponse) :
  device (Z.to_nat retryCount) = Fulfilled r ->
  retryLoop device command maxRetries retryCount = (Fulfilled r, [Call command]).
Proof.
  intros H. rewrite retryLoop_equation_1, H. reflexivity.
Qed.

Lemma retryLoop_exhausted (retryCount : Z) (error : SerialResponse) :
  device (Z.to_nat retryCount) = Rejected error ->
  retryCount + 1 >= maxRetries ->
  retryLoop device command maxRetries retryCount = (Rejected error, [Call command]).
Proof.
  intros H Hge. rewrite retryLoop_equation_1, H. cbn.
  destruct (Z_ge_lt_dec (retryCount + 1) maxRetries); [reflexivity|lia].
Qed.

Lemma retryLoop_again (retryCount : Z) (error : SerialResponse) :
  device (Z.to_nat retryCount) = Rejected error ->
  retryCount + 1 < maxRetries ->
  retryLoop device command maxRetries retryCount
  = (fst (retryLoop device command maxRetries (retryCount + 1)),
     Call command :: Sleep retryDelay
       :: snd (retryLoop device command maxRetries (retryCount + 1))).
Proof.
  intros H Hlt. rewrite (retryLoop_equation_1 device command maxRetries retryCount), H.
  cbn. destruct (Z_ge_lt_dec (retryCount + 1) maxRetries); [lia|reflexivity].
Qed.

(** [k] failures, then a success before the attempts run out: the success
    is returned after [k + 1] calls. *)
Lemma retryLoop_first_success (k : nat) :
  forall (retryCount : Z) (r : SerialResponse),
    0 <= retryCount ->
    (forall j, (j < k)%nat -> exists e, device (Z.to_nat retryCount + j)%nat = Rejected e) ->
    device (Z.to_nat retryCount + k)%nat = Fulfilled r ->
    retryCount + Z.of_nat k < maxRetries ->
    retryLoop device command maxRetries retryCount = (Fulfilled r, attempts command k).
Proof.
  induction k as [|k IH]; intros c r Hc Hrej Hok Hlt.
  - rewrite Nat.add_0_r in Hok. now apply retryLoop_fulfilled.
  - destruct (Hrej O ltac:(lia)) as [e He]. rewrite Nat.add_0_r in He.
    rewrite (retryLoop_again c e He ltac:(lia)).
    rewrite (IH (c + 1) r); [reflexivity|lia| |  |lia].
    + intros j Hj. destruct (Hrej (S j) ltac:(lia)) as [e' He'].
      exists e'. rewrite <- He'. f_equal. lia.
    + rewrite <- Hok. f_equal. lia.
Qed.

(** Every attempt fails: the last failure is thrown after [maxRetries]
    calls. *)
Lemma retryLoop_all_fail (k : nat) :
  forall (retryCount : Z) (error : SerialResponse),
    0 <= retryCount ->
    (forall j, (j < k)%nat -> exists e, device (Z.to_nat retryCount + j)%nat = Rejected e) ->
    device (Z.to_nat retryCount + k)%nat = Rejected error ->
    retryCount + Z.of_nat k + 1 = maxRetries ->
    retryLoop device command maxRetries retryCount = (Rejected error, attempts command k).
Proof.
  induction k as [|k IH]; intros c err Hc Hrej Hlast Hm.
  - rewrite Nat.add_0_r in Hlast. apply retryLoop_exhausted; [assumption|lia].
  - destruct (Hrej O ltac:(lia)) as [e He]. rewrite Nat.add_0_r in He.
    rewrite (retryLoop_again c e He ltac:(lia)).
    rewrite (IH (c + 1) err); [reflexivity|lia| |  |lia].
    + intros j Hj. destruct (Hrej (S j) ltac:(lia)) as [e' He'].
      exists e'. rewrite <- He'. f_equal. lia.
    + rewrite <- Hlast. f_equal. lia.
Qed.

End Loop.

Lemma attempts_calls (command : string) (k : nat) : calls (attempts command k) = S k.
Proof. unfold calls. induction k; cbn in *; [reflexivity|]. now rewrite IHk. Qed.

Lemma attempts_slept (command : string) (k : nat) :
  slept (attempts command k) = retryDelay * Z.of_nat k.
Proof.
  induction k as [|k IH]; [reflexivity|].
  cbn [attempts slept fold_right]. fold (slept (attempts command k)).
  rewrite IH. lia.
Qed.

(** C9. With [maxRetries = 3]: if the three calls of [sendCommand] fail, the
    wrapper makes exactly three calls, waits 2000 ms after the first and
    after the second (4000 ms in all) and throws the third failure; if the
    call number [k < 3] is the first that succeeds, it returns that success
    after [k + 1] calls and makes no further one. *)
Theorem retry_wrapper_three_attempts (device : Device) (command : string) :
  (forall e0 e1 e2,
      device 0%nat = Rejected e0 ->
      device 1%nat = Rejected e1 ->
      device 2%nat = Rejected e2 ->
      sendCommandWithRetry device command 3
      = (Rejected e2,
         [Call command; Sleep 2000; Call command; Sleep 2000; Call command])
      /\ calls (snd (sendCommandWithRetry device command 3)) = 3%nat
      /\ slept (snd (sendCommandWithRetry device command 3)) = 2 * 2000)
  /\ (forall k r,
        (k < 3)%nat ->
        (forall j, (j < k)%nat -> exists e, device j = Rejected e) ->
        device k = Fulfilled r ->
        sendCommandWithRetry device command 3 = (Fulfilled r, attempts command k)
        /\ calls (snd (sendCommandWithRetry device command 3)) = S k).
Proof.
  split.
  - intros e0 e1 e2 H0 H1 H2.
    assert (E : sendCommandWithRetry device command 3
                = (Rejected e2, attempts command 2)).
    { apply retryLoop_all_fail; try lia; [|exact H2].
      intros [|[|j]] Hj; [eauto|eauto|lia]. }
    rewrite E. repeat split.
  - intros k r Hk Hrej Hok.
    assert (E : sendCommandWithRetry device command 3
                = (Fulfilled r, attempts command k)).
    { apply retryLoop_first_success; try lia; assumption. }
    rewrite E. split; [reflexivity|]. apply attempts_calls.
Qed.

Lemma retry_wrapper_three_attempts_witness :
  let notConnected := mkResponse false "Device not connected" in
  let device := fun _ : nat => Rejected notConnected in
  sendCommandWithRetry device "4" 3
  = (Rejected notConnected, [Call "4"; Sleep 2000; Call "4"; Sleep 2000; Call "4"]).
Proof.
  intros notConnected device.
  exact (proj1 (proj1 (retry_wrapper_three_attempts device "4")
                  notConnected notConnected notConnected
                  eq_refl eq_refl eq_refl)).
Defined.

End RetryProofs.

Module BlockchainListenerProofs.
Import BlockchainListener ListenerExtras.

Ltac unfold_listener l :=
  destruct l as [last pi st ss ns nh ar tr].

Lemma find_filter_out (id : nat) (ss : list (nat * ScanPoint)) :
  find (fun s => (fst s =? id)%nat)
       (filter (fun s => negb (fst s =? id)%nat) ss) = None.
Proof.
  induction ss as [|s ss IH]; cbn; [reflexivity|].
  destruct (fst s =? id)%nat eqn:E; cbn; [exact IH|]. now rewrite E.
Qed.

Lemma scanAt_endScan (id : nat) (l : Listener) : scanAt id (endScan id l) = None.
Proof. unfold scanAt, endScan. cbn. now rewrite find_filter_out. Qed.

Lemma existsb_armed (h : nat) (l : list nat) : In h l -> existsb (Nat.eqb h) l = true.
Proof. intros H. apply existsb_exists. exists h. now rewrite Nat.eqb_refl. Qed.

Lemma fetched_app tr d : fetched (tr ++ d) = fetched tr ++ fetched d.
Proof. apply flat_map_app. Qed.

Lemma dispatchesOf_app id tr d :
  dispatchesOf id (tr ++ d) = dispatchesOf id tr ++ dispatchesOf id d.
Proof. apply filter_app. Qed.

(** *** Scan ids *)

Lemma find_fresh (n : nat) (pt : ScanPoint) (ss : list (nat * ScanPoint)) :
  (forall s, In s ss -> (fst s < n)%nat) ->
  find (fun s => (fst s =? n)%nat) (ss ++ [(n, pt)]) = Some (n, pt).
Proof.
  induction ss as [|s ss IH]; intros H; cbn.
  - now rewrite Nat.eqb_refl.
  - destruct (fst s =? n)%nat eqn:E.
    + apply Nat.eqb_eq in E. specialize (H s (or_introl eq_refl)). lia.
    + apply IH. intros s' Hs'. apply H. now right.
Qed.

Lemma find_suspend (id : nat) (pt : ScanPoint) (ss : list (nat * ScanPoint)) s0 :
  find (fun s => (fst s =? id)%nat) ss = Some s0 ->
  find (fun s => (fst s =? id)%nat)
       (map (fun s => if (fst s =? id)%nat then (id, pt) else s) ss) = Some (id, pt).
Proof.
  induction ss as [|s ss IH]; cbn; [discriminate|].
  destruct (fst s =? id)%nat eqn:E; cbn.
  - now rewrite Nat.eqb_refl.
  - rewrite E. exact IH.
Qed.

Lemma scanAt_suspend (id : nat) (pt pt0 : ScanPoint) (l : Listener) :
  scanAt id l = Some pt0 -> scanAt id (suspend id pt l) = Some pt.
Proof.
  unfold scanAt. destruct (find _ (scans l)) as [s0|] eqn:E; [|discriminate].
  intros _. cbn. now rewrite (find_suspend id pt _ s0 E).
Qed.

Lemma scanAt_In (id : nat) (pt : ScanPoint) (l : Listener) :
  scanAt id l = Some pt -> In (id, pt) (scans l).
Proof.
  unfold scanAt. destruct (find _ (scans l)) as [[i p]|] eqn:E; [|discriminate].
  cbn. intros H. injection H as ->. apply find_some in E as [Hin Hi].
  cbn in Hi. apply Nat.eqb_eq in Hi. now subst i.
Qed.

Lemma endScan_fresh (id : nat) (l : Listener) :
  freshScans l -> freshScans (endScan id l).
Proof.
  intros Hf s Hs. cbn in Hs. apply filter_In in Hs as [Hs _]. exact (Hf s Hs).
Qed.

Lemma suspend_fresh (id : nat) (pt pt0 : ScanPoint) (l : Listener) :
  scanAt id l = Some pt0 -> freshScans l -> freshScans (suspend id pt l).
Proof.
  intros Hat Hf s Hs. cbn in Hs. apply in_map_iff in Hs as (s0 & <- & Hs0).
  destruct (fst s0 =? id)%nat; [|exact (Hf s0 Hs0)].
  exact (Hf _ (scanAt_In id pt0 l Hat)).
Qed.

Lemma checkForEvents_fresh (l : Listener) :
  freshScans l -> freshScans (checkForEvents l).
Proof.
  intros Hf s Hs. cbn in Hs. apply in_app_or in Hs as [Hs|[<-|[]]]; cbn.
  - specialize (Hf s Hs). lia.
  - lia.
Qed.

Lemma forLogs_fresh (id : nat) (tip : Z) (logs : list Log) :
  forall l pt0,
    scanAt id l = Some pt0 -> freshScans l -> freshScans (forLogs id tip logs l).
Proof.
  induction logs as [|log rest IH]; intros l pt0 Hat Hf; cbn [forLogs].
  - apply endScan_fresh. exact Hf.
  - destruct log; try exact (IH l pt0 Hat Hf).
    + apply (suspend_fresh id _ pt0); [exact Hat|exact Hf].
    + apply endScan_fresh. exact Hf.
Qed.

Lemma step_fresh (l : Listener) (e : Event) : freshScans l -> freshScans (step l e).
Proof.
  intros Hf. destruct e; cbn [step].
  - exact Hf.
  - unfold stopListening. destruct (pollingInterval l); exact Hf.
  - destruct (starting l); [destruct res as [n|]|]; try exact Hf.
    unfold onStartBlockNumber. apply checkForEvents_fresh. exact Hf.
  - destruct (existsb _ _); [now apply checkForEvents_fresh|exact Hf].
  - destruct (scanAt id l) as [[| |]|] eqn:Hat; try exact Hf.
    unfold onBlockNumber. destruct res as [tip|].
    + destruct (tip <=? lastBlockChecked l).
      * now apply endScan_fresh.
      * apply (suspend_fresh id _ AwaitBlockNumber); [exact Hat|exact Hf].
    + apply endScan_fresh. exact Hf.
  - destruct (scanAt id l) as [[| |]|] eqn:Hat; try exact Hf.
    destruct res as [logs|]; cbn [onLogs].
    + exact (forLogs_fresh id currentBlock logs l _ Hat Hf).
    + apply endScan_fresh. exact Hf.
  - destruct (scanAt id l) as [[| |]|] eqn:Hat; try exact Hf.
    unfold onDispatched. destruct ok.
    + exact (forLogs_fresh id currentBlock rest l _ Hat Hf).
    + apply (forLogs_fresh id currentBlock rest _ (AwaitDispatch currentBlock rest));
        [exact Hat|exact Hf].
Qed.

(** In every state the listener reaches, the scan ids are fresh. *)
Lemma run_fresh (evs : list Event) : freshScans (run evs initial).
Proof.
  assert (H : forall l, freshScans l -> freshScans (run evs l)).
  { induction evs as [|e evs IH]; intros l Hl; [exact Hl|].
    cbn [run fold_left]. apply IH. now apply step_fresh. }
  apply H. intros s [].
Qed.

(** A tick whose scan reads a tip above the cursor: the scan asks for the
    range from the block after the cursor to that tip. *)
Lemma next_scan_fetches (l : Listener) (h : nat) (tip : Z) :
  In h (armed l) ->
  freshScans l ->
  lastBlockChecked l < tip ->
  let l2 := run [Tick h; BlockNumber (nextScan l) (Some tip)] l in
  trace l2 = trace l ++ [GetBlockNumber; GetLogs (lastBlockChecked l + 1) tip]
  /\ scanAt (nextScan l) l2 = Some (AwaitLogs tip)
  /\ lastBlockChecked l2 = lastBlockChecked l
  /\ fetched (trace l2) = fetched (trace l) ++ [(lastBlockChecked l + 1, tip)]
  /\ freshScans l2
  /\ armed l2 = armed l
  /\ nextScan l2 = S (nextScan l).
Proof.
  intros Hh Hf Hlt l2. subst l2. unfold run. cbn [fold_left step].
  rewrite (existsb_armed h _ Hh).
  set (l1 := checkForEvents l).
  assert (Hat1 : scanAt (nextScan l) l1 = Some AwaitBlockNumber).
  { subst l1. unfold scanAt. cbn. now rewrite (find_fresh _ _ _ Hf). }
  rewrite Hat1. unfold onBlockNumber.
  assert (Hl1 : lastBlockChecked l1 = lastBlockChecked l) by reflexivity.
  rewrite Hl1. destruct (Z.leb_spec tip (lastBlockChecked l)); [lia|].
  set (l2 := suspend _ _ _).
  assert (Ht : trace l2 = trace l ++ [GetBlockNumber; GetLogs (lastBlockChecked l + 1) tip]).
  { subst l2 l1. cbn. now rewrite <- app_assoc. }
  split; [exact Ht|].
  split; [subst l2; apply (scanAt_suspend _ _ AwaitBlockNumber); exact Hat1|].
  split; [reflexivity|].
  split; [rewrite Ht, fetched_app; reflexivity|].
  split; [|split; reflexivity].
  subst l2. apply (suspend_fresh _ _ AwaitBlockNumber); [exact Hat1|].
  apply checkForEvents_fresh. exact Hf.
Qed.

(** *** A failed fetch *)

(** C5 (counterexample). The cursor is at 100, the tip read by the scan is
    105 and [getLogs] fails: the cursor stays at 100, and the next scan
    fetches the range from block 101 again. *)
Lemma failed_fetch_keeps_the_cursor :
  let l := run [CallStartListening; StartBlockNumber (Some 100);
                BlockNumber 0%nat (Some 100); Tick 0%nat;
                BlockNumber 1%nat (Some 105); Logs 1%nat None] initial in
  lastBlockChecked l = 100
  /\ lastBlockChecked l <> 105
  /\ fetched (trace (run [Tick 0%nat; BlockNumber 2%nat (Some 105)] l))
     = [(101, 105); (101, 105)].
Proof. vm_compute. repeat split. discriminate. Qed.

(** C5 (amended). When [getLogs] fails, the error is logged and swallowed,
    the scan ends and the cursor is left where it was.  So the next tick
    whose scan sees a tip above the cursor fetches from the block after the
    unchanged cursor again (the scan ids of a listener are always fresh,
    [run_fresh]).  In particular, when the failing scan ran alone, the range
    it asked for, from the block after the cursor to its tip, is asked for
    again by the scan of the next tick, from the same first block and up to
    the tip that scan sees: the failing range is scanned again, not
    skipped. *)
Theorem failed_fetch_is_logged_and_range_rescanned
        (l : Listener) (id : nat) (currentBlock : Z) :
  scanAt id l = Some (AwaitLogs currentBlock) ->
  let l' := step l (Logs id None) in
  trace l' = trace l ++ [LogError "Error checking for events"]
  /\ lastBlockChecked l' = lastBlockChecked l
  /\ scanAt id l' = None
  /\ (forall id' tip,
         scanAt id' l' = Some AwaitBlockNumber ->
         lastBlockChecked l < tip ->
         trace (step l' (BlockNumber id' (Some tip)))
         = trace l' ++ [GetLogs (lastBlockChecked l + 1) tip])
  /\ (forall h tip,
         In h (armed l) ->
         freshScans l ->
         lastBlockChecked l < tip ->
         let l2 := run [Tick h; BlockNumber (nextScan l) (Some tip)] l' in
         trace l2 = trace l' ++ [GetBlockNumber; GetLogs (lastBlockChecked l + 1) tip]
         /\ fetched (trace l2) = fetched (trace l) ++ [(lastBlockChecked l + 1, tip)])
  /\ (forall l0 h tip tip',
         scans l0 = [] ->
         In h (armed l0) ->
         lastBlockChecked l0 < tip ->
         tip <= tip' ->
         let id0 := nextScan l0 in
         let l1 := run [Tick h; BlockNumber id0 (Some tip); Logs id0 None] l0 in
         let l2 := run [Tick h; BlockNumber (S id0) (Some tip')] l1 in
         lastBlockChecked l1 = lastBlockChecked l0
         /\ scans l1 = []
         /\ fetched (trace l1) = fetched (trace l0) ++ [(lastBlockChecked l0 + 1, tip)]
         /\ fetched (trace l2)
            = fetched (trace l0) ++ [(lastBlockChecked l0 + 1, tip);
                                     (lastBlockChecked l0 + 1, tip')]).
Proof.
  intros Hat l'.
  assert (E : l' = endScan id (emit (LogError "Error checking for events") l))
    by (subst l'; cbn [step]; rewrite Hat; reflexivity).
  clearbody l'. subst l'.
  split; [reflexivity|]. split; [reflexivity|].
  split; [apply scanAt_endScan|].
  split; [|split].
  - intros id' tip Hat' Hlt. cbn [step]. rewrite Hat'. unfold onBlockNumber.
    cbn [lastBlockChecked endScan emit setScans].
    destruct (Z.leb_spec tip (lastBlockChecked l)); [lia|]. reflexivity.
  - intros h tip Hh Hf Hlt.
    set (l' := endScan id (emit (LogError "Error checking for events") l)).
    assert (Hf' : freshScans l') by (apply endScan_fresh; exact Hf).
    destruct (next_scan_fetches l' h tip Hh Hf' Hlt) as (H1 & _ & _ & H4 & _).
    split; [exact H1|].
    etransitivity; [exact H4|].
    subst l'. cbn [trace endScan emit setScans lastBlockChecked].
    rewrite fetched_app. cbn. now rewrite app_nil_r.
  - intros l0 h tip tip' Hs Hh Hlt Hle id0 l1 l2.
    assert (Hf0 : freshScans l0) by (intros s Hin; rewrite Hs in Hin; destruct Hin).
    destruct (next_scan_fetches l0 h tip Hh Hf0 Hlt)
      as (Ht & Hat0 & Hc & Hfe & Hfr & Har & Hn).
    set (la := run [Tick h; BlockNumber (nextScan l0) (Some tip)] l0) in *.
    assert (Hsa : scans la = [(id0, AwaitLogs tip)]).
    { subst la id0. unfold run. cbn [fold_left step].
      rewrite (existsb_armed h _ Hh). unfold scanAt, checkForEvents. cbn.
      rewrite Hs. cbn. rewrite Nat.eqb_refl. unfold onBlockNumber. cbn.
      destruct (Z.leb_spec tip (lastBlockChecked l0)); [lia|].
      cbn. now rewrite Nat.eqb_refl. }
    assert (E1 : l1 = endScan id0 (emit (LogError "Error checking for events") la)).
    { subst l1. change (run [Tick h; BlockNumber id0 (Some tip); Logs id0 None] l0)
        with (step la (Logs id0 None)).
      cbn [step]. fold id0 in Hat0. rewrite Hat0. reflexivity. }
    clearbody la. clearbody l1.
    assert (Hs1 : scans l1 = []).
    { rewrite E1. cbn. rewrite Hsa. cbn. now rewrite Nat.eqb_refl. }
    assert (Hf1 : freshScans l1) by (intros s Hin; rewrite Hs1 in Hin; destruct Hin).
    assert (Hc1 : lastBlockChecked l1 = lastBlockChecked l0) by (rewrite E1; exact Hc).
    assert (Hn1 : nextScan l1 = S id0) by (rewrite E1; exact Hn).
    assert (Hh1 : In h (armed l1)) by (rewrite E1; cbn; rewrite Har; exact Hh).
    assert (Hfe1 : fetched (trace l1)
                   = fetched (trace l0) ++ [(lastBlockChecked l0 + 1, tip)]).
    { rewrite E1. cbn [trace endScan emit setScans]. rewrite fetched_app, Hfe.
      cbn. now rewrite app_nil_r. }
    split; [exact Hc1|]. split; [exact Hs1|]. split; [exact Hfe1|].
    destruct (next_scan_fetches l1 h tip' Hh1 Hf1 ltac:(lia)) as (_ & _ & _ & H4 & _).
    subst l2. rewrite <- Hn1, H4, Hfe1, Hc1, <- app_assoc. reflexivity.
Qed.

Lemma failed_fetch_is_logged_and_range_rescanned_witness :
  let l := run [CallStartListening; StartBlockNumber (Some 100);
                BlockNumber 0%nat (Some 105)] initial in
  let l' := step l (Logs 0%nat None) in
  let l0 := run [CallStartListening; StartBlockNumber (Some 100);
                 BlockNumber 0%nat (Some 100)] initial in
  let l1 := run [Tick 0%nat; BlockNumber 1%nat (Some 105); Logs 1%nat None] l0 in
  (lastBlockChecked l' = 100
   /\ fetched (trace l) = [(101, 105)]
   /\ fetched (trace (run [Tick 0%nat; BlockNumber 1%nat (Some 106)] l'))
      = [(101, 105); (101, 106)])
  /\ scans l1 = []
  /\ fetched (trace (run [Tick 0%nat; BlockNumber 2%nat (Some 106)] l1))
     = [(101, 105); (101, 106)].
Proof.
  intros l l' l0 l1.
  destruct (failed_fetch_is_logged_and_range_rescanned l 0%nat 105 eq_refl)
    as (_ & H2 & _ & _ & H5 & H6).
  split.
  - split; [exact H2|]. split; [reflexivity|].
    exact (proj2 (H5 0%nat 106 (or_introl eq_refl) (run_fresh _) ltac:(cbn; lia))).
  - destruct (H6 l0 0%nat 105 106 eq_refl (or_introl eq_refl)
                ltac:(cbn; lia) ltac:(lia)) as (_ & J2 & _ & J4).
    split; [exact J2|exact J4].
Defined.

(** *** Overlapping scans *)






End BlockchainListenerProofs.

(** * More of the code *)

Module ControllerExtrasProofs.
Import DeviceController ControllerExtras DeviceControllerProofs.

(** *** The backoff delay *)

(** X1. For every attempt counter [k >= 0] the retry delay lies between
    1000 and 30000 ms, never shrinks when the counter grows, is
    [1000 * 2^k] up to [k = 4] and is the cap of 30000 ms from [k = 5] on. *)
Theorem backoff_delay_bounds (k k' : Z) :
  0 <= k -> k <= k' ->
  1000 <= backoffDelay k <= 30000
  /\ backoffDelay k <= backoffDelay k'
  /\ (k <= 4 -> backoffDelay k = 1000 * 2 ^ k)
  /\ (5 <= k -> backoffDelay k = 30000).
Proof.
  intros Hk Hkk'. unfold backoffDelay, INITIAL_RECONNECT_DELAY, MAX_RECONNECT_DELAY.
  assert (H1 : 0 < 2 ^ k) by (apply Z.pow_pos_nonneg; lia).
  assert (H2 : 2 ^ k <= 2 ^ k') by (apply Z.pow_le_mono_r; lia).
  assert (H3 : k <= 4 -> 2 ^ k <= 2 ^ 4) by (intros; apply Z.pow_le_mono_r; lia).
  assert (H4 : 5 <= k -> 2 ^ 5 <= 2 ^ k) by (intros; apply Z.pow_le_mono_r; lia).
  change (2 ^ 4) with 16 in H3. change (2 ^ 5) with 32 in H4.
  split; [lia|]. split; [lia|].
  split; intros Hc; [specialize (H3 Hc)|specialize (H4 Hc)]; lia.
Qed.

Lemma backoff_delay_bounds_witness :
  1000 <= backoffDelay 3 <= 30000 /\ backoffDelay 3 <= backoffDelay 7.
Proof.
  destruct (backoff_delay_bounds 3 7 ltac:(lia) ltac:(lia)) as (H1 & H2 & _).
  split; [exact H1|exact H2].
Defined.

(** *** Timers *)

Lemma step_timer_counts (w : World) (e : Event) :
  timersOwned w ->
  (List.length (timeouts w) <= 1)%nat ->
  (List.length (timeouts (step w e)) <= 1)%nat
  /\ (List.length (intervals (step w e)) <= List.length (intervals w))%nat.
Proof.
  intros [Ht Hi] Hlen.
  assert (Hf : forall (f : nat * Z -> bool) l,
             (List.length l <= 1 -> List.length (filter f l) <= 1)%nat).
  { intros f l Hl. pose proof (filter_length_le f l). lia. }
  destruct e.
  - unfold_world w; cbn in *. destruct ic; cbn; [auto|].
    destruct po; cbn; [|auto]. destruct rt; cbn; auto.
  - unfold_world w; cbn in *. destruct ic; cbn; [destruct po; cbn; auto|].
    destruct rt as [h|]; cbn; [auto|].
    rewrite (owned_none ts None Ht eq_refl). cbn. auto.
  - cbn [step]. rewrite cleanup_eq. cbn.
    unfold without. split.
    + destruct (reconnectTimer (this w)); auto.
    + destruct (deviceCheckInterval (this w)); [apply filter_length_le|auto].
  - destruct (port (this w)) as [sp|] eqn:E.
    + rewrite (step_PortOpened w sp E). cbn. auto.
    + cbn. rewrite E. auto.
  - unfold_world w; cbn in *. destruct po; cbn; [|auto].
    destruct rt as [h|]; cbn; [auto|].
    rewrite (owned_none ts None Ht eq_refl). cbn. auto.
  - unfold_world w; cbn in *. destruct po; cbn; [|auto].
    destruct rt as [h|]; cbn; [auto|].
    rewrite (owned_none ts None Ht eq_refl). cbn. auto.
  - unfold_world w; cbn in *.
    destruct (existsb _ _); [destruct err|]; cbn; auto.
  - unfold_world w; cbn in *.
    destruct (find _ _) as [[? ?]|]; [destruct err|]; cbn; auto.
  - unfold_world w; unfold step, armed; cbn in *.
    destruct (existsb _ _); cbn; [|auto].
    destruct po as [[au []]|]; cbn; auto.
  - unfold_world w; cbn in *.
    destruct (existsb _ _); cbn; [|auto].
    destruct deviceExists, ic, rt as [h0|]; unfold portIsOpen; cbn in *;
      try destruct po as [[au []]|]; cbn;
      try rewrite (owned_none ts None Ht eq_refl); cbn; auto.
Qed.

(** X2. In every run at most one retry timeout is armed, and it is the one
    whose handle is in [reconnectTimer]; at most one device-check interval
    is armed, and it is the one in [deviceCheckInterval]. *)
Theorem at_most_one_timer_armed
        (deviceExists ctorThrows : bool) (evs : list Event) :
  let w := run evs (construct deviceExists ctorThrows) in
  (List.length (timeouts w) <= 1)%nat
  /\ (List.length (intervals w) <= 1)%nat
  /\ (forall t, In t (timeouts w) -> reconnectTimer (this w) = Some (fst t))
  /\ (forall i, In i (intervals w) -> deviceCheckInterval (this w) = Some i).
Proof.
  intros w.
  assert (H : timersOwned w
              /\ (List.length (timeouts w) <= 1)%nat
              /\ (List.length (intervals w) <= 1)%nat).
  { subst w.
    assert (H0 : timersOwned (construct deviceExists ctorThrows)
                 /\ (List.length (timeouts (construct deviceExists ctorThrows)) <= 1)%nat
                 /\ (List.length (intervals (construct deviceExists ctorThrows)) <= 1)%nat).
    { split; [apply construct_timersOwned|].
      destruct deviceExists, ctorThrows; cbn; lia. }
    revert H0. generalize (construct deviceExists ctorThrows).
    induction evs as [|e evs IH]; intros w0 (Ho & Ht & Hi); cbn; [auto|].
    apply IH. destruct (step_timer_counts w0 e Ho Ht) as [Ht' Hi'].
    split; [now apply step_timersOwned|]. split; [exact Ht'|lia]. }
  destruct H as ([Ho1 Ho2] & Ht & Hi). auto.
Qed.

(** *** The queue and the connection *)

(** X3. In every run the queue is empty whenever the controller is
    connected: commands wait in the queue only while it is disconnected. *)
Theorem connected_means_empty_queue
        (deviceExists ctorThrows : bool) (evs : list Event) :
  let w := run evs (construct deviceExists ctorThrows) in
  isConnected (this w) = true -> commandQueue (this w) = [].
Proof.
  intros w. subst w.
  assert (H0 : isConnected (this (construct deviceExists ctorThrows)) = true ->
               commandQueue (this (construct deviceExists ctorThrows)) = [])
    by (destruct deviceExists, ctorThrows; cbn; auto).
  revert H0. generalize (construct deviceExists ctorThrows).
  induction evs as [|e evs IH]; intros w0 H0; cbn; [exact H0|].
  apply IH. now apply step_connected_queue.
Qed.

Lemma connected_means_empty_queue_witness :
  commandQueue
    (this (run [CallSendCommand "1"; ReconnectTimerFired 1%nat; PortOpened]
               (construct false false))) = [].
Proof.
  exact (connected_means_empty_queue false false
           [CallSendCommand "1"; ReconnectTimerFired 1%nat; PortOpened] eq_refl).
Defined.

(** X4. Commands sent one after the other while the controller is connected
    are written to the port at once, in the order of the calls; none is
    queued and no timer is touched. *)
Theorem connected_commands_written_at_once (cmds : list string) :
  forall (w : World) (sp : SerialPort),
    isConnected (this w) = true ->
    port (this w) = Some sp ->
    let w' := run (map CallSendCommand cmds) w in
    trace w' = trace w ++ writesFrom (nextPromise w) cmds
    /\ commandQueue (this w') = commandQueue (this w)
    /\ timeouts w' = timeouts w
    /\ isConnected (this w') = true.
Proof.
  induction cmds as [|c cs IH]; intros w sp Hc Hp.
  - cbn. now rewrite app_nil_r.
  - assert (Hs : step w (CallSendCommand c)
                 = portWrite c (nextPromise w) (snd (newPromise w))).
    { cbn. unfold sendCommand. cbn. rewrite Hc. cbn. unfold executeCommand.
      cbn. rewrite Hc, Hp. reflexivity. }
    unfold run. cbn [map fold_left]. rewrite Hs.
    destruct (IH (portWrite c (nextPromise w) (snd (newPromise w))) sp Hc Hp)
      as (H1 & H2 & H3 & H4).
    unfold run in H1, H2, H3, H4.
    rewrite H1, H2, H3, H4. cbn. rewrite <- app_assoc. auto.
Qed.

Lemma connected_commands_written_at_once_witness :
  let w := run [PortOpened] (construct true false) in
  trace (run (map CallSendCommand ["1"; "5"]) w)
  = trace w ++ [PortWrite "1" 1; PortWrite "5" 2].
Proof.
  intros w.
  exact (proj1 (connected_commands_written_at_once ["1"; "5"] w
                  (mkPort false true) eq_refl eq_refl)).
Defined.

(** X5. A failed write rejects that one command and marks the controller
    disconnected, and that is all: the command is not put back in the queue
    and no reconnection is started.  The next command is queued, and it is
    this call that starts a reconnection, if no timer handle is held. *)
Theorem failed_write_is_not_retried
        (w : World) (p : nat) (c msg next : string) :
  find (fun q => (fst q =? p)%nat) (pendingWrites w) = Some (p, c) ->
  let w1 := step w (WriteCallback p (Some msg)) in
  let w2 := step w1 (CallSendCommand next) in
  trace w1 = trace w ++ [Reject p (mkResponse false ("Failed to send command: " ++ msg))]
  /\ isConnected (this w1) = false
  /\ commandQueue (this w1) = commandQueue (this w)
  /\ timeouts w1 = timeouts w
  /\ reconnectTimer (this w1) = reconnectTimer (this w)
  /\ commandQueue (this w2) = commandQueue (this w) ++ [mkQueued next (nextPromise w)]
  /\ (reconnectTimer (this w) = None ->
      trace w2 = trace w1 ++ [SetTimeout (nextHandle w)
                                (backoffDelay (reconnectAttempts (this w)))]).
Proof.
  intros Hf w1 w2. subst w2 w1. cbn [step]. rewrite Hf.
  unfold_world w; cbn in *.
  repeat (split; [reflexivity|]).
  split; [now destruct rt|].
  intros ->. reflexivity.
Qed.

Lemma failed_write_is_not_retried_witness :
  let w := run [PortOpened; CallSendCommand "4"] (construct true false) in
  let w1 := step w (WriteCallback 1%nat (Some "EIO")) in
  isConnected (this w1) = false
  /\ commandQueue (this (step w1 (CallSendCommand "4"))) = [mkQueued "4" 2].
Proof.
  intros w w1.
  destruct (failed_write_is_not_retried w 1%nat "4" "EIO" "4" eq_refl)
    as (_ & H2 & _ & _ & _ & H6 & _).
  split; [exact H2|exact H6].
Defined.

(** X6. The device check of a connected controller does nothing while the
    device file exists.  When the file is gone and the port is open it
    closes the port; the close notification then marks the controller
    disconnected and, if no timer handle is held, arms a retry. *)
Theorem device_check_forces_reconnection (w : World) (h : nat) :
  isConnected (this w) = true ->
  portIsOpen w = true ->
  In h (intervals w) ->
  step w (DeviceCheckTick h true) = w
  /\ trace (step w (DeviceCheckTick h false)) = trace w ++ [PortClose]
  /\ isConnected (this (run [DeviceCheckTick h false; PortClosed] w)) = false
  /\ (reconnectTimer (this w) = None ->
      trace (run [DeviceCheckTick h false; PortClosed] w)
      = trace w ++ [PortClose;
                    SetTimeout (nextHandle w)
                      (backoffDelay (reconnectAttempts (this w)))]).
Proof.
  intros Hc Ho Hin. unfold portIsOpen in Ho.
  pose proof (existsb_In h _ Hin) as Hex.
  unfold_world w; cbn in *. subst ic. rewrite Hex.
  destruct po as [[au io]|]; [|discriminate]. cbn in Ho. subst io.
  cbn. split; [reflexivity|]. split; [reflexivity|].
  split; [now destruct rt|].
  intros ->. cbn. now rewrite <- app_assoc.
Qed.

Lemma device_check_forces_reconnection_witness :
  let w := run [PortOpened] (construct true false) in
  trace (run [DeviceCheckTick 0%nat false; PortClosed] w)
  = trace w ++ [PortClose; SetTimeout 1%nat 1000].
Proof.
  intros w.
  destruct (device_check_forces_reconnection w 0%nat eq_refl eq_refl
              (or_introl eq_refl)) as (_ & _ & _ & H).
  exact (H eq_refl).
Defined.

(** *** What is never rejected *)

Ltac no_rejection :=
  first [ exists []; split; [now rewrite app_nil_r|reflexivity]
        | eexists; split; [reflexivity|reflexivity]
        | eexists; split; [rewrite <- app_assoc; reflexivity|reflexivity] ].

Lemma step_no_queue_rejection (w : World) (e : Event) :
  noCleanup e = true ->
  exists d, trace (step w e) = trace w ++ d
            /\ forallb (fun a => negb (isQueueRejection a)) d = true.
Proof.
  intros He. destruct e; try discriminate He.
  - unfold_world w; cbn. destruct ic; cbn; [no_rejection|].
    destruct po; cbn; [destruct rt; cbn|]; no_rejection.
  - unfold_world w; cbn. destruct ic; cbn.
    + destruct po; cbn; no_rejection.
    + destruct rt; cbn; no_rejection.
  - destruct (port (this w)) as [sp|] eqn:E.
    + rewrite (step_PortOpened w sp E). cbn. eexists. split; [reflexivity|].
      clear. induction (commandQueue (this w)); cbn; auto.
    + cbn. rewrite E. no_rejection.
  - unfold_world w; cbn. destruct po; cbn; [destruct rt; cbn|]; no_rejection.
  - unfold_world w; cbn. destruct po; cbn; [destruct rt; cbn|]; no_rejection.
  - unfold_world w; cbn. destruct (existsb _ _); [destruct err|]; cbn; no_rejection.
  - unfold_world w; cbn.
    destruct (find _ _) as [[? ?]|]; [destruct err|]; cbn; no_rejection.
  - unfold_world w; unfold step, armed; cbn.
    destruct (existsb _ _); cbn; [|no_rejection].
    destruct po as [[au []]|]; cbn; no_rejection.
  - unfold_world w; cbn.
    destruct (existsb _ _); cbn; [|no_rejection].
    destruct deviceExists, ic, rt as [h0|]; unfold portIsOpen; cbn;
      try destruct po as [[au []]|]; cbn; no_rejection.
Qed.

(** X7. Without a call of [cleanup()] the controller never rejects a queued
    command: with the unbounded retry policy the purge "Max reconnection
    attempts reached" never runs, so whatever the port and the callers do, no
    rejection [Command ... failed: ...] appears. *)
Theorem queued_commands_rejected_by_cleanup_only
        (w : World) (evs : list Event) :
  forallb noCleanup evs = true ->
  exists d, trace (run evs w) = trace w ++ d
            /\ forall reason q, ~ In (rejectQueued reason q) d.
Proof.
  intros He.
  assert (H : exists d, trace (run evs w) = trace w ++ d
                        /\ forallb (fun a => negb (isQueueRejection a)) d = true).
  { revert w. induction evs as [|e evs IH]; intros w; cbn in *.
    - exists []. now rewrite app_nil_r.
    - apply andb_prop in He as [He1 He2].
      destruct (step_no_queue_rejection w e He1) as (d1 & E1 & H1).
      destruct (IH He2 (step w e)) as (d2 & E2 & H2).
      exists (d1 ++ d2). unfold run in E2. rewrite E2, E1, <- app_assoc.
      split; [reflexivity|]. now rewrite forallb_app, H1, H2. }
  destruct H as (d & E & Hd). exists d. split; [exact E|].
  intros reason q Hin. rewrite forallb_forall in Hd.
  specialize (Hd _ Hin). unfold rejectQueued in Hd. cbn in Hd.
  destruct (String.append (command q) _) in Hd; discriminate Hd.
Qed.

Lemma queued_commands_rejected_by_cleanup_only_witness :
  let w := construct false false in
  let evs := [CallSendCommand "4"; ReconnectTimerFired 1%nat; PortErrored] in
  exists d, trace (run evs w) = trace w ++ d
            /\ forall reason q, ~ In (rejectQueued reason q) d.
Proof.
  intros w evs.
  exact (queued_commands_rejected_by_cleanup_only w evs eq_refl).
Defined.

(** *** Construction *)

(** X8. The constructor arms the device check (one interval of 5000 ms) in
    every case.  If the device file exists and the port object is created,
    it creates the port closed, calls [port.open] once and arms no retry;
    otherwise it creates no port and arms the first retry, for 1000 ms. *)
Theorem constructor_connects_or_arms_a_retry (deviceExists ctorThrows : bool) :
  let w := construct deviceExists ctorThrows in
  intervals w = [0%nat]
  /\ deviceCheckInterval (this w) = Some 0%nat
  /\ isConnected (this w) = false
  /\ commandQueue (this w) = []
  /\ if deviceExists && negb ctorThrows
     then port (this w) = Some (mkPort false false)
          /\ trace w = [SetInterval 0 5000; PortNew false; PortOpen 0]
          /\ timeouts w = [] /\ reconnectTimer (this w) = None
     else port (this w) = None
          /\ trace w = [SetInterval 0 5000; SetTimeout 1 1000]
          /\ timeouts w = [(1%nat, 1000)] /\ reconnectTimer (this w) = Some 1%nat.
Proof. destruct deviceExists, ctorThrows; cbn; repeat split. Qed.

(** *** The retry timer fires *)

(** X9. When the retry timer fires, the old port is closed if it is
    open, a new port that opens itself is created, the attempt counter grows
    by one, no timeout is left armed and the commands stay in the queue. *)
Theorem retry_timer_recreates_the_port
        (deviceExists ctorThrows : bool) (evs : list Event) (h : nat) :
  let w := run evs (construct deviceExists ctorThrows) in
  armed h w = true ->
  let w' := step w (ReconnectTimerFired h) in
  port (this w') = Some (mkPort true false)
  /\ trace w' = trace w ++ (if portIsOpen w then [PortClose] else []) ++ [PortNew true]
  /\ reconnectAttempts (this w') = reconnectAttempts (this w) + 1
  /\ timeouts w' = []
  /\ commandQueue (this w') = commandQueue (this w).
Proof.
  intros w Ha w'.
  assert (Hown : timersOwned w) by apply run_timersOwned, construct_timersOwned.
  destruct (timer_fired_is_spent w h Hown Ha) as (_ & Hts & Hra).
  fold w' in Hts, Hra.
  split; [|split; [|split; [exact Hra|split; [exact Hts|]]]];
    subst w'; unfold step; rewrite Ha; unfold portIsOpen;
    generalize w; intros w0; unfold_world w0; cbn;
    destruct po as [[au []]|]; cbn; rewrite <- ?app_assoc; reflexivity.
Qed.

Lemma retry_timer_recreates_the_port_witness :
  let w := run [CallSendCommand "4"] (construct false false) in
  let w' := step w (ReconnectTimerFired 1%nat) in
  port (this w') = Some (mkPort true false)
  /\ commandQueue (this w') = [mkQueued "4" 0].
Proof.
  intros w w'.
  destruct (retry_timer_recreates_the_port false false [CallSendCommand "4"]
              1%nat eq_refl) as (H1 & _ & _ & _ & H5).
  split; [exact H1|exact H5].
Defined.

(** *** Every promise *)

(** X10. In every run, each promise handed out by [connect()] or
    [sendCommand()], queued or not, is settled at most once and written for
    at most once; a promise that exists is either settled or held in exactly
    one place (the queue, a write callback or an open callback), and nothing
    is settled or written for a promise that does not exist yet. *)
Theorem every_promise_settled_at_most_once
        (deviceExists ctorThrows : bool) (evs : list Event) (p : nat) :
  let w := run evs (construct deviceExists ctorThrows) in
  (settles p (trace w) <= 1)%nat
  /\ (writesOf p (trace w) <= 1)%nat
  /\ ((p < nextPromise w)%nat ->
      (occ p (queuedPromises w) + occ p (writingPromises w)
       + occ p (pendingOpens w) + settles p (trace w) = 1)%nat)
  /\ ((nextPromise w <= p)%nat ->
      settles p (trace w) = 0%nat /\ writesOf p (trace w) = 0%nat
      /\ ~ In p (queuedPromises w) /\ ~ In p (writingPromises w)).
Proof.
  intros w.
  pose proof (run_accounted evs _ (accounted_construct deviceExists ctorThrows) p)
    as (H1 & H2 & H3).
  fold w in H1, H2, H3.
  split; [split_tests; lia|]. split; [split_tests; lia|].
  split; [intros Hlt; split_tests; lia|].
  intros Hge.
  split; [split_tests; lia|]. split; [split_tests; lia|].
  split; intros Hin; apply occ_In in Hin; split_tests; lia.
Qed.

(** *** The bounded variant of [attemptReconnect] *)



End ControllerExtrasProofs.

Module RetryExtrasProofs.
Import Retry RetryProofs.

(** The loop from any [retryCount] on: it stops at the first call that is
    fulfilled or at the call that uses up the attempts, whichever comes
    first, and hands back what that call gave. *)
Lemma retryLoop_shape (device : Device) (command : string) (maxRetries : Z) (n : nat) :
  forall retryCount,
    0 <= retryCount ->
    (Z.to_nat (maxRetries - retryCount) <= n)%nat ->
    exists k,
      retryLoop device command maxRetries retryCount
      = (device (Z.to_nat retryCount + k)%nat, attempts command k)
      /\ (forall j, (j < k)%nat ->
                    exists e, device (Z.to_nat retryCount + j)%nat = Rejected e)
      /\ (k = 0%nat \/ retryCount + Z.of_nat k < maxRetries)
      /\ ((exists r, device (Z.to_nat retryCount + k)%nat = Fulfilled r)
          \/ retryCount + Z.of_nat k + 1 >= maxRetries).
Proof.
  induction n as [|n IH]; intros c Hc Hn;
    destruct (device (Z.to_nat c)) as [r|e] eqn:E;
    try (exists 0%nat; rewrite Nat.add_0_r, E;
         split; [now apply retryLoop_fulfilled|];
         split; [intros j Hj; lia|]; split; [now left|left; now exists r]).
  - exists 0%nat. rewrite Nat.add_0_r, E.
    split; [apply retryLoop_exhausted; [assumption|lia]|].
    split; [intros j Hj; lia|]. split; [now left|right; lia].
  - destruct (Z_ge_lt_dec (c + 1) maxRetries) as [Hge|Hlt].
    + exists 0%nat. rewrite Nat.add_0_r, E.
      split; [apply retryLoop_exhausted; [assumption|lia]|].
      split; [intros j Hj; lia|]. split; [now left|right; lia].
    + destruct (IH (c + 1) ltac:(lia) ltac:(lia)) as (k & Hk & Hrej & Hlim & Hend).
      assert (Hc1 : Z.to_nat (c + 1) = S (Z.to_nat c)) by lia.
      rewrite Hc1 in Hk, Hrej, Hend.
      exists (S k). rewrite (retryLoop_again _ _ _ c e E Hlt), Hk. cbn [fst snd].
      replace (Z.to_nat c + S k)%nat with (S (Z.to_nat c) + k)%nat by lia.
      split; [reflexivity|]. split; [|split].
      * intros [|j] Hj; [rewrite Nat.add_0_r; now exists e|].
        destruct (Hrej j ltac:(lia)) as [e' He']. exists e'.
        rewrite <- He'. f_equal. lia.
      * right. destruct Hlim as [->|Hlim]; lia.
      * destruct Hend as [Hend|Hend]; [now left|right; lia].
Qed.


(** X13. With [maxRetries] of 1, 0 or below, the wrapper still calls the
    device once; it does not wait and does not call again, and the outcome
    of that one call is its own. *)
Theorem retry_wrapper_calls_once_without_retries
        (device : Device) (command : string) (maxRetries : Z) :
  maxRetries <= 1 ->
  sendCommandWithRetry device command maxRetries = (device 0%nat, [Call command]).
Proof.
  intros Hm. unfold sendCommandWithRetry.
  destruct (device 0%nat) as [r|e] eqn:E.
  - now apply retryLoop_fulfilled.
  - apply retryLoop_exhausted; [assumption|lia].
Qed.

Lemma retry_wrapper_calls_once_without_retries_witness :
  let failing := fun _ : nat => Rejected (mkResponse false "Device not connected") in
  sendCommandWithRetry failing "4" 0 = (failing 0%nat, [Call "4"]).
Proof.
  intros failing.
  apply (retry_wrapper_calls_once_without_retries failing "4" 0). lia.
Defined.

(** X14. For any [maxRetries] of at least 1, if the first [maxRetries]
    calls all fail, the wrapper makes exactly [maxRetries] calls, waits
    2000 ms between them ([2000 * (maxRetries - 1)] ms in all) and throws
    the failure of the last call. *)
Theorem retry_wrapper_gives_up_after_max_retries
        (device : Device) (command : string) (maxRetries : Z) :
  1 <= maxRetries ->
  (forall j, Z.of_nat j < maxRetries -> exists e, device j = Rejected e) ->
  let res := sendCommandWithRetry device command maxRetries in
  fst res = device (Z.to_nat (maxRetries - 1))
  /\ (exists e, fst res = Rejected e)
  /\ snd res = attempts command (Z.to_nat (maxRetries - 1))
  /\ calls (snd res) = Z.to_nat maxRetries
  /\ slept (snd res) = 2000 * (maxRetries - 1).
Proof.
  intros Hm Hrej res.
  destruct (Hrej (Z.to_nat (maxRetries - 1)) ltac:(lia)) as [e He].
  assert (E : res = (Rejected e, attempts command (Z.to_nat (maxRetries - 1)))).
  { apply retryLoop_all_fail; [lia| |exact He|lia].
    intros j Hj. apply Hrej. lia. }
  rewrite E. cbn [fst snd].
  split; [now rewrite He|]. split; [now exists e|]. split; [reflexivity|].
  split; [rewrite attempts_calls; lia|rewrite attempts_slept; unfold retryDelay; lia].
Qed.

Lemma retry_wrapper_gives_up_after_max_retries_witness :
  let failing := fun _ : nat => Rejected (mkResponse false "Device not connected") in
  calls (snd (sendCommandWithRetry failing "4" 5)) = 5%nat
  /\ slept (snd (sendCommandWithRetry failing "4" 5)) = 8000.
Proof.
  intros failing.
  destruct (retry_wrapper_gives_up_after_max_retries failing "4" 5 ltac:(lia)
              (fun j _ => ex_intro _ _ eq_refl))
    as (_ & _ & _ & H4 & H5).
  split; [exact H4|exact H5].
Defined.

End RetryExtrasProofs.

Module RoutesProofs.
Import Retry RetryProofs Routes.

(** X15. Every command route makes at most three calls of
    [sendCommand] with its own command.  It answers 200 with the device's
    response as soon as a call is fulfilled, and makes no further call; it
    answers 500 with [success = false] and the message of the third failure
    only after three rejected calls. *)
Theorem route_replies_after_at_most_three_calls (device : Device) (r : Route) :
  exists k,
    (k < 3)%nat
    /\ snd (handle device r) = attempts (commandOf r) k
    /\ (forall j, (j < k)%nat -> exists e, device j = Rejected e)
    /\ match device k with
       | Fulfilled result => fst (handle device r) = mkHttp 200 result
       | Rejected error =>
           k = 2%nat
           /\ fst (handle device r) = mkHttp 500 (mkResponse false (message error))
       end.
Proof.
  destruct (RetryExtrasProofs.retryLoop_shape device (commandOf r) 3 3 0
              ltac:(lia) ltac:(lia)) as (k & Hk & Hrej & Hlim & Hend).
  exists k. unfold handle, sendCommandWithRetry. rewrite Hk. cbn [fst snd].
  split; [lia|]. split; [reflexivity|]. split; [exact Hrej|].
  cbn [Z.to_nat Nat.add] in *.
  destruct (device k) as [result|error]; [reflexivity|].
  split; [|reflexivity].
  destruct Hend as [[r0 Hr0]|Hend]; [discriminate|lia].
Qed.

(** X16. The page and the server agree: every button of the page
    requests a path that one of the five command routes serves, every route
    has exactly one button, and two different routes never send the same
    command to the device. *)
Theorem every_button_reaches_its_own_route :
  (forall b, exists r, routeOf (callApi b) = Some r)
  /\ (forall r, routeOf (pathOf r) = Some r)
  /\ (forall r, exists b, callApi b = pathOf r
                          /\ forall b', callApi b' = pathOf r -> b' = b)
  /\ (forall r1 r2, commandOf r1 = commandOf r2 -> r1 = r2).
Proof.
  split; [|split; [|split]].
  - intros []; eexists; reflexivity.
  - intros []; reflexivity.
  - intros [].
    + exists PlasticBtn. split; [reflexivity|]. intros [] H; (reflexivity || discriminate H).
    + exists MetalBtn. split; [reflexivity|]. intros [] H; (reflexivity || discriminate H).
    + exists OtherBtn. split; [reflexivity|]. intros [] H; (reflexivity || discriminate H).
    + exists OpenDoorBtn. split; [reflexivity|]. intros [] H; (reflexivity || discriminate H).
    + exists CloseDoorBtn. split; [reflexivity|]. intros [] H; (reflexivity || discriminate H).
  - intros [] [] H; (reflexivity || discriminate H).
Qed.

End RoutesProofs.

Module BlockchainListenerExtrasProofs.
Import BlockchainListener ListenerExtras BlockchainListenerProofs.

(** *** What a turn fetches *)

Lemma forLogs_trace (id : nat) (tip : Z) (logs : list Log) :
  forall l, exists d, trace (forLogs id tip logs l) = trace l ++ d /\ fetched d = [].
Proof.
  induction logs as [|log rest IH]; intros l; cbn [forLogs].
  - exists []. cbn. now rewrite app_nil_r.
  - destruct log; try apply IH.
    + exists [Dispatch id "4"]. cbn. auto.
    + exists [LogError "Error checking for events"]. cbn. auto.
Qed.

Ltac fetches_nothing d :=
  exists d; split; [cbn; rewrite <- ?app_assoc, ?app_nil_r; reflexivity|left; reflexivity].

Lemma step_fetches (l : Listener) (e : Event) :
  exists d, trace (step l e) = trace l ++ d
            /\ (fetched d = []
                \/ exists tip, lastBlockChecked l < tip
                               /\ fetched d = [(lastBlockChecked l + 1, tip)]).
Proof.
  destruct e; cbn [step].
  - fetches_nothing [GetBlockNumber].
  - unfold stopListening. destruct (pollingInterval l) as [h|].
    + fetches_nothing [ClearInterval h].
    + fetches_nothing (@nil Action).
  - destruct (starting l); [destruct res as [n|]|].
    + fetches_nothing [SetInterval (nextHandle l) POLLING_INTERVAL_MS; GetBlockNumber].
    + fetches_nothing [LogError "Error starting blockchain listener"].
    + fetches_nothing (@nil Action).
  - destruct (existsb _ _).
    + fetches_nothing [GetBlockNumber].
    + fetches_nothing (@nil Action).
  - destruct (scanAt id l) as [[| |]|]; try (fetches_nothing (@nil Action)).
    unfold onBlockNumber. destruct res as [tip|].
    + destruct (Z.leb_spec tip (lastBlockChecked l)).
      * fetches_nothing (@nil Action).
      * exists [GetLogs (lastBlockChecked l + 1) tip]. split; [reflexivity|].
        right. exists tip. auto.
    + fetches_nothing [LogError "Error checking for events"].
  - destruct (scanAt id l) as [[| |]|]; try (fetches_nothing (@nil Action)).
    destruct res as [logs|]; cbn [onLogs].
    + destruct (forLogs_trace id currentBlock logs l) as (d & Hd & Hf).
      exists d. auto.
    + fetches_nothing [LogError "Error checking for events"].
  - destruct (scanAt id l) as [[| |]|]; try (fetches_nothing (@nil Action)).
    unfold onDispatched. destruct ok.
    + destruct (forLogs_trace id currentBlock rest l) as (d & Hd & Hf).
      exists d. auto.
    + destruct (forLogs_trace id currentBlock rest
                  (emit (LogError "Failed to open door") l)) as (d & Hd & Hf).
      exists (LogError "Failed to open door" :: d). rewrite Hd. cbn.
      rewrite <- app_assoc. auto.
Qed.

(** X17. Whatever the chain node answers and whenever the interval
    fires, the poller never asks for an empty or inverted range: every
    [getLogs] it issues has [fromBlock <= toBlock]. *)
Theorem fetched_ranges_are_never_inverted (l : Listener) (evs : list Event) :
  exists d, trace (run evs l) = trace l ++ d
            /\ Forall (fun ft => fst ft <= snd ft) (fetched d).
Proof.
  revert l. induction evs as [|e evs IH]; intros l.
  - exists []. cbn. rewrite app_nil_r. auto.
  - destruct (step_fetches l e) as (d1 & E1 & H1).
    destruct (IH (step l e)) as (d2 & E2 & H2).
    exists (d1 ++ d2). cbn [run fold_left]. unfold run in E2.
    rewrite E2, E1, <- app_assoc. split; [reflexivity|].
    rewrite fetched_app. apply Forall_app. split; [|exact H2].
    destruct H1 as [->|(tip & Hlt & ->)]; constructor; [cbn; lia|constructor].
Qed.

(** *** Above the start block *)

Lemma endScan_above n id l : aboveStart n l -> aboveStart n (endScan id l).
Proof.
  intros (H1 & H2 & H3). split; [exact H1|]. split; [exact H2|].
  cbn. rewrite Forall_forall in *. intros s Hs. apply filter_In in Hs as [Hs _]. auto.
Qed.

Lemma suspend_above n id pt l :
  aboveStart n l -> tipAbove n pt -> aboveStart n (suspend id pt l).
Proof.
  intros (H1 & H2 & H3) Hpt. split; [exact H1|]. split; [exact H2|].
  cbn. rewrite Forall_forall in *. intros s Hs.
  apply in_map_iff in Hs as (s0 & <- & Hs0).
  destruct (fst s0 =? id)%nat; [exact Hpt|auto].
Qed.

Lemma emit_above n a l : aboveStart n l -> aboveStart n (emit a l).
Proof. intros H. exact H. Qed.

Lemma forLogs_above n id tip logs :
  forall l, aboveStart n l -> n <= tip -> aboveStart n (forLogs id tip logs l).
Proof.
  induction logs as [|log rest IH]; intros l Hl Ht; cbn [forLogs].
  - apply endScan_above. destruct Hl as (H1 & H2 & H3). repeat split; assumption.
  - destruct log; try (apply IH; assumption).
    + apply suspend_above; [apply emit_above; assumption|exact Ht].
    + apply endScan_above, emit_above, Hl.
Qed.

Lemma scanAt_above n id pt l :
  aboveStart n l -> scanAt id l = Some pt -> tipAbove n pt.
Proof.
  intros (_ & _ & H) Hat. unfold scanAt in Hat.
  destruct (find _ _) as [s|] eqn:E; [|discriminate].
  injection Hat as <-. apply find_some in E as [Hin _].
  rewrite Forall_forall in H. auto.
Qed.

Lemma step_above n l e :
  noStart e = true -> aboveStart n l -> aboveStart n (step l e).
Proof.
  intros He Hl. destruct e; try discriminate He; cbn [step].
  - unfold stopListening. destruct (pollingInterval l); [|exact Hl]. exact Hl.
  - destruct Hl as (H1 & H2 & H3). rewrite H1. repeat split; assumption.
  - destruct (existsb _ _); [|exact Hl].
    destruct Hl as (H1 & H2 & H3). split; [exact H1|]. split; [exact H2|].
    cbn. apply Forall_app. split; [exact H3|]. constructor; [exact I|constructor].
  - destruct (scanAt id l) as [[| |]|]; try exact Hl.
    unfold onBlockNumber. destruct res as [tip|].
    + destruct (Z.leb_spec tip (lastBlockChecked l)).
      * now apply endScan_above.
      * apply suspend_above; [now apply emit_above|].
        destruct Hl as (_ & H2 & _). unfold tipAbove. cbn. lia.
    + now apply endScan_above, emit_above.
  - destruct (scanAt id l) as [[| |]|] eqn:Hat; try exact Hl.
    pose proof (scanAt_above n id _ l Hl Hat) as Ht.
    destruct res as [logs|]; cbn [onLogs].
    + now apply forLogs_above.
    + now apply endScan_above, emit_above.
  - destruct (scanAt id l) as [[| |]|] eqn:Hat; try exact Hl.
    pose proof (scanAt_above n id _ l Hl Hat) as Ht.
    unfold onDispatched. apply forLogs_above; [|exact Ht].
    destruct ok; [exact Hl|now apply emit_above].
Qed.

Lemma run_above n evs :
  forall l,
    forallb noStart evs = true ->
    aboveStart n l ->
    Forall (fun ft => n < fst ft <= snd ft) (fetched (trace l)) ->
    aboveStart n (run evs l)
    /\ Forall (fun ft => n < fst ft <= snd ft) (fetched (trace (run evs l))).
Proof.
  induction evs as [|e evs IH]; intros l He Hl Hf; [auto|].
  cbn in He. apply andb_prop in He as [He1 He2].
  cbn [run fold_left]. apply IH; [exact He2|now apply step_above|].
  destruct (step_fetches l e) as (d & E & H). rewrite E, fetched_app.
  apply Forall_app. split; [exact Hf|].
  destruct Hl as (_ & Hn & _).
  destruct H as [->|(tip & Hlt & ->)]; constructor; [cbn; lia|constructor].
Qed.

(** X18. Once [startListening] has read block [n] as its starting
    point, and as long as it is not called again, the cursor never falls
    below [n] and every range fetched starts above [n]: what happened at or
    before the start block is never looked at, however the scans
    interleave. *)
Theorem never_fetches_at_or_below_the_start_block (n : Z) (evs : list Event) :
  forallb noStart evs = true ->
  let l := run evs (run [CallStartListening; StartBlockNumber (Some n)] initial) in
  n <= lastBlockChecked l
  /\ Forall (fun ft => n < fst ft <= snd ft) (fetched (trace l)).
Proof.
  intros He l.
  destruct (run_above n evs
              (run [CallStartListening; StartBlockNumber (Some n)] initial) He)
    as ((_ & H & _) & Hf).
  - split; [reflexivity|]. split; [cbn; lia|].
    cbn. constructor; [exact I|constructor].
  - cbn. constructor.
  - split; assumption.
Qed.

Lemma never_fetches_at_or_below_the_start_block_witness :
  let l := run [BlockNumber 0%nat (Some 105); Tick 0%nat; BlockNumber 1%nat (Some 103);
                Logs 1%nat (Some []); Logs 0%nat (Some [])]
               (run [CallStartListening; StartBlockNumber (Some 100)] initial) in
  100 <= lastBlockChecked l
  /\ Forall (fun ft => 100 < fst ft <= snd ft) (fetched (trace l)).
Proof.
  intros l.
  exact (never_fetches_at_or_below_the_start_block 100
           [BlockNumber 0%nat (Some 105); Tick 0%nat; BlockNumber 1%nat (Some 103);
            Logs 1%nat (Some []); Logs 0%nat (Some [])] eq_refl).
Defined.

(** *** A log that cannot be parsed *)

Lemma forLogs_throws (id : nat) (tip : Z) (post pre : list Log) :
  forall (oks : list bool) (l : Listener) (pt0 : ScanPoint),
    scanAt id l = Some pt0 ->
    forallb parses pre = true ->
    List.length oks = List.length (filter isPurchase pre) ->
    let l' := run (map (Dispatched id) oks)
                  (forLogs id tip (pre ++ ParseThrows :: post) l) in
    scanAt id l' = None
    /\ lastBlockChecked l' = lastBlockChecked l
    /\ exists d, trace l' = trace l ++ d ++ [LogError "Error checking for events"]
                 /\ fetched d = []
                 /\ dispatchesOf id d = repeat (Dispatch id "4") (List.length oks).
Proof.
  induction pre as [|log pre IH]; intros oks l pt0 Hat Hp Hlen.
  - destruct oks; [|discriminate]. cbn.
    split; [apply scanAt_endScan|]. split; [reflexivity|].
    exists []. auto.
  - cbn in Hp. apply andb_prop in Hp as [Hlog Hp].
    destruct log; try discriminate Hlog.
    + destruct oks as [|ok oks]; [discriminate|]. cbn in Hlen.
      injection Hlen as Hlen.
      cbn [app forLogs map run fold_left].
      set (l1 := suspend id (AwaitDispatch tip (pre ++ ParseThrows :: post))
                         (emit (Dispatch id "4") l)).
      assert (Hat1 : scanAt id l1 = Some (AwaitDispatch tip (pre ++ ParseThrows :: post))).
      { subst l1. apply (scanAt_suspend id _ pt0). exact Hat. }
      cbn [step]. rewrite Hat1. unfold onDispatched.
      set (l2 := if ok then l1 else emit (LogError "Failed to open door") l1).
      assert (Hat2 : scanAt id l2 = Some (AwaitDispatch tip (pre ++ ParseThrows :: post)))
        by (subst l2; destruct ok; exact Hat1).
      destruct (IH oks l2 _ Hat2 Hp Hlen) as (H1 & H2 & d & Hd & Hf & Hdis).
      split; [exact H1|].
      split; [transitivity (lastBlockChecked l2);
              [exact H2|subst l2 l1; destruct ok; reflexivity]|].
      assert (Ht2 : exists d2, trace l2 = trace l ++ Dispatch id "4" :: d2
                               /\ fetched d2 = [] /\ dispatchesOf id d2 = []).
      { subst l2 l1. destruct ok; cbn.
        - exists []. auto.
        - exists [LogError "Failed to open door"]. rewrite <- app_assoc. auto. }
      destruct Ht2 as (d2 & Ht2 & Hf2 & Hd2).
      exists (Dispatch id "4" :: d2 ++ d).
      unfold run in Hd. rewrite Hd, Ht2, <- !app_assoc.
      split; [cbn [app]; now rewrite <- app_assoc|].
      split.
      * change (fetched (Dispatch id "4" :: d2 ++ d)) with (fetched (d2 ++ d)).
        now rewrite fetched_app, Hf2, Hf.
      * cbn. rewrite Nat.eqb_refl.
        change (filter _ (d2 ++ d)) with (dispatchesOf id (d2 ++ d)).
        now rewrite dispatchesOf_app, Hd2, Hdis.
    + exact (IH oks l pt0 Hat Hp Hlen).
    + exact (IH oks l pt0 Hat Hp Hlen).
Qed.

Lemma forLogs_keeps (id : nat) (tip : Z) (logs : list Log) :
  forall l, nextScan (forLogs id tip logs l) = nextScan l
            /\ armed (forLogs id tip logs l) = armed l.
Proof.
  induction logs as [|log rest IH]; intros l; cbn [forLogs].
  - split; reflexivity.
  - destruct log; try apply IH; split; reflexivity.
Qed.

Lemma run_scan_keeps (evs : list Event) :
  forall l,
    forallb isScanEvent evs = true ->
    nextScan (run evs l) = nextScan l /\ armed (run evs l) = armed l.
Proof.
  induction evs as [|e evs IH]; intros l He; [split; reflexivity|].
  cbn in He. apply andb_prop in He as [He1 He2].
  cbn [run fold_left]. destruct (IH (step l e) He2) as [H1 H2].
  unfold run in H1, H2. rewrite H1, H2.
  destruct e; try discriminate He1; cbn [step].
  - destruct (scanAt id l) as [[| |]|]; try (split; reflexivity).
    unfold onBlockNumber. destruct res as [t|]; [|split; reflexivity].
    destruct (t <=? lastBlockChecked l); split; reflexivity.
  - destruct (scanAt id l) as [[| |]|]; try (split; reflexivity).
    destruct res as [logs|]; cbn [onLogs]; [apply forLogs_keeps|split; reflexivity].
  - destruct (scanAt id l) as [[| |]|]; try (split; reflexivity).
    unfold onDispatched.
    destruct (forLogs_keeps id currentBlock rest
                (if ok then l else emit (LogError "Failed to open door") l)) as [K1 K2].
    rewrite K1, K2. destruct ok; split; reflexivity.
Qed.

Lemma scan_events (id : nat) (res : option (list Log)) (oks : list bool) :
  forallb isScanEvent (Logs id res :: map (Dispatched id) oks) = true.
Proof. cbn. induction oks; cbn; auto. Qed.

Lemma run_fresh_from (evs : list Event) :
  forall l, freshScans l -> freshScans (run evs l).
Proof.
  induction evs as [|e evs IH]; intros l Hl; [exact Hl|].
  cbn [run fold_left]. apply IH. now apply step_fresh.
Qed.

(** The scan whose logs hold one that cannot be parsed, from any state. *)
Lemma throwing_scan
      (l : Listener) (id : nat) (tip : Z) (pre post : list Log) (oks : list bool) :
  scanAt id l = Some (AwaitLogs tip) ->
  forallb parses pre = true ->
  List.length oks = List.length (filter isPurchase pre) ->
  let l' := run (Logs id (Some (pre ++ ParseThrows :: post))
                   :: map (Dispatched id) oks) l in
  scanAt id l' = None
  /\ lastBlockChecked l' = lastBlockChecked l
  /\ exists d, trace l' = trace l ++ d ++ [LogError "Error checking for events"]
               /\ fetched d = []
               /\ dispatchesOf id d
                  = repeat (Dispatch id "4") (List.length (filter isPurchase pre)).
Proof.
  intros Hat Hp Hlen l'. subst l'. cbn [run fold_left step]. rewrite Hat.
  cbn [onLogs]. rewrite <- Hlen.
  exact (forLogs_throws id tip post pre oks l _ Hat Hp Hlen).
Qed.

(** X19. When [parseLog] throws on a log of the range, the scan
    stops there: the purchases before that log have been dispatched, one
    command each, those after it are not, the error is logged by the outer
    [catch], and the cursor is left where it was.  So the scan of the next
    tick that sees a tip above the cursor fetches from the block after the
    unchanged cursor; when the scan ran alone, that is the whole range it
    had fetched, with the purchases already served, fetched again. *)
Theorem unparsable_log_ends_the_scan_and_keeps_the_cursor
        (l : Listener) (id : nat) (tip : Z) (pre post : list Log) (oks : list bool) :
  scanAt id l = Some (AwaitLogs tip) ->
  forallb parses pre = true ->
  List.length oks = List.length (filter isPurchase pre) ->
  let bad := pre ++ ParseThrows :: post in
  let l' := run (Logs id (Some bad) :: map (Dispatched id) oks) l in
  scanAt id l' = None
  /\ lastBlockChecked l' = lastBlockChecked l
  /\ (exists d, trace l' = trace l ++ d ++ [LogError "Error checking for events"]
                /\ fetched d = []
                /\ dispatchesOf id d
                   = repeat (Dispatch id "4") (List.length (filter isPurchase pre)))
  /\ (forall h tip',
         In h (armed l) ->
         freshScans l ->
         lastBlockChecked l < tip' ->
         let l2 := run [Tick h; BlockNumber (nextScan l) (Some tip')] l' in
         fetched (trace l2) = fetched (trace l) ++ [(lastBlockChecked l + 1, tip')])
  /\ (forall l0 h tip',
         scans l0 = [] ->
         In h (armed l0) ->
         lastBlockChecked l0 < tip ->
         tip <= tip' ->
         let id0 := nextScan l0 in
         let l1 := run ([Tick h; BlockNumber id0 (Some tip); Logs id0 (Some bad)]
                          ++ map (Dispatched id0) oks) l0 in
         let l2 := run [Tick h; BlockNumber (S id0) (Some tip')] l1 in
         lastBlockChecked l1 = lastBlockChecked l0
         /\ dispatchesOf id0 (trace l1)
            = dispatchesOf id0 (trace l0)
              ++ repeat (Dispatch id0 "4") (List.length (filter isPurchase pre))
         /\ fetched (trace l2)
            = fetched (trace l0) ++ [(lastBlockChecked l0 + 1, tip);
                                     (lastBlockChecked l0 + 1, tip')]).
Proof.
  intros Hat Hp Hlen bad l'.
  assert (Hlater :
            forall (la : Listener) (ida : nat) (h : nat) (tip' : Z),
              scanAt ida la = Some (AwaitLogs tip) ->
              In h (armed la) ->
              freshScans la ->
              lastBlockChecked la < tip' ->
              let lb := run (Logs ida (Some bad) :: map (Dispatched ida) oks) la in
              fetched (trace (run [Tick h; BlockNumber (nextScan la) (Some tip')] lb))
              = fetched (trace la) ++ [(lastBlockChecked la + 1, tip')]).
  { intros la ida h tip' Hata Hh Hf Hlt lb.
    destruct (throwing_scan la ida tip pre post oks Hata Hp Hlen)
      as (_ & Hc & d & Hd & Hfd & _).
    fold bad in Hc, Hd. fold lb in Hc, Hd.
    destruct (run_scan_keeps _ la (scan_events ida (Some bad) oks)) as [Kn Ka].
    fold lb in Kn, Ka.
    assert (Hfb : freshScans lb) by (apply run_fresh_from; exact Hf).
    clearbody lb.
    destruct (next_scan_fetches lb h tip' ltac:(rewrite Ka; exact Hh) Hfb
                ltac:(rewrite Hc; exact Hlt)) as (_ & _ & _ & H4 & _).
    rewrite Kn in H4. rewrite H4, Hc, Hd, !fetched_app, Hfd. cbn.
    now rewrite app_nil_r. }
  destruct (throwing_scan l id tip pre post oks Hat Hp Hlen) as (H1 & H2 & H3).
  fold bad in H1, H2, H3. fold l' in H1, H2, H3.
  split; [exact H1|]. split; [exact H2|]. split; [exact H3|]. split.
  - intros h tip' Hh Hf Hlt l2. subst l2 l'. exact (Hlater l id h tip' Hat Hh Hf Hlt).
  - intros l0 h tip' Hs Hh Hlt Hle id0 l1 l2.
    assert (Hf0 : freshScans l0) by (intros s Hin; rewrite Hs in Hin; destruct Hin).
    destruct (next_scan_fetches l0 h tip Hh Hf0 Hlt)
      as (Ht & Hat0 & Hc & Hfe & Hfr & Har & Hn).
    fold id0 in Ht, Hat0, Hc, Hfe, Hfr, Har, Hn.
    set (la := run [Tick h; BlockNumber id0 (Some tip)] l0) in *.
    assert (E1 : l1 = run (Logs id0 (Some bad) :: map (Dispatched id0) oks) la).
    { subst l1 la. unfold run. rewrite fold_left_app. reflexivity. }
    clearbody la. clearbody l1. subst l1.
    destruct (throwing_scan la id0 tip pre post oks Hat0 Hp Hlen)
      as (_ & Hc1 & d & Hd & _ & Hdis).
    fold bad in Hc1, Hd.
    split; [rewrite Hc1; exact Hc|]. split.
    + rewrite Hd, Ht, !dispatchesOf_app, Hdis. cbn. now rewrite !app_nil_r.
    + subst l2. rewrite <- Hn.
      rewrite (Hlater la id0 h tip' Hat0 ltac:(rewrite Har; exact Hh) Hfr
                 ltac:(rewrite Hc; lia)).
      rewrite Hfe, Hc, <- app_assoc. reflexivity.
Qed.

Lemma unparsable_log_ends_the_scan_and_keeps_the_cursor_witness :
  let l := run [CallStartListening; StartBlockNumber (Some 100);
                BlockNumber 0%nat (Some 105)] initial in
  let bad := [ContentsPurchased 7 "0xC0" 1]
               ++ ParseThrows :: [ContentsPurchased 8 "0xC1" 2] in
  let l' := run (Logs 0%nat (Some bad) :: map (Dispatched 0%nat) [true]) l in
  let l0 := run [CallStartListening; StartBlockNumber (Some 100);
                 BlockNumber 0%nat (Some 100)] initial in
  let l1 := run ([Tick 0%nat; BlockNumber 1%nat (Some 105); Logs 1%nat (Some bad)]
                   ++ map (Dispatched 1%nat) [true]) l0 in
  ((scanAt 0%nat l' = None /\ lastBlockChecked l' = 100)
   /\ fetched (trace l) = [(101, 105)]
   /\ fetched (trace (run [Tick 0%nat; BlockNumber 1%nat (Some 106)] l'))
      = [(101, 105); (101, 106)])
  /\ dispatchesOf 1%nat (trace l1) = [Dispatch 1%nat "4"]
  /\ fetched (trace (run [Tick 0%nat; BlockNumber 2%nat (Some 106)] l1))
     = [(101, 105); (101, 106)].
Proof.
  intros l bad l' l0 l1.
  destruct (unparsable_log_ends_the_scan_and_keeps_the_cursor
              l 0%nat 105 [ContentsPurchased 7 "0xC0" 1] [ContentsPurchased 8 "0xC1" 2]
              [true] eq_refl eq_refl eq_refl) as (H1 & H2 & _ & H4 & H5).
  split.
  - split; [split; [exact H1|exact H2]|]. split; [reflexivity|].
    exact (H4 0%nat 106 (or_introl eq_refl) (run_fresh _) ltac:(cbn; lia)).
  - destruct (H5 l0 0%nat 106 eq_refl (or_introl eq_refl)
                ltac:(cbn; lia) ltac:(lia)) as (_ & J2 & J3).
    split; [exact J2|exact J3].
Defined.

(** *** Stopping *)

Lemma forLogs_same (id : nat) (tip : Z) (logs : list Log) :
  forall l l',
    sameScans l l' ->
    sameScans (forLogs id tip logs l) (forLogs id tip logs l')
    /\ exists d, trace (forLogs id tip logs l) = trace l ++ d
                 /\ trace (forLogs id tip logs l') = trace l' ++ d.
Proof.
  induction logs as [|log rest IH]; intros l l' [Hs Hc]; cbn [forLogs].
  - split; [split; cbn; [now rewrite Hs|reflexivity]|].
    exists []. cbn. now rewrite !app_nil_r.
  - destruct log; try (apply IH; split; assumption).
    + split; [split; cbn; [now rewrite Hs|exact Hc]|].
      exists [Dispatch id "4"]. auto.
    + split; [split; cbn; [now rewrite Hs|exact Hc]|].
      exists [LogError "Error checking for events"]. auto.
Qed.

Ltac same_quiet d :=
  split; [split; cbn; congruence|exists d; cbn; rewrite ?app_nil_r; auto].

Lemma step_same (l l' : Listener) (e : Event) :
  isScanEvent e = true ->
  sameScans l l' ->
  sameScans (step l e) (step l' e)
  /\ exists d, trace (step l e) = trace l ++ d /\ trace (step l' e) = trace l' ++ d.
Proof.
  intros He [Hs Hc].
  assert (Hat : forall id, scanAt id l' = scanAt id l)
    by (intros id; unfold scanAt; now rewrite Hs).
  destruct e; try discriminate He; cbn [step]; rewrite Hat.
  - destruct (scanAt id l) as [[| |]|]; try (same_quiet (@nil Action)).
    unfold onBlockNumber. destruct res as [tip|].
    + rewrite <- Hc. destruct (tip <=? lastBlockChecked l).
      * same_quiet (@nil Action).
      * same_quiet [GetLogs (lastBlockChecked l + 1) tip].
    + same_quiet [LogError "Error checking for events"].
  - destruct (scanAt id l) as [[| |]|]; try (same_quiet (@nil Action)).
    destruct res as [logs|]; cbn [onLogs].
    + apply forLogs_same. split; assumption.
    + same_quiet [LogError "Error checking for events"].
  - destruct (scanAt id l) as [[| |]|]; try (same_quiet (@nil Action)).
    unfold onDispatched. destruct ok.
    + apply forLogs_same. split; assumption.
    + destruct (forLogs_same id currentBlock rest
                  (emit (LogError "Failed to open door") l)
                  (emit (LogError "Failed to open door") l'))
        as (H & d & E1 & E2); [split; assumption|].
      split; [exact H|]. exists (LogError "Failed to open door" :: d).
      rewrite E1, E2. cbn. now rewrite <- !app_assoc.
Qed.

Lemma run_same (evs : list Event) :
  forall l l',
    forallb isScanEvent evs = true ->
    sameScans l l' ->
    sameScans (run evs l) (run evs l')
    /\ exists d, trace (run evs l) = trace l ++ d /\ trace (run evs l') = trace l' ++ d.
Proof.
  induction evs as [|e evs IH]; intros l l' He Hl.
  - split; [exact Hl|]. exists []. cbn. now rewrite !app_nil_r.
  - cbn in He. apply andb_prop in He as [He1 He2].
    destruct (step_same l l' e He1 Hl) as (H1 & d1 & E1 & E1').
    destruct (IH _ _ He2 H1) as (H2 & d2 & E2 & E2').
    split; [exact H2|]. exists (d1 ++ d2). cbn [run fold_left]. unfold run in E2, E2'.
    now rewrite E2, E2', E1, E1', <- !app_assoc.
Qed.

(** X20. [stopListening] stops the ticks, not the scans: afterwards
    the interval it held starts no scan and a second [stopListening] does
    nothing, but every scan in progress goes on exactly as it would have
    without the stop, with the same fetches, the same dispatches to the
    device and the same cursor. *)
Theorem stop_listening_stops_ticks_not_scans (l : Listener) (evs : list Event) :
  forallb isScanEvent evs = true ->
  let s := stopListening l in
  (forall h, pollingInterval l = Some h -> step s (Tick h) = s)
  /\ stopListening s = s
  /\ scans (run evs s) = scans (run evs l)
  /\ lastBlockChecked (run evs s) = lastBlockChecked (run evs l)
  /\ exists d, trace (run evs l) = trace l ++ d
               /\ trace (run evs s) = trace s ++ d.
Proof.
  intros He s.
  assert (Hsame : sameScans l s).
  { subst s. unfold stopListening. destruct (pollingInterval l); split; reflexivity. }
  destruct (run_same evs l s He Hsame) as ((H1 & H2) & d & E1 & E2).
  split; [|split; [|split; [now rewrite H1|split; [now rewrite H2|]]]].
  - intros h Hh. subst s. unfold stopListening. rewrite Hh. cbn [step armed emit].
    assert (Hno : existsb (Nat.eqb h) (filter (fun i => negb (i =? h)%nat) (armed l)) = false).
    { apply not_true_is_false. intros Hex. apply existsb_exists in Hex as (x & Hx & Hxh).
      apply filter_In in Hx as [_ Hx]. apply Nat.eqb_eq in Hxh. subst x.
      rewrite Nat.eqb_refl in Hx. discriminate Hx. }
    now rewrite Hno.
  - subst s. unfold stopListening. destruct (pollingInterval l) eqn:E; cbn; [reflexivity|].
    now rewrite E.
  - exists d. auto.
Qed.

Lemma stop_listening_stops_ticks_not_scans_witness :
  let l := run [CallStartListening; StartBlockNumber (Some 100);
                BlockNumber 0%nat (Some 105);
                Logs 0%nat (Some [ContentsPurchased 7 "0xC0" 1])] initial in
  step (stopListening l) (Tick 0%nat) = stopListening l
  /\ exists d, trace (run [Dispatched 0%nat true] l) = trace l ++ d
               /\ trace (run [Dispatched 0%nat true] (stopListening l))
                  = trace (stopListening l) ++ d.
Proof.
  intros l.
  destruct (stop_listening_stops_ticks_not_scans l [Dispatched 0%nat true] eq_refl)
    as (H1 & _ & _ & _ & H5).
  split; [exact (H1 0%nat eq_refl)|exact H5].
Defined.

(** *** A start that fails *)

(** X21. If the first [getBlockNumber] of [startListening] fails, the
    error is logged and swallowed and nothing is armed: no interval, no
    scan.  Unless [startListening] is called again the listener then does
    nothing at all, whatever happens: it never fetches and never
    dispatches. *)
Theorem failed_start_leaves_the_listener_idle (evs : list Event) :
  forallb noStart evs = true ->
  let l := run [CallStartListening; StartBlockNumber None] initial in
  run evs l = l
  /\ trace l = [GetBlockNumber; LogError "Error starting blockchain listener"]
  /\ armed l = [] /\ pollingInterval l = None /\ scans l = [].
Proof.
  intros He l. split; [|repeat split].
  induction evs as [|e evs IH]; [reflexivity|].
  cbn in He. apply andb_prop in He as [He1 He2].
  cbn [run fold_left].
  assert (Hstep : step l e = l) by (destruct e; try discriminate He1; reflexivity).
  rewrite Hstep. exact (IH He2).
Qed.

Lemma failed_start_leaves_the_listener_idle_witness :
  let l := run [CallStartListening; StartBlockNumber None] initial in
  run [Tick 0%nat; BlockNumber 0%nat (Some 5); CallStopListening] l = l.
Proof.
  intros l.
  exact (proj1 (failed_start_leaves_the_listener_idle
                  [Tick 0%nat; BlockNumber 0%nat (Some 5); CallStopListening] eq_refl)).
Defined.

End BlockchainListenerExtrasProofs.

Module SimpleControllerProofs.
Import SimpleController.

Ltac unfold_controller w :=
  destruct w as [ic np pos pws tr].

Lemma writes_app tr d : writes (tr ++ d) = writes tr ++ writes d.
Proof. apply flat_map_app. Qed.

Lemma opens_app tr d : opens (tr ++ d) = (opens tr + opens d)%nat.
Proof. unfold opens. now rewrite filter_app, length_app. Qed.

Lemma notConnectedRejections_app tr d :
  notConnectedRejections (tr ++ d)
  = (notConnectedRejections tr + notConnectedRejections d)%nat.
Proof. unfold notConnectedRejections. now rewrite filter_app, length_app. Qed.

Ltac settle :=
  cbn; rewrite ?app_nil_r;
  repeat match goal with
         | |- _ /\ _ => split
         | |- forall _, _ => intro
         end;
  try discriminate; try reflexivity; try assumption; try lia; try (constructor; fail);
  try match goal with b : Build |- _ => destruct b; reflexivity end.

Ltac delta d := exists d; settle.

Ltac written command :=
  settle; constructor; [|constructor]; exists command; cbn; auto.

(** What one turn adds to the trace. *)
Lemma step_delta (b : Build) (w : Controller) (e : Event) :
  exists d,
    trace (step b w e) = trace w ++ d
    /\ (opens d <= if isConnectCall e then 1 else 0)%nat
    /\ Forall (fun data => exists command, data = payload b command
                                           /\ (b = CommandWords ->
                                               In command ["OPEN"; "CLOSE"; "SORT"]))
              (writes d)
    /\ (isConnected w = false ->
        writes d = []
        /\ notConnectedRejections d = (if isCommandCall b e then 1 else 0)%nat
        /\ opens d = (if isConnectCall e then 1 else 0)%nat
        /\ (isPortOpened e = false -> isConnected (step b w e) = false)).
Proof.
  unfold_controller w. destruct e; cbn [step].
  - destruct ic; [delta [Resolve np (mkResponse true "Already connected")]
                 |delta [PortOpen np]].
  - destruct b; [|delta (@nil Action)].
    destruct ic; [exists [PortWrite np (payload CommandWords "OPEN")]; written "OPEN"
                 |delta [Reject np (mkResponse false "Device not connected")]].
  - destruct b; [|delta (@nil Action)].
    destruct ic; [exists [PortWrite np (payload CommandWords "CLOSE")]; written "CLOSE"
                 |delta [Reject np (mkResponse false "Device not connected")]].
  - destruct b; [|delta (@nil Action)].
    destruct ic; [exists [PortWrite np (payload CommandWords "SORT")]; written "SORT"
                 |delta [Reject np (mkResponse false "Device not connected")]].
  - destruct b; [delta (@nil Action)|].
    destruct ic; [exists [PortWrite np (payload CommandDigits command)]; settle;
                  constructor; [|constructor]; exists command;
                  split; [reflexivity|discriminate]
                 |delta [Reject np (mkResponse false "Device not connected")]].
  - delta (@nil Action).
  - delta (@nil Action).
  - delta (@nil Action).
  - cbn. destruct (existsb _ _); [destruct err as [msg|]|]; cbn.
    + delta [Reject p (mkResponse false ("Failed to open port: " ++ msg))].
    + delta [Resolve p (mkResponse true "Connected successfully")].
    + delta (@nil Action).
  - cbn. destruct (find _ _) as [[q command]|]; [destruct err as [msg|]|]; cbn.
    + delta [Reject p (mkResponse false ("Failed to send command: " ++ msg))].
    + delta [Resolve p (mkResponse true ("Command " ++ command ++ " sent successfully"))].
    + delta (@nil Action).
Qed.

(** X22. While the port is not open the first controller sends
    nothing and keeps nothing for later: as long as no 'open' event arrives,
    every command is rejected with "Device not connected" in the turn it is
    made, nothing is written to the port, and the port is opened only by the
    calls of [connect()], once for each. *)
Theorem disconnected_commands_are_rejected_not_queued
        (b : Build) (w : Controller) (evs : list Event) :
  isConnected w = false ->
  forallb (fun e => negb (isPortOpened e)) evs = true ->
  let w' := run b evs w in
  isConnected w' = false
  /\ exists d, trace w' = trace w ++ d
               /\ writes d = []
               /\ notConnectedRejections d = List.length (filter (isCommandCall b) evs)
               /\ opens d = List.length (filter isConnectCall evs).
Proof.
  revert w. induction evs as [|e evs IH]; intros w Hc He.
  - cbn. split; [exact Hc|]. exists []. now rewrite app_nil_r.
  - cbn in He. apply andb_prop in He as [He1 He2].
    apply negb_true_iff in He1.
    destruct (step_delta b w e) as (d1 & E1 & _ & _ & H1).
    destruct (H1 Hc) as (Hw1 & Hr1 & Ho1 & Hc1).
    destruct (IH (step b w e) (Hc1 He1) He2) as (Hc2 & d2 & E2 & Hw2 & Hr2 & Ho2).
    cbn [run fold_left]. split; [exact Hc2|].
    exists (d1 ++ d2). unfold run in E2. rewrite E2, E1, <- app_assoc.
    split; [reflexivity|].
    rewrite writes_app, notConnectedRejections_app, opens_app, Hw1, Hw2, Hr1, Hr2, Ho1, Ho2.
    cbn [filter]. split; [reflexivity|].
    split; [destruct (isCommandCall b e)|destruct (isConnectCall e)]; reflexivity.
Qed.

Lemma disconnected_commands_are_rejected_not_queued_witness :
  let w' := run CommandDigits
                [CallSendCommand "4"; OpenCallback 0%nat (Some "Port is opening");
                 CallSendCommand "5"; PortClosed]
                (startup CommandDigits) in
  isConnected w' = false
  /\ exists d, trace w' = trace (startup CommandDigits) ++ d
               /\ writes d = []
               /\ notConnectedRejections d = 2%nat
               /\ opens d = 0%nat.
Proof.
  intros w'.
  exact (disconnected_commands_are_rejected_not_queued CommandDigits
           (startup CommandDigits)
           [CallSendCommand "4"; OpenCallback 0%nat (Some "Port is opening");
            CallSendCommand "5"; PortClosed] eq_refl eq_refl).
Defined.

(** X23. In the build whose [sendCommand] is private, whatever the
    callers and the port do, the only data ever written to the port are
    [OPEN], [CLOSE] and [SORT], each followed by one newline. *)
Theorem only_the_three_words_are_written (evs : list Event) :
  Forall (fun data => In data (map (payload CommandWords) ["OPEN"; "CLOSE"; "SORT"]))
         (writes (trace (run CommandWords evs (startup CommandWords)))).
Proof.
  assert (H : forall w,
             Forall (fun data => In data (map (payload CommandWords)
                                              ["OPEN"; "CLOSE"; "SORT"]))
                    (writes (trace w)) ->
             Forall (fun data => In data (map (payload CommandWords)
                                              ["OPEN"; "CLOSE"; "SORT"]))
                    (writes (trace (run CommandWords evs w)))).
  { induction evs as [|e evs IH]; intros w Hw; [exact Hw|].
    cbn [run fold_left]. apply IH.
    destruct (step_delta CommandWords w e) as (d & E & _ & Hd & _).
    rewrite E, writes_app. apply Forall_app. split; [exact Hw|].
    eapply Forall_impl; [|exact Hd].
    intros data (command & -> & Hin). apply in_map. now apply Hin. }
  apply H. cbn. constructor.
Qed.


End SimpleControllerProofs.

Module TestPurchaseProofs.
Import TestPurchase.

(** X25. The payment computed for the purchase is half of the
    current value, rounded down: it never exceeds half of the value and is
    less than one unit below it. *)
Theorem payment_is_half_the_value_rounded_down (currentValue : Z) :
  0 <= currentValue ->
  calculatePaymentAmount currentValue = currentValue / 2
  /\ 2 * calculatePaymentAmount currentValue <= currentValue
     <= 2 * calculatePaymentAmount currentValue + 1.
Proof.
  intros Hv.
  assert (E : calculatePaymentAmount currentValue = currentValue / 2).
  { unfold calculatePaymentAmount.
    replace (currentValue * 50 * 100) with (currentValue * 5000) by lia.
    change 10000 with (2 * 5000).
    rewrite Z.quot_mul_cancel_r by lia.
    apply Z.quot_div_nonneg; lia. }
  rewrite E. split; [reflexivity|].
  pose proof (Z.div_mod currentValue 2 ltac:(lia)).
  pose proof (Z.mod_pos_bound currentValue 2 ltac:(lia)). lia.
Qed.

Lemma payment_is_half_the_value_rounded_down_witness :
  calculatePaymentAmount 50000001 = 50000001 / 2.
Proof.
  exact (proj1 (payment_is_half_the_value_rounded_down 50000001 ltac:(lia))).
Defined.

Lemma findFrom_spec (contract : Contract) (remaining : nat) :
  forall i,
    match fst (findFrom contract remaining i) with
    | Some k =>
        (i <= k < i + remaining)%nat
        /\ active contract k = true
        /\ (forall j, (i <= j < k)%nat -> active contract j = false)
        /\ snd (findFrom contract remaining i) = seq i (S (k - i))
    | None =>
        (forall j, (i <= j < i + remaining)%nat -> active contract j = false)
        /\ snd (findFrom contract remaining i) = seq i remaining
    end.
Proof.
  induction remaining as [|n IH]; intros i; cbn [findFrom].
  - cbn. split; [intros j Hj; lia|reflexivity].
  - assert (Hnext :
              active contract i = false ->
              match fst (findFrom contract n (S i)) with
              | Some k =>
                  (i <= k < i + S n)%nat
                  /\ active contract k = true
                  /\ (forall j, (i <= j < k)%nat -> active contract j = false)
                  /\ i :: snd (findFrom contract n (S i)) = seq i (S (k - i))
              | None =>
                  (forall j, (i <= j < i + S n)%nat -> active contract j = false)
                  /\ i :: snd (findFrom contract n (S i)) = seq i (S n)
              end).
    { intros Hi. specialize (IH (S i)).
      destruct (fst (findFrom contract n (S i))) as [k|].
      - destruct IH as (Hk & Ha & Hbefore & Hq).
        split; [lia|]. split; [exact Ha|]. split.
        + intros j Hj. destruct (Nat.eq_dec j i) as [->|Hne]; [exact Hi|].
          apply Hbefore. lia.
        + rewrite Hq. replace (S (k - i)) with (S (S (k - S i))) by lia. reflexivity.
      - destruct IH as (Hall & Hq). split.
        + intros j Hj. destruct (Nat.eq_dec j i) as [->|Hne]; [exact Hi|].
          apply Hall. lia.
        + now rewrite Hq. }
    unfold active in Hnext at 1. unfold active at 1.
    destruct (contract i) as [info|] eqn:E.
    + destruct (isActive info) eqn:Ea; cbn [fst snd].
      * split; [lia|]. split; [unfold active; now rewrite E|].
        split; [intros j Hj; lia|]. now rewrite Nat.sub_diag.
      * apply Hnext. reflexivity.
    + cbn [fst snd]. apply Hnext. reflexivity.
Qed.

(** X26. [findExistingGarbageCan] asks for the ids 0, 1, 2, ... in
    order and stops at the first one whose garbage can is active: it returns
    that id, below 10, and asks for no further one; an id whose lookup throws
    counts as not active.  It returns null exactly when none of the ids 0 to
    9 is active, after asking for all ten. *)
Theorem first_active_garbage_can_is_found (contract : Contract) :
  match fst (findExistingGarbageCan contract) with
  | Some k =>
      (k < 10)%nat
      /\ active contract k = true
      /\ (forall j, (j < k)%nat -> active contract j = false)
      /\ snd (findExistingGarbageCan contract) = seq 0 (S k)
  | None =>
      (forall j, (j < 10)%nat -> active contract j = false)
      /\ snd (findExistingGarbageCan contract) = seq 0 10
  end.
Proof.
  pose proof (findFrom_spec contract 10 0) as H.
  unfold findExistingGarbageCan.
  destruct (fst (findFrom contract 10 0)) as [k|].
  - destruct H as (Hk & Ha & Hb & Hq).
    split; [lia|]. split; [exact Ha|]. split; [intros j Hj; apply Hb; lia|].
    rewrite Hq. now rewrite Nat.sub_0_r.
  - destruct H as (Hall & Hq). split; [intros j Hj; apply Hall; lia|exact Hq].
Qed.

Lemma pendingIdIn_none logs :
  pendingIdIn logs = None -> forall id, ~ In (PendingGarbageCanCreated id) logs.
Proof.
  induction logs as [|log rest IH]; cbn; intros H id Hin; [exact Hin|].
  destruct log; try discriminate H;
    destruct Hin as [Hin|Hin]; try discriminate Hin; exact (IH H id Hin).
Qed.

(** The loop stops at the first [PendingGarbageCanCreated] log. *)
Lemma pendingIdIn_first logs pending :
  pendingIdIn logs = Some pending ->
  exists pre post,
    logs = pre ++ PendingGarbageCanCreated pending :: post
    /\ forall id, ~ In (PendingGarbageCanCreated id) pre.
Proof.
  induction logs as [|log rest IH]; cbn; [discriminate|].
  destruct log; intros H;
    try (destruct (IH H) as (pre & post & -> & Hpre);
         eexists (_ :: pre), post; split; [reflexivity|];
         intros id [Hin|Hin]; [discriminate Hin|exact (Hpre id Hin)]).
  injection H as ->. exists [], rest. split; [reflexivity|]. intros id [].
Qed.

Lemma deployedIdIn_none logs :
  deployedIdIn logs = None -> forall p id, ~ In (GarbageCanDeployed p id) logs.
Proof.
  induction logs as [|log rest IH]; cbn; intros H p id Hin; [exact Hin|].
  destruct log; try discriminate H;
    destruct Hin as [Hin|Hin]; try discriminate Hin; exact (IH H p id Hin).
Qed.

(** The loop stops at the first [GarbageCanDeployed] log. *)
Lemma deployedIdIn_first logs id :
  deployedIdIn logs = Some id ->
  exists pre deployedFor post,
    logs = pre ++ GarbageCanDeployed deployedFor id :: post
    /\ forall p i, ~ In (GarbageCanDeployed p i) pre.
Proof.
  induction logs as [|log rest IH]; cbn; [discriminate|].
  destruct log; intros H;
    try (destruct (IH H) as (pre & deployedFor & post & -> & Hpre);
         eexists (_ :: pre), deployedFor, post; split; [reflexivity|];
         intros p i [Hin|Hin]; [discriminate Hin|exact (Hpre p i Hin)]).
  injection H as ->. exists [], pendingGarbageCanId, rest.
  split; [reflexivity|]. intros p i [].
Qed.

(** X27. [createNewGarbageCan] sends its transactions in one order:
    create, approve, stake, and stops at the first that fails: when the
    creation fails nothing is approved or staked, when the approval fails
    nothing is staked.  It stakes exactly the 100000000 units it approved,
    for the pending id of the first [PendingGarbageCanCreated] log of the
    creation receipt, or for id 0 when the receipt shows none.  It returns
    the id of the first [GarbageCanDeployed] log of the stake receipt,
    whatever pending id that log names; when the stake went through and its
    receipt shows no such log, it throws "Failed to find deployed garbage can
    ID" although the stake has been made. *)
Theorem new_garbage_can_is_staked_as_approved (chain : Chain) :
  let out := fst (createNewGarbageCan chain) in
  let txs := snd (createNewGarbageCan chain) in
  match createPendingGarbageCan chain 100000000 with
  | None => txs = [CreatePending 100000000] /\ out = ThrownByChain
  | Some createLogs =>
      exists pending,
        ((exists pre post,
             createLogs = pre ++ PendingGarbageCanCreated pending :: post
             /\ forall id, ~ In (PendingGarbageCanCreated id) pre)
         \/ (pending = 0
             /\ forall id, ~ In (PendingGarbageCanCreated id) createLogs))
        /\ if approve chain 100000000 then
             txs = [CreatePending 100000000; Approve 100000000;
                    Stake pending 100000000]
             /\ match stakeForGarbageCan chain pending 100000000 with
                | None => out = ThrownByChain
                | Some stakeLogs =>
                    (exists pre deployedFor id post,
                        stakeLogs = pre ++ GarbageCanDeployed deployedFor id :: post
                        /\ (forall p i, ~ In (GarbageCanDeployed p i) pre)
                        /\ out = Returned id)
                    \/ ((forall p i, ~ In (GarbageCanDeployed p i) stakeLogs)
                        /\ out = Thrown "Failed to find deployed garbage can ID")
                end
           else
             txs = [CreatePending 100000000; Approve 100000000]
             /\ out = ThrownByChain
  end.
Proof.
  intros out txs. subst out txs. unfold createNewGarbageCan.
  change targetAmount with 100000000.
  destruct (createPendingGarbageCan chain 100000000) as [createLogs|];
    [|split; reflexivity].
  set (pid := match pendingIdIn createLogs with Some id => id | None => 0 end).
  exists pid. split.
  - subst pid. destruct (pendingIdIn createLogs) as [id|] eqn:Ep.
    + left. now apply pendingIdIn_first.
    + right. split; [reflexivity|now apply pendingIdIn_none].
  - destruct (approve chain 100000000); cbn [negb]; [|split; reflexivity].
    destruct (stakeForGarbageCan chain pid 100000000) as [stakeLogs|];
      [|split; reflexivity].
    destruct (deployedIdIn stakeLogs) as [id|] eqn:Ed; cbn [fst snd].
    + split; [reflexivity|]. left.
      destruct (deployedIdIn_first stakeLogs id Ed) as (pre & dep & post & E & Hpre).
      exists pre, dep, id, post. auto.
    + split; [reflexivity|]. right. split; [now apply deployedIdIn_none|reflexivity].
Qed.

End TestPurchaseProofs.
